(** * LocalSequenceDiagrams: the script parser and the layout engine

    A shallow embedding of [parseScriptToArrays], [splitOnColonEscaped],
    [calculatePlacements], [calculateLaneGapsAndTextSize],
    [calculateEventPlacements] and [calculateTextDimensionsAscii] of the class
    [LocalSequenceDiagrams], the properties of them that the specification
    states (C1 to C10), and further properties of the code (X1 to X8).

    Conventions of the embedding.
    - A JavaScript string is a [string]; every character is one code unit
      below 256 (the scripts are Latin-1 text).
    - The parser builds its result by mutating objects that are reachable both
      from the [events] tree and from [eventStack].  Objects therefore live in
      a store ([heap]) and are named by their address; [eventStack] is a list
      of addresses.  What the parser returns is the tree read off the store
      when the loop has ended.
    - A JavaScript exception of the parser is the result [TypeError].
    - The layout engine works on the returned tree, which shares nothing
      between its branches; the properties it adds to an object ([width],
      [x], ...) are a finite map from the property name.  An actor is one
      object shared by [actors] and [actorDict]: the dictionary holds the
      index of the actor in [actors].
    - A number of the layout engine is an IEEE 754 double ([float], with the
      operations of the processor); a length or an index is a [nat].  A layout
      function returns [None] where the source throws or computes with
      [undefined].
    - [actorDict] is an object with a prototype: a lookup finds the own
      properties and the inherited ones. *)

From Stdlib Require Import String Ascii List ZArith QArith Qabs Lia Bool.
From Stdlib Require Import Floats.
From stdpp Require Import base option list strings gmap.

Local Open Scope string_scope.
Local Open Scope Z_scope.

(** ** JavaScript string primitives used by the parser *)

Module Js.

(** [String.prototype.trim] removes white space and line terminators.  Of
    the code units below 256 these are TAB, LF, VT, FF, CR, SPACE and
    NBSP. *)
Definition isWhiteSpace (c : ascii) : bool :=
  let n := N_of_ascii c in
  (((9 <=? n) && (n <=? 13)) || (n =? 32) || (n =? 160))%N.

Fixpoint trimStart (s : string) : string :=
  match s with
  | EmptyString => EmptyString
  | String c s' => if isWhiteSpace c then trimStart s' else s
  end.

Fixpoint trimEnd (s : string) : string :=
  match s with
  | EmptyString => EmptyString
  | String c s' =>
      let t := trimEnd s' in
      if isWhiteSpace c && (t =? EmptyString)%string then EmptyString else String c t
  end.

Definition trim (s : string) : string := trimEnd (trimStart s).

(** [s.indexOf(needle)]: the first position where [needle] occurs, [-1]
    when there is none. *)
Fixpoint indexOfFrom (needle s : string) (i : Z) : Z :=
  if String.prefix needle s then i
  else match s with
       | EmptyString => -1
       | String _ s' => indexOfFrom needle s' (i + 1)
       end.

Definition indexOf (needle s : string) : Z := indexOfFrom needle s 0.

(** [s.slice(start, end)], [end] being optional; negative positions count
    from the end of the string. *)
Definition clampIndex (len i : Z) : Z :=
  if i <? 0 then Z.max (len + i) 0 else Z.min i len.

Definition slice (s : string) (start : Z) (end_ : option Z) : string :=
  let len := Z.of_nat (String.length s) in
  let from := clampIndex len start in
  let to := match end_ with Some e => clampIndex len e | None => len end in
  if from <? to then substring (Z.to_nat from) (Z.to_nat (to - from)) s
  else EmptyString.

Definition startsWith (p s : string) : bool := String.prefix p s.

Definition endsWith (p s : string) : bool :=
  let n := String.length s in
  let m := String.length p in
  (m <=? n)%nat && (substring (n - m) m s =? p)%string.

(** [s.split(sep)] for a non-empty separator: the pieces between the
    successive non-overlapping occurrences of [sep], at least one piece.
    [skip] counts the characters of a matched separator still to be
    consumed, [acc] holds the current piece reversed. *)
Fixpoint splitGo (sep : string) (skip : nat) (acc : list ascii) (s : string)
  : list string :=
  match s with
  | EmptyString => [string_of_list_ascii (rev acc)]
  | String c s' =>
      match skip with
      | S k => splitGo sep k acc s'
      | O =>
          if String.prefix sep s
          then string_of_list_ascii (rev acc)
                 :: splitGo sep (String.length sep - 1) [] s'
          else splitGo sep 0 (c :: acc) s'
      end
  end.

Definition split (sep s : string) : list string := splitGo sep 0 [] s.

(** The double-quote character, code 34. *)
Definition dquote : ascii := "034"%char.

(** [s.replace(/q/g, '')], [q] being the double quote. *)
Fixpoint removeQuotes (s : string) : string :=
  match s with
  | EmptyString => EmptyString
  | String c s' =>
      if Ascii.eqb c dquote then removeQuotes s' else String c (removeQuotes s')
  end.

(** [list.includes(x)] where [x] may be [undefined] ([None]). *)
Definition includes (l : list string) (x : option string) : bool :=
  match x with
  | Some v => existsb (String.eqb v) l
  | None => false
  end.

(** Truthiness of a possibly undefined string: defined and non-empty. *)
Definition truthy (x : option string) : bool :=
  match x with
  | Some v => negb (v =? EmptyString)%string
  | None => false
  end.

End Js.

(** ** Results of code that may throw *)

Inductive result (A : Type) : Type :=
| Ok (a : A)
| TypeError.
Arguments Ok {A} a.
Arguments TypeError {A}.

Definition bind {A B : Type} (m : result A) (k : A -> result B) : result B :=
  match m with
  | Ok a => k a
  | TypeError => TypeError
  end.

#[global] Instance result_bind : MBind result := fun A B k m => bind m k.
#[global] Instance result_ret : MRet result := fun A a => Ok a.

(** ** The data model of the parser *)

(** Numeric properties that the layout engine adds to an object
    ([width], [height], [x], ...), by name. *)
Abbreviation props := (gmap string float).

(** An element of [actors]: [{ type, caption, alias }]; the participants
    that a signal creates have no [alias]. *)
Record actor : Type := Actor {
  actorType : string;
  actorCaption : string;
  actorAlias : option string;
  actorGeo : props
}.

(** Addresses of the objects of the store. *)
Abbreviation ref := nat.

(** The objects the parser creates.  An array of events holds the addresses
    of its elements.  [OCases] is an object [{ type, cases }], a conditional
    grouping or an explicit lifetime event; its [cases] pair each caption with
    the address of the case's own [events] array.  [OLife] is an object
    [{ type, src }], the lifetime event a signal implies.  [OSync] is an
    object [{ type, events }]. *)
Inductive obj : Type :=
| OArray (items : list ref)
| OSignal (caption src dest : string) (dotted open : bool)
| ONote (type caption : string) (align src : option string)
| OCases (type : string) (cases : list (string * ref))
| OLife (type src : string)
| OSync (type : string) (events : ref)
| ONumber (type start : string).

(** [o.type]; an array has no such property. *)
Definition typeOf (o : obj) : option string :=
  match o with
  | OArray _ => None
  | OSignal _ _ _ _ _ => Some "signal"
  | ONote t _ _ _ => Some t
  | OCases t _ => Some t
  | OLife t _ => Some t
  | OSync t _ => Some t
  | ONumber t _ => Some t
  end.

(** The state of the loop of [parseScriptToArrays].  The head of
    [eventStack] is the top of the stack, [eventStack.at(-1)]. *)
Record state : Type := State {
  actors : list actor;
  heap : list obj;
  eventStack : list ref
}.

Definition withHeap (st : state) (h : list obj) : state :=
  State (actors st) h (eventStack st).
Definition withStack (st : state) (s : list ref) : state :=
  State (actors st) (heap st) s.
Definition withActors (st : state) (a : list actor) : state :=
  State a (heap st) (eventStack st).

(** [const events = []; const eventStack = [events];] *)
Definition eventsRef : ref := 0%nat.
Definition initial : state := State [] [OArray []] [eventsRef].

(** Creating an object: it gets the next free address.  An object literal
    is created before the literals nested in it, so an object that is created
    together with its own empty [events] array holds the address that follows
    its own. *)
Definition alloc (o : obj) (st : state) : ref * state :=
  (length (heap st), withHeap st (heap st ++ [o])).

(** [eventStack.at(-1)]; reading a property of [undefined] throws. *)
Definition top (st : state) : result ref :=
  match eventStack st with
  | r :: _ => Ok r
  | [] => TypeError
  end.

(** [eventStack.at(-1).type] once the top is known. *)
Definition typeAt (st : state) (r : ref) : option string :=
  match heap st !! r with
  | Some o => typeOf o
  | None => None
  end.

(** [eventStack.pop()] and [eventStack.push(r)]. *)
Definition pop (st : state) : state := withStack st (tail (eventStack st)).
Definition pushFrame (r : ref) (st : state) : state :=
  withStack st (r :: eventStack st).

(** [if (eventStack.length > 1) { eventStack.pop(); }] *)
Definition guardedPop (st : state) : state :=
  if (1 <? length (eventStack st))%nat then pop st else st.

(** [target.push(x)]: only an array has [push]; calling it on another
    object throws ([push] is not a function). *)
Definition arrayPush (target x : ref) (st : state) : result state :=
  match heap st !! target with
  | Some (OArray items) =>
      Ok (withHeap st (<[target := OArray (items ++ [x])]> (heap st)))
  | _ => TypeError
  end.

(** [target.caption += s] on an annotation (the objects whose [type] is an
    annotation keyword are the annotations). *)
Definition appendCaption (target : ref) (s : string) (st : state) : result state :=
  match heap st !! target with
  | Some (ONote t caption align src) =>
      Ok (withHeap st (<[target := ONote t (caption ++ s) align src]> (heap st)))
  | _ => TypeError
  end.

(** [target.cases.push(c)] on a grouping. *)
Definition casesPush (target : ref) (c : string * ref) (st : state) : result state :=
  match heap st !! target with
  | Some (OCases t cases) =>
      Ok (withHeap st (<[target := OCases t (cases ++ [c])]> (heap st)))
  | _ => TypeError
  end.

(** Keyword commands *)
Definition participants : list string := ["participant"; "actor"].
Definition annotations : list string := ["note"; "ref"; "state"].
Definition synchrony : list string := ["parallel"; "serial"].
Definition lifetime : list string := ["activate"; "deactivate"; "destroy"].
Definition conditionalGroupings : list string := ["alt"; "opt"; "loop"; "par"; "seq"].

(** [splitOnColonEscaped(input)]: split at the first colon outside double
    quotes; [acc] is [input.slice(0, i)] reversed. *)
Fixpoint splitOnColonGo (quoted : bool) (acc : list ascii) (input : string)
  : string * string :=
  match input with
  | EmptyString => (string_of_list_ascii (rev acc), EmptyString)
  | String c rest =>
      if Ascii.eqb c Js.dquote then splitOnColonGo (negb quoted) (c :: acc) rest
      else if Ascii.eqb c ":"%char && negb quoted
           then (string_of_list_ascii (rev acc), rest)
           else splitOnColonGo quoted (c :: acc) rest
  end.

Definition splitOnColonEscaped (input : string) : string * string :=
  splitOnColonGo false [] input.

(** The fields of a signal line, once the guard [caption && dest] has let
    it through. *)
Record signalParts : Type := SignalParts {
  spCaption : string;
  spSrc : string;
  spDest : string;
  spDotted : bool;
  spOpen : bool;
  spNewActor : bool;
  spIsActivated : bool;
  spIsDeactivated : bool
}.

(** [if (s.startsWith(p)) { s = s.slice(1); flag = true; }] *)
Definition stripPrefix (p s : string) : string * bool :=
  if Js.startsWith p s then (Js.slice s 1 None, true) else (s, false).

(** The pure part of the SIGNALS branch: [None] when the guard
    [if (caption && dest)] fails. *)
Definition parseSignal (trimmedLine : string) : option signalParts :=
  let '(srcDest, caption) := splitOnColonEscaped trimmedLine in
  match Js.split "->" srcDest with
  | src :: rest =>
      let dest := head rest in
      if Js.truthy (Some caption) && Js.truthy dest then
        let caption := Js.trim caption in
        let dest := Js.removeQuotes (Js.trim (default EmptyString dest)) in
        let src := Js.removeQuotes (Js.trim src) in
        let '(src, dotted) :=
          if Js.endsWith "-" src then (Js.slice src 0 (Some (-1)), true)
          else (src, false) in
        let '(dest, open) := stripPrefix ">" dest in
        let '(dest, newActor) := stripPrefix "*" dest in
        let '(dest, isActivated) := stripPrefix "+" dest in
        let '(dest, isDeactivated) := stripPrefix "-" dest in
        Some (SignalParts caption src dest dotted open newActor
                isActivated isDeactivated)
      else None
  | [] => None
  end.

(** [if (!actors.find(a => a.caption === name)) actors.push({ type:
    'participant', caption: name })] *)
Definition knownCaption (name : string) (l : list actor) : bool :=
  existsb (fun a => (actorCaption a =? name)%string) l.

Definition ensureActor (name : string) (st : state) : state :=
  if knownCaption name (actors st) then st
  else withActors st (actors st ++ [Actor "participant" name None ∅]).

(** The effect of a signal line on the state. *)
Definition pushSignal (p : signalParts) (st : state) : result state :=
  t ← top st;
  let '(sig, st) :=
    alloc (OSignal (spCaption p) (spSrc p) (spDest p) (spDotted p) (spOpen p)) st in
  st ← arrayPush t sig st;
  st ← (if spIsActivated p then
          t ← top st;
          let '(e, st) := alloc (OLife "activate" (spDest p)) st in
          arrayPush t e st
        else Ok st);
  st ← (if spIsDeactivated p then
          t ← top st;
          let '(e, st) := alloc (OLife "deactivate" (spDest p)) st in
          arrayPush t e st
        else Ok st);
  Ok (ensureActor (spDest p) (ensureActor (spSrc p) st)).

Definition newline : string := String "010"%char EmptyString.

(** [command] and [text] of a trimmed line:
    [spaceIndex = trimmedLine.indexOf(' ')],
    [command = spaceIndex == -1 ? trimmedLine : trimmedLine.slice(0, spaceIndex)],
    [text = trimmedLine.slice(spaceIndex + 1)]. *)
Definition commandOf (trimmedLine : string) : string :=
  let spaceIndex := Js.indexOf " " trimmedLine in
  if spaceIndex =? -1 then trimmedLine
  else Js.slice trimmedLine 0 (Some spaceIndex).

Definition textOf (trimmedLine : string) : string :=
  let spaceIndex := Js.indexOf " " trimmedLine in
  Js.slice trimmedLine (spaceIndex + 1) None.

(** The body of the loop [for (const line of lines)] of
    [parseScriptToArrays]. *)
Definition parseLine (st : state) (line : string) : result state :=
  let trimmedLine := Js.trim line in
  let command := commandOf trimmedLine in
  let text := textOf trimmedLine in
  (* GROUPINGS: "end" can terminate annotations or conditional groupings *)
  if (command =? "end")%string then
    let st := guardedPop st in
    (* Conditional groupings are double nested on the event stack *)
    t ← top st;
    if Js.includes conditionalGroupings (typeAt st t) then Ok (pop st) else Ok st
  else
    t ← top st;
    (* ANNOTATIONS: the top of the stack is an annotation collecting
       multi-line text *)
    if Js.includes annotations (typeAt st t) then
      appendCaption t (trimmedLine ++ newline) st
    else if Js.includes annotations (Some command) then
      let parts := Js.split ":" text in
      let location := default EmptyString (parts !! 0%nat) in
      let caption := parts !! 1%nat in
      let words := Js.split " " location in
      let align := words !! 0%nat in
      let src := words !! 2%nat in
      let multiline := negb (Js.truthy caption) in
      let caption := Js.trim (if Js.truthy caption
                              then default EmptyString caption
                              else EmptyString) in
      let '(note, st) := alloc (ONote command caption align src) st in
      st ← arrayPush t note st;
      if multiline then Ok (pushFrame note st) else Ok st
    (* PARTICIPANTS *)
    else if Js.includes participants (Some command) then
      let parts := Js.split " as " text in
      let caption := default EmptyString (parts !! 0%nat) in
      let alias := parts !! 1%nat in
      let alias := if Js.truthy alias then alias else Some caption in
      Ok (withActors st (actors st ++ [Actor command caption alias ∅]))
    (* CONDITIONAL GROUPINGS *)
    else if Js.includes conditionalGroupings (Some command) then
      let '(alt, st) := alloc (OCases command [(text, S (length (heap st)))]) st in
      let '(caseEvents, st) := alloc (OArray []) st in
      st ← arrayPush t alt st;
      Ok (pushFrame caseEvents (pushFrame alt st))
    else if (command =? "else")%string then
      let st := guardedPop st in
      (* ensure that the active level is of type conditionalGroupings *)
      t ← top st;
      if Js.includes conditionalGroupings (typeAt st t) then
        let '(caseEvents, st) := alloc (OArray []) st in
        st ← casesPush t (text, caseEvents) st;
        Ok (pushFrame caseEvents st)
      else Ok st
    (* LIFETIME *)
    else if Js.includes lifetime (Some command) then
      let '(e, st) := alloc (OCases command [(text, S (length (heap st)))]) st in
      let '(caseEvents, st) := alloc (OArray []) st in
      arrayPush t e st
    (* LAYOUT CONTROLS *)
    else if Js.includes synchrony (Some command) then
      let '(e, st) := alloc (OSync command (S (length (heap st)))) st in
      let '(nested, st) := alloc (OArray []) st in
      st ← arrayPush t e st;
      Ok (pushFrame nested st)
    else if (command =? "}")%string then
      Ok (guardedPop st)
    (* NUMBERING *)
    else if (command =? "autonumber")%string then
      let '(e, st) := alloc (ONumber command text) st in
      arrayPush t e st
    (* COMMENTS *)
    else if Js.startsWith "#" command then
      Ok st
    (* SIGNALS *)
    else
      match parseSignal trimmedLine with
      | Some p => pushSignal p st
      | None => Ok st
      end.

(** [for (const line of lines) { ... }] *)
Fixpoint parseLines (lines : list string) (st : state) : result state :=
  match lines with
  | [] => Ok st
  | line :: rest => st ← parseLine st line; parseLines rest st
  end.

(** The state in which the loop of [parseScriptToArrays(script)] ends. *)
Definition parseScript (script : string) : result state :=
  parseLines (Js.split newline script) initial.

(** ** The event tree *)

Set Warnings "-register-all".

(** The value of [events] as a tree: each object with what it owns.  The
    last component of a signal, an annotation, a grouping and a case holds
    the geometry the layout engine adds to it. *)
Inductive event : Type :=
| ESignal (caption src dest : string) (dotted open : bool) (geo : props)
| ENote (type caption : string) (align src : option string) (geo : props)
| ECases (type : string) (cases : list ecase) (geo : props)
| ELife (type src : string)
| ESync (type : string) (events : list event)
| ENumber (type start : string)
with ecase : Type :=
| ECase (caption : string) (events : list event) (geo : props).

(** Reading the tree below an address off the store.  Every address held
    by an object is that of an object created later, so a walk is never
    longer than the store; [fuel] bounds it. *)
Fixpoint readEvent (fuel : nat) (h : list obj) (r : ref) : option event :=
  match fuel with
  | O => None
  | S fuel =>
      let readArray (a : ref) : option (list event) :=
        match h !! a with
        | Some (OArray items) => mapM (readEvent fuel h) items
        | _ => None
        end in
      match h !! r with
      | Some (OSignal caption src dest dotted open) =>
          Some (ESignal caption src dest dotted open ∅)
      | Some (ONote t caption align src) => Some (ENote t caption align src ∅)
      | Some (OCases t cases) =>
          cs ← mapM (fun c : string * ref =>
                       evs ← readArray (snd c); Some (ECase (fst c) evs ∅)) cases;
          Some (ECases t cs ∅)
      | Some (OLife t src) => Some (ELife t src)
      | Some (OSync t nested) => evs ← readArray nested; Some (ESync t evs)
      | Some (ONumber t start) => Some (ENumber t start)
      | Some (OArray _) | None => None
      end
  end.

Definition readArray (h : list obj) (a : ref) : option (list event) :=
  match h !! a with
  | Some (OArray items) => mapM (readEvent (length h) h) items
  | _ => None
  end.

(** [return { actors, events }]: the actors and the tree below [events]
    ([None] if the store could not be read as a tree). *)
Definition returned (r : result state) : result (list actor * option (list event)) :=
  st ← r;
  Ok (actors st, readArray (heap st) eventsRef).

(** [parseScriptToArrays(script)] *)
Definition parseScriptToArrays (script : string)
  : result (list actor * option (list event)) :=
  returned (parseScript script).

(** ** The layout engine *)

Local Open Scope float_scope.

(** The number of a length or of an index.  (Both are integers far below
    [2^53], up to which the conversion is exact.) *)
Definition ofNat (n : nat) : float :=
  PrimFloat.of_uint63 (Uint63.of_Z (Z.of_nat n)).

(** [Math.max(a, b)]: [NaN] as soon as one is [NaN]; of the two zeros the
    positive one is the larger. *)
Definition mathMax (a b : float) : float :=
  if PrimFloat.is_nan a || PrimFloat.is_nan b then nan
  else if a <? b then b
  else if b <? a then a
  else match PrimFloat.classify a with
       | NZero => b
       | _ => a
       end.

(** What [sizes.calculateTextDimensions] returns. *)
Record bbox : Type := BBox { bboxWidth : float; bboxHeight : float }.

(** The [sizes] argument of [calculatePlacements]. *)
Record sizes : Type := Sizes {
  padding : float;
  signalMargin : float;
  noteMarginX : float;
  noteMarginY : float;
  noteTextMarginX : float;
  noteTextMarginY : float;
  altMinHeight : float;
  altMarginBottom : float;
  altMarginItems : float;
  actorStickmanHeight : float;
  calculateTextDimensions : string -> bbox
}.

(** A list loop that collects what each element yields and rebuilds the
    list from the updated elements. *)
Definition forEachCollect {A B : Type} (body : A -> list B * A)
  : list A -> list B * list A :=
  fix loop (l : list A) : list B * list A :=
    match l with
    | [] => ([], [])
    | a :: rest =>
        let '(bs, a') := body a in
        let '(bs', rest') := loop rest in
        ((bs ++ bs')%list, a' :: rest')
    end.

(** A list loop that threads a cursor through the elements, each of which
    may fail. *)
Definition forEachThread {A S : Type} (body : A -> S -> option (S * A))
  : list A -> S -> option (S * list A) :=
  fix loop (l : list A) (s : S) : option (S * list A) :=
    match l with
    | [] => Some (s, [])
    | a :: rest =>
        match body a s with
        | Some (s1, a') =>
            match loop rest s1 with
            | Some (s2, rest') => Some (s2, a' :: rest')
            | None => None
            end
        | None => None
        end
    end.

(** An entry a lookup in [actorDict] can find: the pair [[val, idx]] that
    [reduce] stored for an actor (the actor is the element [idx] of [actors],
    one object shared with the array), or a truthy value that the dictionary
    inherits from its prototype, which has neither an actor nor an index. *)
Inductive entry : Type :=
| Own (idx : nat)
| Inherited.

(** [a1[1]]: [undefined] for an inherited value. *)
Definition entryIdx (a : entry) : option nat :=
  match a with
  | Own idx => Some idx
  | Inherited => None
  end.

(** A collected triple [[idxA, idxB, minimumWidth]]; an index is [None] when
    it is [undefined] or [NaN]. *)
Definition triple : Type := option nat * option nat * float.

(** [Math.min] and [Math.max] of two indices: [NaN] as soon as one is not a
    number. *)
Definition indexMin (a b : option nat) : option nat :=
  match a, b with
  | Some x, Some y => Some (Nat.min x y)
  | _, _ => None
  end.

Definition indexMax (a b : option nat) : option nat :=
  match a, b with
  | Some x, Some y => Some (Nat.max x y)
  | _, _ => None
  end.

(** A property key: [undefined] is converted to the string. *)
Definition propertyKey (k : option string) : string := default "undefined" k.

Definition setActorGeo (a : actor) (g : props) : actor :=
  Actor (actorType a) (actorCaption a) (actorAlias a) g.

(** The dictionary [actorDict], an object made by [{}]: its own properties,
    each holding the index of the pair [[val, idx]] stored under it, and its
    prototype, which is [Object.prototype] ([None]) until a pair is assigned
    to [__proto__]. *)
Record dictionary : Type := Dictionary {
  dictOwn : gmap string nat;
  dictPrototype : option nat
}.

(** [dict[key] = [val, idx]].  For the key [__proto__] the assignment runs
    the setter that [Object.prototype] has for this name: the pair becomes the
    prototype of the dictionary, and no own property is made. *)
Definition dictSet (dict : dictionary) (key : string) (idx : nat) : dictionary :=
  if (key =? "__proto__")%string
  then Dictionary (dictOwn dict) (Some idx)
  else Dictionary (<[key := idx]> (dictOwn dict)) (dictPrototype dict).

(** [actors.reduce((dict, val, idx) => { dict[val.caption] = [val, idx];
    return dict; }, {})]: a later actor with the same caption replaces the
    earlier one. *)
Fixpoint actorDictFrom (idx : nat) (l : list actor) (dict : dictionary)
  : dictionary :=
  match l with
  | [] => dict
  | val :: rest => actorDictFrom (S idx) rest (dictSet dict (actorCaption val) idx)
  end.

Definition actorDict (l : list actor) : dictionary :=
  actorDictFrom 0 l (Dictionary ∅ None).

(** The names, other than [__proto__], of the properties that
    [Object.prototype] and [Array.prototype] have in the JavaScript
    environment that runs the code ([constructor], [toString], ... and [push],
    [map], ...).  Their values are functions. *)
Record environment : Type := Environment {
  ofObjectPrototype : string -> bool;
  ofArrayPrototype : string -> bool
}.

Section Layout.

Variable env : environment.

Variable sz : sizes.

(** [actorDict[key]], [None] when the value is [undefined] or falsy.  An own
    property holds its pair.  Otherwise the value is inherited.  From
    [Object.prototype]: a function, or for [__proto__] the prototype itself.
    From a pair [[val, idx]] that was made the prototype: the pair itself for
    [__proto__], the actor [val] for [0], the number [idx] for [1] (falsy when
    it is [0]), the number [2] for [length], and the functions of
    [Array.prototype] and of [Object.prototype]. *)
Definition dictGet (dict : dictionary) (key : string) : option entry :=
  match dictOwn dict !! key with
  | Some idx => Some (Own idx)
  | None =>
      match dictPrototype dict with
      | None =>
          if (key =? "__proto__")%string || ofObjectPrototype env key
          then Some Inherited else None
      | Some idx =>
          if (key =? "__proto__")%string then Some (Own idx)
          else if (key =? "0")%string then Some Inherited
          else if (key =? "1")%string
               then (if (idx =? 0)%nat then None else Some Inherited)
          else if (key =? "length")%string then Some Inherited
          else if ofArrayPrototype env key || ofObjectPrototype env key
               then Some Inherited else None
      end
  end.

(** The first loop of [calculatePlacements]: ACTOR gaps and widths. *)
Fixpoint sizeActors (i : nat) (l : list actor) (gaps : list float)
  : list actor * list float :=
  match l with
  | [] => ([], gaps)
  | a :: rest =>
      let bbox := calculateTextDimensions sz (actorCaption a) in
      let extraHeight :=
        if (actorType a =? "actor")%string then actorStickmanHeight sz else 0 in
      let height := bboxHeight bbox + 2 * padding sz + extraHeight in
      let width := bboxWidth bbox + 2 * padding sz in
      let a' := setActorGeo a (<["width" := width]> (<["height" := height]> (actorGeo a))) in
      let gaps := alter (fun g => g + (width / 2 + padding sz)) i gaps in
      let gaps := alter (fun g => g + (width / 2 + padding sz)) (S i) gaps in
      let '(rest', gaps) := sizeActors (S i) rest gaps in
      (a' :: rest', gaps)
  end.

(** [calculateLaneGapsAndTextSize(actorDict, events, sizes)] on one event
    and on one case; the events are returned with the sizes set.  The tests
    [e.type == "signal"], [e.type == "note"] and [e.type == "alt"] select a
    signal, an annotation of the type [note] and a grouping of the type [alt]:
    the parser gives these three types to no other object. *)
Fixpoint laneGapsOfEvent (dict : dictionary) (e : event) : list triple * event :=
  match e with
  | ESignal caption src dest dotted open geo =>
      match dictGet dict src, dictGet dict dest with
      | Some a1, Some a2 =>
          let bbox := calculateTextDimensions sz caption in
          ([(entryIdx a1, entryIdx a2, bboxWidth bbox + 2 * padding sz)],
           ESignal caption src dest dotted open
             (<["height" := bboxHeight bbox]> (<["width" := bboxWidth bbox]> geo)))
      | _, _ => ([], e)
      end
  | ENote t caption align src geo =>
      if (t =? "note")%string then
        match dictGet dict (propertyKey src) with
        | Some a1 =>
            let bbox := calculateTextDimensions sz caption in
            let width := bboxWidth bbox + 2 * padding sz in
            let height := bboxHeight bbox + 2 * padding sz in
            ([(entryIdx a1, S <$> entryIdx a1, width + 2 * padding sz)],
             ENote t caption align src
               (<["height" := height]> (<["width" := width]> geo)))
        | None => ([], e)
        end
      else ([], e)
  | ECases t cases geo =>
      if (t =? "alt")%string then
        let '(gaps, cases') := forEachCollect (laneGapsOfCase dict) cases in
        (gaps, ECases t cases' geo)
      else ([], e)
  | ELife _ _ | ESync _ _ | ENumber _ _ => ([], e)
  end
with laneGapsOfCase (dict : dictionary) (c : ecase) : list triple * ecase :=
  match c with
  | ECase caption nested geo =>
      let '(gaps, nested') := forEachCollect (laneGapsOfEvent dict) nested in
      (gaps, ECase caption nested' geo)
  end.

Definition calculateLaneGapsAndTextSize (dict : dictionary) (events : list event)
  : list triple * list event :=
  forEachCollect (laneGapsOfEvent dict) events.

(** [gaps[k] < w]; the comparison with [undefined] is false. *)
Definition gapBelow (gaps : list float) (k : nat) (w : float) : bool :=
  match gaps !! k with
  | Some g => g <? w
  | None => false
  end.

(** The body of the first loop over the triples: CONTIGUOUS and SAME
    lanes. *)
Definition localPass (gaps : list float) (g : triple) : list float :=
  let '(g0, g1, g2) := g in
  match indexMin g0 g1, indexMax g0 g1 with
  | Some idx1, Some idx2 =>
      (* Contiguous *)
      let gaps :=
        if (idx1 + 1 =? idx2)%nat && gapBelow gaps (idx1 + 1) g2
        then <[(idx1 + 1)%nat := g2]> gaps else gaps in
      (* Same lane *)
      if (idx1 =? idx2)%nat && gapBelow gaps idx1 g2
      then <[idx1 := g2]> gaps else gaps
  | _, _ => gaps
  end.

(** [for (let j = idx1; j < idx2; j++) totalGap += gaps[j]], [acc] being
    [totalGap] so far; [None] is [NaN], the sum once an element is
    [undefined]. *)
Fixpoint totalGap (gaps : list float) (j count : nat) (acc : float) : option float :=
  match count with
  | O => Some acc
  | S count =>
      match gaps !! j with
      | Some g => totalGap gaps (S j) count (acc + g)
      | None => None
      end
  end.

(** [for (let j = idx1; j < idx2; j++) gaps[j+1] += extraGap]; the indices
    that [actorDict] yields are below [actors.length], so [j+1] is an index
    of [gaps]. *)
Fixpoint widen (gaps : list float) (j count : nat) (extraGap : float) : list float :=
  match count with
  | O => gaps
  | S count => widen (alter (fun g => g + extraGap) (S j) gaps) (S j) count extraGap
  end.

(** The body of the second loop over the triples: evenly distribute
    multi-lane gaps. *)
Definition distributePass (gaps : list float) (g : triple) : list float :=
  let '(g0, g1, g2) := g in
  match indexMin g0 g1, indexMax g0 g1 with
  | Some idx1, Some idx2 =>
      if (idx1 + 1 <? idx2)%nat && gapBelow gaps (idx1 + 1) g2 then
        match totalGap gaps idx1 (idx2 - idx1) 0 with
        | Some total =>
            let extraGap := (g2 - total) / ofNat (idx2 - idx1) in
            if 0 <? extraGap then widen gaps idx1 (idx2 - idx1) extraGap
            else gaps
        | None => gaps
        end
      else gaps
  | _, _ => gaps
  end.

(** The loop that calculates the ACTOR locations; it returns the actors,
    [actorOffsetX] and [actorMaxHeight].  [None]: a number it needs is
    [undefined]. *)
Fixpoint placeActors (i : nat) (l : list actor) (gaps : list float)
    (actorOffsetX actorMaxHeight : float) : option (list actor * float * float) :=
  match l with
  | [] => Some ([], actorOffsetX, actorMaxHeight)
  | a :: rest =>
      width ← actorGeo a !! "width";
      height ← actorGeo a !! "height";
      gap ← gaps !! S i;
      let lineX := actorOffsetX in
      let a' := setActorGeo a
                  (<["y" := padding sz]>
                     (<["x" := lineX - width / 2]>
                        (<["lineX" := lineX]> (actorGeo a)))) in
      '(rest', offset, maxHeight) ←
        placeActors (S i) rest gaps (actorOffsetX + gap) (mathMax actorMaxHeight height);
      Some (a' :: rest', offset, maxHeight)
  end.

(** [a1[0].lineX]: the actor is the one the array holds now; an inherited
    value has no element [0], and reading [lineX] of [undefined] throws. *)
Definition lineXOf (placed : list actor) (a : entry) : option float :=
  match a with
  | Own idx => a ← placed !! idx; actorGeo a !! "lineX"
  | Inherited => None
  end.

(** [calculateEventPlacements(actorDict, events, startY, totalWidth,
    sizes)] on one event and on the cases of a grouping, from the cursor
    [y]; [placed] is [actors] as the dictionary's entries see it.  [None]:
    the source throws, or a number it needs is [undefined]. *)
Fixpoint placeEvent (dict : dictionary) (placed : list actor) (totalWidth : float)
    (e : event) (y : float) : option (float * event) :=
  match e with
  | ESignal caption src dest dotted open geo =>
      match dictGet dict src, dictGet dict dest with
      | Some a1, Some a2 =>
          startX ← lineXOf placed a1;
          endX ← lineXOf placed a2;
          height ← geo !! "height";
          Some (y + (signalMargin sz + height),
                ESignal caption src dest dotted open
                  (<["endY" := y]> (<["startY" := y]>
                     (<["endX" := endX]> (<["startX" := startX]> geo)))))
      | _, _ => Some (y, e)
      end
  | ENote t caption align src geo =>
      if (t =? "note")%string then
        match dictGet dict (propertyKey src) with
        | Some a1 =>
            lineX ← lineXOf placed a1;
            height ← geo !! "height";
            Some (y + (noteMarginY sz + height),
                  ENote t caption align src
                    (<["textMarginY" := noteTextMarginY sz]>
                       (<["textMarginX" := noteTextMarginX sz]>
                          (<["y" := y]> (<["x" := lineX + noteMarginX sz]> geo)))))
        | None => Some (y, e)
        end
      else Some (y, e)
  | ECases t cases geo =>
      if (t =? "alt")%string then
        match forEachThread (placeCase dict placed totalWidth) cases
                (y + altMarginItems sz, altMinHeight sz) with
        | Some ((endY, altHeight), cases') =>
            Some (endY + altMarginBottom sz,
                  ECases t cases'
                    (<["width" := totalWidth]> (<["height" := altHeight]>
                       (<["y" := y]> (<["x" := 0]> geo)))))
        | None => None
        end
      else Some (y, e)
  | ELife _ _ | ESync _ _ | ENumber _ _ => Some (y, e)
  end
with placeCase (dict : dictionary) (placed : list actor) (totalWidth : float)
    (c : ecase) (cursor : float * float) : option (float * float * ecase) :=
  match c with
  | ECase caption nested geo =>
      let '(y, altHeight) := cursor in
      match forEachThread (placeEvent dict placed totalWidth) nested y with
      | Some (endY, nested') =>
          let caseHeight := endY - y in
          Some ((endY, altHeight + caseHeight),
                ECase caption nested' (<["height" := caseHeight]> geo))
      | None => None
      end
  end.

Definition calculateEventPlacements (dict : dictionary) (placed : list actor)
    (events : list event) (startY totalWidth : float) : option (float * list event) :=
  forEachThread (placeEvent dict placed totalWidth) events startY.

(** The result of [calculatePlacements]: [{ width, height }], and [actors]
    and [events] as it leaves them. *)
Record placements : Type := Placements {
  plWidth : float;
  plHeight : float;
  plActors : list actor;
  plEvents : list event
}.

(** The triples that [calculatePlacements(actors, events, sizes)]
    collects in [gapMinSizeBetweenLanes]. *)
Definition collectedTriples (l : list actor) (events : list event) : list triple :=
  fst (calculateLaneGapsAndTextSize (actorDict l) events).

(** [calculatePlacements(actors, events, sizes)] *)
Definition calculatePlacements (l : list actor) (events : list event)
  : option placements :=
  let dict := actorDict l in
  let gaps := replicate (length l + 1) 0 in
  (* Calculate ACTOR gaps and widths *)
  let '(sized, gaps) := sizeActors 0 l gaps in
  (* Calculate EVENT gaps and widths *)
  let '(gapMinSizeBetweenLanes, events) := calculateLaneGapsAndTextSize dict events in
  (* First, CONTIGUOUS and SAME lanes *)
  let gaps := foldl localPass gaps gapMinSizeBetweenLanes in
  (* Second, evenly distribute multi-lane gaps *)
  let gaps := foldl distributePass gaps gapMinSizeBetweenLanes in
  (* Calculate ACTOR locations *)
  first ← gaps !! 0%nat;
  '(placed, actorOffsetX, actorMaxHeight) ← placeActors 0 sized gaps first 0;
  (* Calculate EVENT locations *)
  '(y, events) ← calculateEventPlacements dict placed events
                   (actorMaxHeight + padding sz * 2 + 1) actorOffsetX;
  let finished :=
    map (fun a => setActorGeo a (<["lineY" := y]> (actorGeo a))) placed in
  Some (Placements actorOffsetX y finished events).

End Layout.

(** ** The text-art instance of the layout *)

(** [content.split(/\n|\\n/)]: the pieces between line breaks, a line break
    being the newline character or a backslash followed by the letter n. *)
Fixpoint splitLinesGo (acc : list ascii) (s : string) : list string :=
  match s with
  | EmptyString => [string_of_list_ascii (rev acc)]
  | String c rest =>
      if Ascii.eqb c "010"%char
      then string_of_list_ascii (rev acc) :: splitLinesGo [] rest
      else
        match rest with
        | String c' rest' =>
            if Ascii.eqb c "092"%char && Ascii.eqb c' "n"%char
            then string_of_list_ascii (rev acc) :: splitLinesGo [] rest'
            else splitLinesGo (c :: acc) rest
        | EmptyString => splitLinesGo (c :: acc) rest
        end
  end.

(** [calculateTextDimensionsAscii(content)]: the number of lines and the
    length of the longest one. *)
Definition calculateTextDimensionsAscii (content : string) : bbox :=
  let lines := splitLinesGo [] content in
  {| bboxHeight := ofNat (length lines);
     bboxWidth := ofNat (foldr Nat.max 0%nat (map String.length lines)) |}.

(** The [sizes] of [scriptToAsciiArt]. *)
Definition asciiSizes : sizes :=
  {| padding := 1; signalMargin := 2; noteMarginX := 1; noteMarginY := 1;
     noteTextMarginX := 1; noteTextMarginY := 1; altMinHeight := 1;
     altMarginBottom := 1; altMarginItems := 1; actorStickmanHeight := 1;
     calculateTextDimensions := calculateTextDimensionsAscii |}.

(** The properties of [Object.prototype] and of [Array.prototype] in
    ECMAScript 2023, other than [__proto__]. *)
Definition objectPrototypeKeys : list string :=
  ["constructor"; "__defineGetter__"; "__defineSetter__"; "hasOwnProperty";
   "__lookupGetter__"; "__lookupSetter__"; "isPrototypeOf";
   "propertyIsEnumerable"; "toString"; "valueOf"; "toLocaleString"].

Definition arrayPrototypeKeys : list string :=
  ["constructor"; "at"; "concat"; "copyWithin"; "fill"; "find"; "findIndex";
   "findLast"; "findLastIndex"; "lastIndexOf"; "pop"; "push"; "reverse";
   "shift"; "unshift"; "slice"; "sort"; "splice"; "includes"; "indexOf";
   "join"; "keys"; "entries"; "values"; "forEach"; "filter"; "flat";
   "flatMap"; "map"; "every"; "some"; "reduce"; "reduceRight";
   "toLocaleString"; "toString"; "toReversed"; "toSorted"; "toSpliced";
   "with"].

Definition ecmaScript2023 : environment :=
  {| ofObjectPrototype := fun key => Js.includes objectPrototypeKeys (Some key);
     ofArrayPrototype := fun key => Js.includes arrayPrototypeKeys (Some key) |}.

(** The rational number that a finite number is. *)
Definition exactValue (x : float) : Q :=
  match Prim2SF x with
  | S754_finite s m e =>
      ((if s then -1 else 1) * inject_Z (Zpos m) * Qpower 2 e)%Q
  | _ => 0%Q
  end.

(** ** Predicates used in the statements *)

(** The command of a line that falls through every keyword test of
    [parseLine] to the SIGNALS branch. *)
Definition reachesSignals (command : string) : bool :=
  negb (command =? "end")%string
  && negb (Js.includes annotations (Some command))
  && negb (Js.includes participants (Some command))
  && negb (Js.includes conditionalGroupings (Some command))
  && negb (command =? "else")%string
  && negb (Js.includes lifetime (Some command))
  && negb (Js.includes synchrony (Some command))
  && negb (command =? "}")%string
  && negb (command =? "autonumber")%string
  && negb (Js.startsWith "#" command).

(** The participant that a signal creates for a name that is no actor's
    caption. *)
Definition bareParticipant (name : string) : actor :=
  Actor "participant" name None ∅.

(** An address holds an array. *)
Definition isArrayAt (h : list obj) (r : ref) : Prop :=
  exists items, h !! r = Some (OArray items).

(** The bottom frame of [eventStack] is [events], and [events] is an
    array. *)
Definition rooted (st : state) : Prop :=
  last (eventStack st) = Some eventsRef /\ isArrayAt (heap st) eventsRef.

(** The objects a signal line creates after the signal itself. *)
Definition implicitLifetime (p : signalParts) : list obj :=
  ((if spIsActivated p then [OLife "activate" (spDest p)] else [])
   ++ (if spIsDeactivated p then [OLife "deactivate" (spDest p)] else []))%list.

(** The nested sequence of a case. *)
Definition caseEvents (c : ecase) : list event :=
  match c with ECase _ nested _ => nested end.

(** An address holds an event: an object that is no array. *)
Definition isEventAt (h : list obj) (r : ref) : Prop :=
  exists o, h !! r = Some o /\ typeOf o <> None.

(** The addresses an object holds are those of objects created after it;
    an array holds events, a case and a synchrony grouping hold an array. *)
Definition ownsLater (h : list obj) (a : ref) (o : obj) : Prop :=
  match o with
  | OArray items => Forall (fun r => (a < r)%nat /\ isEventAt h r) items
  | OCases _ cases => Forall (fun c => (a < snd c)%nat /\ isArrayAt h (snd c)) cases
  | OSync _ nested => (a < nested)%nat /\ isArrayAt h nested
  | _ => True
  end.

(** The store is a forest, and every frame of the stack is in the store. *)
Definition wellFormed (st : state) : Prop :=
  (forall a o, heap st !! a = Some o -> ownsLater (heap st) a o) /\
  Forall (fun r => (r < length (heap st))%nat) (eventStack st).

(** [h'] has every array and every event of [h], at the same address. *)
Definition keepsKinds (h h' : list obj) : Prop :=
  forall r, (isArrayAt h r -> isArrayAt h' r) /\ (isEventAt h r -> isEventAt h' r).

(** A lookup in the dictionary finds something, and finds an inherited
    property. *)
Definition found (a : option entry) : bool :=
  match a with
  | Some _ => true
  | None => false
  end.

Definition isInherited (a : option entry) : bool :=
  match a with
  | Some Inherited => true
  | _ => false
  end.

(** A lookup of the layout walks finds an inherited property: the event is
    a signal both of whose names are found, one of them as an inherited
    property, or a note whose name is found as one, or an [alt] grouping with
    such an event in one of its cases.  (The walks enter nothing else.) *)
Fixpoint hitsInherited (env : environment) (dict : dictionary) (e : event) : bool :=
  match e with
  | ESignal _ src dest _ _ _ =>
      match dictGet env dict src, dictGet env dict dest with
      | Some a1, Some a2 => isInherited (Some a1) || isInherited (Some a2)
      | _, _ => false
      end
  | ENote t _ _ src _ =>
      (t =? "note")%string && isInherited (dictGet env dict (propertyKey src))
  | ECases t cases _ =>
      (t =? "alt")%string
      && existsb (fun c => match c with
                           | ECase _ nested _ =>
                               existsb (hitsInherited env dict) nested
                           end) cases
  | ELife _ _ | ESync _ _ | ENumber _ _ => false
  end.

(** The second walk returns on what the first walk returns, for one event
    in which no lookup finds an inherited property. *)
Definition placeable (env : environment) (sz : sizes) (dict : dictionary)
    (placed : list actor) (totalWidth : float) (e : event) : Prop :=
  hitsInherited env dict e = false ->
  forall y,
    is_Some (placeEvent env sz dict placed totalWidth
               (snd (laneGapsOfEvent env sz dict e)) y).

(** Every index that the dictionary holds is below [n]. *)
Definition indicesBelow (n : nat) (dict : dictionary) : Prop :=
  (forall key idx, dictOwn dict !! key = Some idx -> (idx < n)%nat) /\
  (forall idx, dictPrototype dict = Some idx -> (idx < n)%nat).

(** ** The gaps, in the words of the specification *)

(** [g'] is not lowered from [g]: it is below no number that [g] is not
    below. *)
Definition notLowered (g g' : float) : Prop :=
  forall w, (g <? w) = false -> (g' <? w) = false.

(** [g'] is [g] with positive amounts added to it, one after the other. *)
Definition widened (g g' : float) : Prop :=
  exists increments,
    Forall (fun e => (0 <? e) = true) increments /\
    g' = foldl PrimFloat.add g increments.

(** ** The layout of the events, in the words of the specification *)

(** What Steps 2 and 5 of the specification say of an event, of a sequence
    and of the cases of a grouping, with the groupings of the kind [alt] as
    the only ones that are entered.  [laidOut y e gs y' e']: at the cursor [y]
    the event [e] contributes the spacing triples [gs], moves the cursor to
    [y'] and gets the geometry that [e'] has. *)
Section LaidOut.

Variable env : environment.

Variable sz : sizes.

Variable dict : dictionary.

(** [actors] after the layout, and the canvas width. *)
Variable actors : list actor.

Variable canvasWidth : float.

(** The name [key] is found as the actor of the lane [idx], whose centre is
    [lineX]. *)
Definition laneOf (key : string) (idx : nat) (lineX : float) : Prop :=
  dictGet env dict key = Some (Own idx) /\
  exists a, actors !! idx = Some a /\ actorGeo a !! "lineX" = Some lineX.

(** The events that both walks pass over: a signal one of whose names is
    not found, an annotation that is no [note] or whose name is not found, a
    grouping of another kind than [alt], and every other event. *)
Definition passedOver (e : event) : bool :=
  match e with
  | ESignal _ src dest _ _ _ =>
      negb (found (dictGet env dict src) && found (dictGet env dict dest))
  | ENote t _ _ src _ =>
      negb ((t =? "note")%string && found (dictGet env dict (propertyKey src)))
  | ECases t _ _ => negb (t =? "alt")%string
  | ELife _ _ | ESync _ _ | ENumber _ _ => true
  end.

Inductive laidOut : float -> event -> list triple -> float -> event -> Prop :=
| laidOut_signal y caption src dest dotted open geo geo' idx1 idx2 x1 x2 :
    (* Signal between two resolved actors: triple = (source lane index,
       destination lane index, measured caption width + 2 x padding);
       start/end X = the two lane centres; Y = current cursor; advance the
       cursor by the signal margin plus the measured text height. *)
    laneOf src idx1 x1 ->
    laneOf dest idx2 x2 ->
    geo' !! "width" = Some (bboxWidth (calculateTextDimensions sz caption)) ->
    geo' !! "height" = Some (bboxHeight (calculateTextDimensions sz caption)) ->
    geo' !! "startX" = Some x1 ->
    geo' !! "endX" = Some x2 ->
    geo' !! "startY" = Some y ->
    geo' !! "endY" = Some y ->
    laidOut y (ESignal caption src dest dotted open geo)
      [(Some idx1, Some idx2,
        bboxWidth (calculateTextDimensions sz caption) + 2 * padding sz)]
      (y + (signalMargin sz + bboxHeight (calculateTextDimensions sz caption)))
      (ESignal caption src dest dotted open geo')
| laidOut_note y caption align src geo geo' idx x :
    (* Annotation with a resolved location actor: triple = (location lane
       index, location lane index + 1, width + 2 x padding), the width being
       the measured one + 2 x padding; X = the lane centre + the note margin;
       Y = cursor; advance the cursor by the note margin plus the height of
       the box. *)
    laneOf (propertyKey src) idx x ->
    geo' !! "width"
    = Some (bboxWidth (calculateTextDimensions sz caption) + 2 * padding sz) ->
    geo' !! "height"
    = Some (bboxHeight (calculateTextDimensions sz caption) + 2 * padding sz) ->
    geo' !! "x" = Some (x + noteMarginX sz) ->
    geo' !! "y" = Some y ->
    laidOut y (ENote "note" caption align src geo)
      [(Some idx, Some (S idx),
        bboxWidth (calculateTextDimensions sz caption) + 2 * padding sz
        + 2 * padding sz)]
      (y + (noteMarginY sz
            + (bboxHeight (calculateTextDimensions sz caption) + 2 * padding sz)))
      (ENote "note" caption align src geo')
| laidOut_alt y cases geo gs lastY cases' heights geo' :
    (* Grouping of the kind alt: X = 0, Y = cursor; advance the cursor by the
       top margin; lay out the nested sequence of each case at the advancing
       cursor, recording the height of each case; height = fixed minimum + sum
       of the heights of the cases; width = canvas width; advance the cursor
       by the bottom margin after the last case. *)
    laidOutCases (y + altMarginItems sz) cases gs lastY cases' heights ->
    geo' !! "x" = Some 0 ->
    geo' !! "y" = Some y ->
    geo' !! "width" = Some canvasWidth ->
    geo' !! "height" = Some (foldl PrimFloat.add (altMinHeight sz) heights) ->
    laidOut y (ECases "alt" cases geo) gs (lastY + altMarginBottom sz)
      (ECases "alt" cases' geo')
| laidOut_passed y e :
    (* No triple, no geometry, and the cursor stays. *)
    passedOver e = true ->
    laidOut y e [] y e
with laidOutSeq : float -> list event -> list triple -> float -> list event -> Prop :=
| laidOutSeq_nil y : laidOutSeq y [] [] y []
| laidOutSeq_cons y e gs y1 e' rest gs' y2 rest' :
    laidOut y e gs y1 e' ->
    laidOutSeq y1 rest gs' y2 rest' ->
    laidOutSeq y (e :: rest) (gs ++ gs') y2 (e' :: rest')
with laidOutCases
  : float -> list ecase -> list triple -> float -> list ecase -> list float -> Prop :=
| laidOutCases_nil y : laidOutCases y [] [] y [] []
| laidOutCases_cons y caption nested geo gs endY nested' geo' cases gs' lastY
    cases' heights :
    (* The height of a case is the distance that the cursor moves over its
       nested sequence. *)
    laidOutSeq y nested gs endY nested' ->
    geo' !! "height" = Some (endY - y) ->
    laidOutCases endY cases gs' lastY cases' heights ->
    laidOutCases y (ECase caption nested geo :: cases) (gs ++ gs') lastY
      (ECase caption nested' geo' :: cases') ((endY - y) :: heights).

End LaidOut.

(** What the two walks do to one event, the second after the first: they
    lay it out. *)
Definition walksLayOut (env : environment) (sz : sizes) (dict : dictionary)
    (placed actors : list actor) (totalWidth : float) (e : event) : Prop :=
  forall y y' e',
    placeEvent env sz dict placed totalWidth (snd (laneGapsOfEvent env sz dict e)) y
    = Some (y', e') ->
    laidOut env sz dict actors totalWidth y e (fst (laneGapsOfEvent env sz dict e)) y' e'.

(** ** Predicates used in the further properties *)


(** The kinds of object that the parser leaves on [eventStack]: a sequence
    of events, an annotation that collects multi-line text, and a conditional
    grouping. *)
Inductive frameKind : Type :=
| FArray
| FNote
| FGrouping.

Definition kindOf (o : obj) : option frameKind :=
  match o with
  | OArray _ => Some FArray
  | ONote t _ _ _ => if Js.includes annotations (Some t) then Some FNote else None
  | OCases t _ =>
      if Js.includes conditionalGroupings (Some t) then Some FGrouping else None
  | _ => None
  end.

Definition kindAt (h : list obj) (r : ref) : option frameKind := h !! r ≫= kindOf.

(** The frames below the top one, from the top down: sequences and
    conditional groupings, each grouping lying on a sequence. *)
Fixpoint closedBelow (ks : list (option frameKind)) : bool :=
  match ks with
  | [] => true
  | Some FArray :: rest => closedBelow rest
  | Some FGrouping :: rest =>
      match rest with
      | Some FArray :: _ => closedBelow rest
      | _ => false
      end
  | _ => false
  end.

(** The whole stack, from the top down: the top frame is a sequence, or an
    annotation lying on a sequence; no conditional grouping is on top. *)
Definition shapeOk (ks : list (option frameKind)) : bool :=
  match ks with
  | Some FArray :: rest => closedBelow rest
  | Some FNote :: rest =>
      match rest with
      | Some FArray :: _ => closedBelow rest
      | _ => false
      end
  | _ => false
  end.

Definition framesOk (st : state) : Prop :=
  shapeOk (map (kindAt (heap st)) (eventStack st)) = true.

(** The store after objects were created and the sequence [t] was given
    new elements. *)
Definition grown (h : list obj) (t : ref) (elements : list ref) (objs : list obj)
  : list obj :=
  <[t := OArray elements]> (h ++ objs)%list.

(** The text that an annotation collects from the lines of its block:
    every line trimmed and followed by a newline. *)
Definition collectedText (body : list string) : string :=
  foldr (fun line rest => Js.trim line ++ newline ++ rest) EmptyString body.

(** The store while the annotation at the address [length h] collects
    text. *)
Definition collecting (h : list obj) (t : ref) (items : list ref)
    (ty caption : string) (align src : option string) : list obj :=
  <[t := OArray (items ++ [length h])]> (h ++ [ONote ty caption align src])%list.

(** The store while the conditional grouping at the address [length h] is
    open: the grouping with its cases, followed by the sequences of its [m]
    cases. *)
Definition groupingOpen (h : list obj) (t : ref) (items : list ref) (ty : string)
    (cases : list (string * ref)) (m : nat) : list obj :=
  <[t := OArray (items ++ [length h])]>
    (h ++ OCases ty cases :: replicate m (OArray []))%list.

(** The names on the signals of an event, at any depth. *)
Fixpoint signalNames (e : event) : list string :=
  match e with
  | ESignal _ src dest _ _ _ => [src; dest]
  | ECases _ cases _ =>
      concat (map (fun c => match c with
                            | ECase _ nested _ => concat (map signalNames nested)
                            end) cases)
  | ESync _ nested => concat (map signalNames nested)
  | ENote _ _ _ _ _ | ELife _ _ | ENumber _ _ => []
  end.

(** The two names of every signal in the store are captions of actors. *)
Definition signalsKnown (st : state) : Prop :=
  forall r caption src dest dotted open,
    heap st !! r = Some (OSignal caption src dest dotted open) ->
    knownCaption src (actors st) = true /\ knownCaption dest (actors st) = true.

Definition isSignal (o : obj) : bool :=
  match o with
  | OSignal _ _ _ _ _ => true
  | _ => false
  end.

(** A note of the type [note] is anchored at a name that the dictionary
    inherits, in an event that the walks of the layout reach. *)
Fixpoint anchoredAtInherited (env : environment) (dict : dictionary) (e : event) : bool :=
  match e with
  | ENote t _ _ src _ =>
      (t =? "note")%string && isInherited (dictGet env dict (propertyKey src))
  | ECases t cases _ =>
      (t =? "alt")%string
      && existsb (fun c => match c with
                           | ECase _ nested _ =>
                               existsb (anchoredAtInherited env dict) nested
                           end) cases
  | ESignal _ _ _ _ _ _ | ELife _ _ | ESync _ _ | ENumber _ _ => false
  end.

(** The dictionary has the key [key]: as an own property or, for
    [__proto__], as the pair that is its prototype. *)
Definition hasKey (dict : dictionary) (key : string) : Prop :=
  is_Some (dictOwn dict !! key) \/ (key = "__proto__" /\ is_Some (dictPrototype dict)).

(** * Properties of the parser *)

Local Close Scope float_scope.

Lemma bind_Ok {A B : Type} (m : result A) (k : A -> result B) (b : B) :
  (mbind k m) = Ok b -> exists a, m = Ok a /\ k a = Ok b.
Proof. destruct m as [a|]; simpl; [eauto | discriminate]. Qed.

Ltac inv_bind H :=
  let a := fresh "a" in
  let Ha := fresh "Ha" in
  apply bind_Ok in H; destruct H as (a & Ha & H).

(** ** The root sequence stays at the bottom of the stack *)

Lemma rooted_initial : rooted initial.
Proof. split; [reflexivity | exists []; reflexivity]. Qed.

Lemma rooted_depth st : rooted st -> (1 <= length (eventStack st))%nat.
Proof.
  intros [Hl _]. destruct (eventStack st); [discriminate | simpl; lia].
Qed.

Lemma rooted_withActors st l : rooted st -> rooted (withActors st l).
Proof. intros H; exact H. Qed.

Lemma rooted_ensureActor st name : rooted st -> rooted (ensureActor name st).
Proof. intros H. unfold ensureActor. destruct (knownCaption _ _); auto. Qed.

Lemma rooted_alloc st o : rooted st -> rooted (snd (alloc o st)).
Proof.
  intros [Hl [items Hi]]. split; [exact Hl |].
  exists items. simpl. rewrite lookup_app_l; [exact Hi |].
  apply lookup_lt_Some in Hi. exact Hi.
Qed.

Lemma isArrayAt_insert h r k o :
  isArrayAt h r -> (k = r -> exists items, o = OArray items) ->
  isArrayAt (<[k := o]> h) r.
Proof.
  intros [items Hi] Hk. destruct (decide (k = r)) as [->|Hne].
  - destruct (Hk eq_refl) as [items' ->]. exists items'.
    apply list_lookup_insert_eq. apply lookup_lt_Some in Hi. exact Hi.
  - exists items. rewrite list_lookup_insert_ne; auto.
Qed.

Lemma rooted_arrayPush st t x st' :
  rooted st -> arrayPush t x st = Ok st' -> rooted st'.
Proof.
  intros [Hl Ha] H. unfold arrayPush in H.
  destruct (heap st !! t) as [[items| | | | | |]|] eqn:Ht; simplify_eq.
  split; [exact Hl |]. simpl. apply isArrayAt_insert; eauto.
Qed.

Lemma rooted_appendCaption st t s st' :
  rooted st -> appendCaption t s st = Ok st' -> rooted st'.
Proof.
  intros [Hl Ha] H. unfold appendCaption in H.
  destruct (heap st !! t) as [[| |ty c al sr| | | |]|] eqn:Ht; simplify_eq.
  split; [exact Hl |]. simpl. apply isArrayAt_insert; [exact Ha |].
  intros ->. destruct Ha as [items Hi]. congruence.
Qed.

Lemma rooted_casesPush st t c st' :
  rooted st -> casesPush t c st = Ok st' -> rooted st'.
Proof.
  intros [Hl Ha] H. unfold casesPush in H.
  destruct (heap st !! t) as [[| | |ty cs| | |]|] eqn:Ht; simplify_eq.
  split; [exact Hl |]. simpl. apply isArrayAt_insert; [exact Ha |].
  intros ->. destruct Ha as [items Hi]. congruence.
Qed.

Lemma rooted_pushFrame st r : rooted st -> rooted (pushFrame r st).
Proof.
  intros [Hl Ha]. split; [| exact Ha]. simpl.
  destruct (eventStack st) as [|x l]; [discriminate | exact Hl].
Qed.

Lemma rooted_guardedPop st : rooted st -> rooted (guardedPop st).
Proof.
  intros [Hl Ha]. unfold guardedPop.
  destruct (eventStack st) as [|x [|y l]] eqn:Hs; simpl.
  - split; [rewrite Hs; exact Hl | exact Ha].
  - split; [rewrite Hs; exact Hl | exact Ha].
  - split; [| exact Ha]. simpl. rewrite Hs. simpl. exact Hl.
Qed.

(** A frame that has a [type] is not the root: popping it keeps the root. *)
Lemma rooted_pop_typed st t ty :
  rooted st -> top st = Ok t -> typeAt st t = Some ty -> rooted (pop st).
Proof.
  intros [Hl [items Hi]] Ht Hty. unfold top in Ht. unfold typeAt in Hty.
  destruct (eventStack st) as [|x [|y l]] eqn:Hs; simplify_eq.
  - simpl in Hl. simplify_eq. unfold eventsRef in *. rewrite Hi in Hty. discriminate.
  - split; [| exists items; exact Hi]. simpl. rewrite Hs. exact Hl.
Qed.

Lemma includes_Some_typed l (x : option string) :
  Js.includes l x = true -> exists ty, x = Some ty.
Proof. destruct x; [eauto | discriminate]. Qed.

Lemma rooted_pushSignal p st st' :
  rooted st -> pushSignal p st = Ok st' -> rooted st'.
Proof.
  intros Hr H. unfold pushSignal in H.
  inv_bind H. simpl in H. inv_bind H.
  assert (rooted a0) as Hr0.
  { eapply rooted_arrayPush; [| exact Ha0]. apply (rooted_alloc st _ Hr). }
  inv_bind H.
  assert (rooted a1) as Hr1.
  { destruct (spIsActivated p); [| simplify_eq; exact Hr0].
    inv_bind Ha1. simpl in Ha1.
    eapply rooted_arrayPush; [| exact Ha1]. apply (rooted_alloc a0 _ Hr0). }
  inv_bind H.
  assert (rooted a2) as Hr2.
  { destruct (spIsDeactivated p); [| simplify_eq; exact Hr1].
    inv_bind Ha2. simpl in Ha2.
    eapply rooted_arrayPush; [| exact Ha2]. apply (rooted_alloc a1 _ Hr1). }
  simplify_eq. apply rooted_ensureActor, rooted_ensureActor, Hr2.
Qed.

Lemma rooted_parseLine st line st' :
  rooted st -> parseLine st line = Ok st' -> rooted st'.
Proof.
  intros Hr H. unfold parseLine in H.
  set (trimmedLine := Js.trim line) in *.
  set (command := commandOf trimmedLine) in *.
  set (text := textOf trimmedLine) in *.
  destruct (command =? "end")%string.
  { inv_bind H. pose proof (rooted_guardedPop st Hr) as Hg.
    destruct (Js.includes conditionalGroupings _) eqn:Hc; simplify_eq; [| exact Hg].
    apply includes_Some_typed in Hc. destruct Hc as [ty Hty].
    eapply rooted_pop_typed; eauto. }
  inv_bind H.
  destruct (Js.includes annotations (typeAt st a)).
  { eapply rooted_appendCaption; eauto. }
  destruct (Js.includes annotations (Some command)).
  { simpl in H. inv_bind H.
    assert (rooted a0) as Hr0.
    { eapply rooted_arrayPush; [| exact Ha0]. apply (rooted_alloc st _ Hr). }
    destruct (negb _); simplify_eq; [apply rooted_pushFrame |]; exact Hr0. }
  destruct (Js.includes participants (Some command)).
  { simplify_eq. apply rooted_withActors, Hr. }
  destruct (Js.includes conditionalGroupings (Some command)).
  { simpl in H. inv_bind H. simplify_eq.
    apply rooted_pushFrame, rooted_pushFrame.
    eapply rooted_arrayPush; [| exact Ha0].
    apply (rooted_alloc _ _ (rooted_alloc st _ Hr)). }
  destruct (command =? "else")%string.
  { inv_bind H. pose proof (rooted_guardedPop st Hr) as Hg.
    destruct (Js.includes conditionalGroupings _); simplify_eq; [| exact Hg].
    simpl in H. inv_bind H. simplify_eq. apply rooted_pushFrame.
    eapply rooted_casesPush; [| exact Ha1]. apply (rooted_alloc _ _ Hg). }
  destruct (Js.includes lifetime (Some command)).
  { simpl in H. eapply rooted_arrayPush; [| exact H].
    apply (rooted_alloc _ _ (rooted_alloc st _ Hr)). }
  destruct (Js.includes synchrony (Some command)).
  { simpl in H. inv_bind H. simplify_eq. apply rooted_pushFrame.
    eapply rooted_arrayPush; [| exact Ha0].
    apply (rooted_alloc _ _ (rooted_alloc st _ Hr)). }
  destruct (command =? "}")%string.
  { simplify_eq. apply rooted_guardedPop, Hr. }
  destruct (command =? "autonumber")%string.
  { simpl in H. eapply rooted_arrayPush; [| exact H]. apply (rooted_alloc st _ Hr). }
  destruct (Js.startsWith "#" command).
  { simplify_eq. exact Hr. }
  destruct (parseSignal trimmedLine) as [p|]; [| simplify_eq; exact Hr].
  eapply rooted_pushSignal; eauto.
Qed.

Lemma rooted_parseLines lines : forall st st',
  rooted st -> parseLines lines st = Ok st' -> rooted st'.
Proof.
  induction lines as [|line rest IH]; intros st st' Hr H; simpl in H.
  - simplify_eq. exact Hr.
  - inv_bind H. eapply IH; [| exact H]. eapply rooted_parseLine; eauto.
Qed.

Lemma parseLines_app pre post st :
  parseLines (pre ++ post) st = (mbind (parseLines post) (parseLines pre st)).
Proof.
  revert st. induction pre as [|line rest IH]; intros st; simpl; [reflexivity |].
  destruct (parseLine st line) as [st1|]; simpl; [apply IH | reflexivity].
Qed.

(** An [end] line met while only the root sequence is open changes
    nothing. *)
Lemma end_at_root st line :
  rooted st -> length (eventStack st) = 1%nat ->
  commandOf (Js.trim line) = "end" ->
  parseLine st line = Ok st.
Proof.
  intros [Hl [items Hi]] Hlen Hc. unfold parseLine. rewrite Hc. simpl.
  unfold guardedPop. rewrite Hlen. simpl.
  destruct (eventStack st) as [|x [|y l]] eqn:Hs; simplify_eq/=.
  unfold top. rewrite Hs. simpl. unfold typeAt.
  rewrite Hi. reflexivity.
Qed.

(** ** The scenarios of the specification, run on the embedding *)

Example scenario_signal :
  parseScriptToArrays "A->B: hi"
  = Ok ([bareParticipant "A"; bareParticipant "B"],
        Some [ESignal "hi" "A" "B" false false ∅]).
Proof. vm_compute. reflexivity. Qed.

Example scenario_alt_else :
  parseScriptToArrays
    ("alt ok" ++ newline ++ "A->B: x" ++ newline ++ "else bad" ++ newline
     ++ "A->B: y" ++ newline ++ "end")
  = Ok ([bareParticipant "A"; bareParticipant "B"],
        Some [ECases "alt"
                [ECase "ok" [ESignal "x" "A" "B" false false ∅] ∅;
                 ECase "bad" [ESignal "y" "A" "B" false false ∅] ∅] ∅]).
Proof. vm_compute. reflexivity. Qed.

Example scenario_block_note :
  parseScriptToArrays
    ("note right of A" ++ newline ++ "line1" ++ newline ++ "line2" ++ newline ++ "end")
  = Ok ([], Some [ENote "note" ("line1" ++ newline ++ "line2" ++ newline)
                    (Some "right") (Some "A") ∅]).
Proof. vm_compute. reflexivity. Qed.

Example scenario_note_creates_no_actor :
  parseScriptToArrays "note right of Ghost: x"
  = Ok ([], Some [ENote "note" "x" (Some "right") (Some "Ghost") ∅]).
Proof. vm_compute. reflexivity. Qed.

Example scenario_dotted_and_open :
  parseScriptToArrays ("A-->B: dotted" ++ newline ++ "A->>B: open")
  = Ok ([bareParticipant "A"; bareParticipant "B"],
        Some [ESignal "dotted" "A" "B" true false ∅;
              ESignal "open" "A" "B" false true ∅]).
Proof. vm_compute. reflexivity. Qed.

(** ** Scripts on which the parser throws *)

(** C1: [parseScriptToArrays] is meant never to raise.  It does on the
    script [alt x / } / A->B: hi]: the brace pops the case sequence of the
    grouping and leaves the grouping object itself on top of the stack, and
    the signal line then calls [push] on that object, which is no array. *)
Theorem brace_inside_alt_makes_parser_throw :
  parseScriptToArrays ("alt x" ++ newline ++ "}" ++ newline ++ "A->B: hi")
  = TypeError.
Proof. vm_compute. reflexivity. Qed.

(** ** The nesting stack *)

(** C3: for every script the nesting stack has at least one entry after
    every line, the bottom one being the root sequence, and an [end] line met
    while only the root sequence is open is a no-op: the state is unchanged,
    and what the parser returns is what it returns for the script without
    that line. *)
Theorem stack_keeps_root_and_end_at_root_is_noop :
  (forall script k st,
      parseLines (take k (Js.split newline script)) initial = Ok st ->
      (1 <= length (eventStack st))%nat /\
      last (eventStack st) = Some eventsRef) /\
  (forall pre line post st,
      parseLines pre initial = Ok st ->
      length (eventStack st) = 1%nat ->
      commandOf (Js.trim line) = "end" ->
      parseLine st line = Ok st /\
      returned (parseLines (pre ++ line :: post) initial)
      = returned (parseLines (pre ++ post) initial)).
Proof.
  split.
  - intros script k st H.
    assert (rooted st) as Hr
      by (eapply rooted_parseLines; [apply rooted_initial | exact H]).
    split; [apply rooted_depth, Hr | exact (proj1 Hr)].
  - intros pre line post st Hpre Hlen Hc.
    assert (parseLine st line = Ok st) as Hline.
    { apply end_at_root; auto.
      eapply rooted_parseLines; [apply rooted_initial | exact Hpre]. }
    split; [exact Hline |].
    rewrite !parseLines_app, Hpre. simpl. rewrite Hline. reflexivity.
Qed.

Lemma stack_keeps_root_and_end_at_root_is_noop_witness :
  (exists st,
      parseLines (take 2 (Js.split newline ("alt x" ++ newline ++ "end" ++ newline ++ "end")))
        initial = Ok st /\
      (1 <= length (eventStack st))%nat /\
      last (eventStack st) = Some eventsRef) /\
  returned (parseLines (["A->B: x"] ++ " end " :: ["B->A: y"]) initial)
  = returned (parseLines (["A->B: x"] ++ ["B->A: y"]) initial).
Proof.
  split.
  - eexists. split; [vm_compute; reflexivity |].
    apply (proj1 stack_keeps_root_and_end_at_root_is_noop
             ("alt x" ++ newline ++ "end" ++ newline ++ "end") 2%nat).
    vm_compute. reflexivity.
  - eapply (proj2 stack_keeps_root_and_end_at_root_is_noop).
    + vm_compute. reflexivity.
    + vm_compute. reflexivity.
    + vm_compute. reflexivity.
Defined.

(** ** Annotations *)

(** C5: the caption of a single-line annotation is meant to be all that
    follows the first colon.  On [note right of A: a:b] the parser keeps only
    [a]: [text.split(':')] cuts at every colon and the destructuring keeps
    the first two pieces. *)
Theorem annotation_caption_stops_at_second_colon :
  parseScriptToArrays "note right of A: a:b"
  = Ok ([], Some [ENote "note" "a" (Some "right") (Some "A") ∅]).
Proof. vm_compute. reflexivity. Qed.

(** ** Lines without a space *)

Lemma substring_whole s : substring 0 (String.length s) s = s.
Proof. induction s as [|c s IH]; simpl; [reflexivity | rewrite IH; reflexivity]. Qed.

Lemma slice_whole s : Js.slice s 0 None = s.
Proof.
  unfold Js.slice, Js.clampIndex. simpl.
  destruct s as [|c s]; [reflexivity |].
  rewrite Z.min_l by lia.
  destruct (0 <? Z.of_nat (String.length (String c s))) eqn:Hlt.
  - rewrite Z.sub_0_r, Nat2Z.id. change (Z.to_nat 0) with 0%nat.
    apply substring_whole.
  - apply Z.ltb_ge in Hlt. simpl in Hlt. lia.
Qed.

Lemma indexOfFrom_without_space s : forall i,
  ~ In " "%char (list_ascii_of_string s) -> Js.indexOfFrom " " s i = -1.
Proof.
  induction s as [|c s IH]; intros i Hn; [reflexivity |].
  cbn [Js.indexOfFrom String.prefix].
  destruct (Ascii.ascii_dec " " c) as [<-|Hne].
  - exfalso. apply Hn. simpl. auto.
  - apply IH. intros Hin. apply Hn. simpl. auto.
Qed.

(** C10: for every trimmed line that contains no space, the parsed [text]
    is the entire line, keyword included ([command] is the entire line too):
    the line [autonumber] alone appends a numbering marker whose [start] is
    the string [autonumber], and the line [participant] alone appends an actor
    whose caption is [participant]. *)
Theorem line_without_space_is_its_own_text :
  (forall line,
      ~ In " "%char (list_ascii_of_string (Js.trim line)) ->
      commandOf (Js.trim line) = Js.trim line /\
      textOf (Js.trim line) = Js.trim line) /\
  parseScriptToArrays "autonumber"
  = Ok ([], Some [ENumber "autonumber" "autonumber"]) /\
  parseScriptToArrays "participant"
  = Ok ([Actor "participant" "participant" (Some "participant") ∅], Some []).
Proof.
  split; [| split; vm_compute; reflexivity].
  intros line Hn. unfold commandOf, textOf, Js.indexOf.
  rewrite (indexOfFrom_without_space _ 0 Hn). simpl.
  split; [reflexivity | apply slice_whole].
Qed.

Lemma line_without_space_is_its_own_text_witness :
  ~ In " "%char (list_ascii_of_string (Js.trim "  destroy  ")) /\
  commandOf (Js.trim "  destroy  ") = "destroy" /\
  textOf (Js.trim "  destroy  ") = "destroy".
Proof.
  assert (~ In " "%char (list_ascii_of_string (Js.trim "  destroy  "))) as Hn.
  { vm_compute. intros H. repeat (destruct H as [H|H]; [discriminate H |]). exact H. }
  split; [exact Hn |].
  exact (proj1 line_without_space_is_its_own_text "  destroy  " Hn).
Defined.

(** ** Signal lines *)

Lemma reachesSignals_parseLine st line t :
  top st = Ok t ->
  Js.includes annotations (typeAt st t) = false ->
  reachesSignals (commandOf (Js.trim line)) = true ->
  parseLine st line
  = match parseSignal (Js.trim line) with
    | Some p => pushSignal p st
    | None => Ok st
    end.
Proof.
  intros Ht Ha Hs. unfold parseLine, reachesSignals in *.
  repeat (apply andb_prop in Hs; destruct Hs as [Hs ?]).
  repeat match goal with
         | H : negb ?b = true |- _ => apply negb_true_iff in H; rewrite H
         end.
  rewrite Ht. simpl. rewrite Ha. reflexivity.
Qed.

(** C7 as the code has it: a line that reaches the SIGNALS branch produces
    nothing (no event, no actor, the state is unchanged) when the part after
    the first unquoted colon is empty or absent, or when the part after the
    first arrow is empty or absent. *)
Theorem signal_line_without_caption_or_destination_is_dropped st line t :
  top st = Ok t ->
  Js.includes annotations (typeAt st t) = false ->
  reachesSignals (commandOf (Js.trim line)) = true ->
  snd (splitOnColonEscaped (Js.trim line)) = EmptyString
  \/ Js.truthy (Js.split "->" (fst (splitOnColonEscaped (Js.trim line))) !! 1%nat) = false ->
  parseLine st line = Ok st.
Proof.
  intros Ht Ha Hs Hmissing.
  rewrite (reachesSignals_parseLine st line t Ht Ha Hs).
  unfold parseSignal.
  destruct (splitOnColonEscaped (Js.trim line)) as [srcDest caption]. simpl in Hmissing.
  destruct (Js.split "->" srcDest) as [|src rest]; [reflexivity |].
  replace (head rest) with ((src :: rest) !! 1%nat) by (destruct rest; reflexivity).
  destruct Hmissing as [-> | ->]; [reflexivity |].
  rewrite andb_false_r. reflexivity.
Qed.

Lemma signal_line_without_caption_or_destination_is_dropped_witness :
  parseLine initial "A->: hi" = Ok initial.
Proof.
  apply (signal_line_without_caption_or_destination_is_dropped initial "A->: hi" eventsRef).
  - reflexivity.
  - reflexivity.
  - vm_compute. reflexivity.
  - right. vm_compute. reflexivity.
Defined.

(** C7, refuted as stated: the line [->B: hi] has no source, and yet it
    appends a signal and creates two actors, one of them with the empty
    caption. *)
Lemma signal_line_without_source_is_kept :
  parseScriptToArrays "->B: hi"
  = Ok ([bareParticipant EmptyString; bareParticipant "B"],
        Some [ESignal "hi" EmptyString "B" false false ∅])
  /\ parseLine initial "->B: hi" <> Ok initial.
Proof. split; [vm_compute; reflexivity | vm_compute; discriminate]. Qed.

(** ** Actors named on a signal line *)

Lemma knownCaption_true name l :
  knownCaption name l = true <-> exists a, In a l /\ actorCaption a = name.
Proof.
  unfold knownCaption. rewrite existsb_exists. split.
  - intros (a & Hin & Heq). exists a. split; [exact Hin |].
    apply String.eqb_eq. exact Heq.
  - intros (a & Hin & Heq). exists a. split; [exact Hin |].
    apply String.eqb_eq. exact Heq.
Qed.

Lemma knownCaption_false name l :
  knownCaption name l = false <-> forall a, In a l -> actorCaption a <> name.
Proof.
  split.
  - intros Hk a Hin Heq.
    assert (knownCaption name l = true) as Ht by (apply knownCaption_true; eauto).
    congruence.
  - intros Hn. destruct (knownCaption name l) eqn:Hk; [| reflexivity].
    apply knownCaption_true in Hk. destruct Hk as (a & Hin & Heq).
    exfalso. exact (Hn a Hin Heq).
Qed.

Lemma arrayPush_actors t x st st' : arrayPush t x st = Ok st' -> actors st' = actors st.
Proof.
  unfold arrayPush. destruct (heap st !! t) as [[]|]; intros H; simplify_eq.
  reflexivity.
Qed.

Lemma pushSignal_actors p st st' :
  pushSignal p st = Ok st' ->
  actors st' = actors (ensureActor (spDest p) (ensureActor (spSrc p) st)).
Proof.
  intros H. unfold pushSignal in H.
  inv_bind H. simpl in H. inv_bind H. apply arrayPush_actors in Ha0. simpl in Ha0.
  inv_bind H.
  assert (actors a1 = actors st) as E1.
  { destruct (spIsActivated p); [| simplify_eq; exact Ha0].
    inv_bind Ha1. simpl in Ha1. apply arrayPush_actors in Ha1. simpl in Ha1. congruence. }
  inv_bind H.
  assert (actors a2 = actors st) as E2.
  { destruct (spIsDeactivated p); [| simplify_eq; exact E1].
    inv_bind Ha2. simpl in Ha2. apply arrayPush_actors in Ha2. simpl in Ha2. congruence. }
  simplify_eq. unfold ensureActor. simpl. rewrite E2.
  destruct (knownCaption (spSrc p) (actors st)) eqn:Hs; simpl; rewrite ?E2, ?Hs; simpl.
  - destruct (knownCaption (spDest p) (actors st)); simpl; rewrite ?E2; reflexivity.
  - destruct (knownCaption (spDest p) _); simpl; rewrite ?E2; reflexivity.
Qed.

(** C6 as the code has it: the names on a signal line are resolved against
    the captions of the actors, never against an alias.  When both names are
    captions of actors no participant is appended; a name that is no actor's
    caption is appended as a bare participant, whatever the aliases are. *)
Theorem signal_names_resolve_by_caption p st st' :
  pushSignal p st = Ok st' ->
  ((exists a, In a (actors st) /\ actorCaption a = spSrc p) ->
   (exists a, In a (actors st) /\ actorCaption a = spDest p) ->
   actors st' = actors st) /\
  ((forall a, In a (actors st) -> actorCaption a <> spSrc p) ->
   In (bareParticipant (spSrc p)) (actors st')) /\
  ((forall a, In a (actors st) -> actorCaption a <> spDest p) ->
   In (bareParticipant (spDest p)) (actors st')).
Proof.
  intros H. apply pushSignal_actors in H. rewrite H. clear H.
  unfold ensureActor. simpl. split; [| split].
  - intros Hs Hd. apply knownCaption_true in Hs, Hd. rewrite Hs. simpl. rewrite Hd.
    reflexivity.
  - intros Hs. apply knownCaption_false in Hs. rewrite Hs. simpl.
    destruct (knownCaption (spDest p) _); simpl.
    + apply in_or_app. right. left. reflexivity.
    + apply in_or_app. left. apply in_or_app. right. left. reflexivity.
  - intros Hd. destruct (knownCaption (spSrc p) (actors st)) eqn:Hs; simpl.
    + apply knownCaption_false in Hd. rewrite Hd. simpl.
      apply in_or_app. right. left. reflexivity.
    + destruct (knownCaption (spDest p) _) eqn:Hd'; simpl.
      * apply knownCaption_true in Hd'. destruct Hd' as (a & Hin & Heq).
        apply in_app_or in Hin. destruct Hin as [Hin | [<- | []]].
        -- exfalso. exact (Hd a Hin Heq).
        -- simpl in Heq. rewrite <- Heq. apply in_or_app. right. left. reflexivity.
      * apply in_or_app. right. left. reflexivity.
Qed.

Lemma signal_names_resolve_by_caption_witness :
  parseLine (State [Actor "participant" "Alice" (Some "A") ∅] [OArray []] [eventsRef])
    "Alice->Alice: hi"
  = Ok (State [Actor "participant" "Alice" (Some "A") ∅]
          [OArray [1%nat]; OSignal "hi" "Alice" "Alice" false false] [eventsRef])
  /\ actors (State [Actor "participant" "Alice" (Some "A") ∅]
               [OArray [1%nat]; OSignal "hi" "Alice" "Alice" false false] [eventsRef])
     = actors (State [Actor "participant" "Alice" (Some "A") ∅] [OArray []] [eventsRef]).
Proof.
  split; [vm_compute; reflexivity |].
  apply (proj1 (signal_names_resolve_by_caption
                  (SignalParts "hi" "Alice" "Alice" false false false false false)
                  (State [Actor "participant" "Alice" (Some "A") ∅] [OArray []] [eventsRef])
                  (State [Actor "participant" "Alice" (Some "A") ∅]
                     [OArray [1%nat]; OSignal "hi" "Alice" "Alice" false false] [eventsRef])
                  eq_refl)).
  - eexists. split; [left; reflexivity | reflexivity].
  - eexists. split; [left; reflexivity | reflexivity].
Defined.

(** C6, refuted as stated: after [participant Alice as A], the line
    [A->Alice: hi] yields a signal from [A] to [Alice], not from the declared
    actor to itself, and a bare participant with the caption [A] is
    appended. *)
Lemma signal_by_alias_appends_participant :
  parseScriptToArrays ("participant Alice as A" ++ newline ++ "A->Alice: hi")
  = Ok ([Actor "participant" "Alice" (Some "A") ∅; bareParticipant "A"],
        Some [ESignal "hi" "A" "Alice" false false ∅]).
Proof. vm_compute. reflexivity. Qed.

(** ** The [else] line *)

Lemma else_parseLine st line t :
  commandOf (Js.trim line) = "else" ->
  top st = Ok t ->
  Js.includes annotations (typeAt st t) = false ->
  parseLine st line
  = (t1 ← top (guardedPop st);
     if Js.includes conditionalGroupings (typeAt (guardedPop st) t1) then
       let '(caseEvents, st1) := alloc (OArray []) (guardedPop st) in
       st2 ← casesPush t1 (textOf (Js.trim line), caseEvents) st1;
       Ok (pushFrame caseEvents st2)
     else Ok (guardedPop st)).
Proof.
  intros Hc Ht Ha. unfold parseLine. rewrite Hc, Ht. simpl. rewrite Ha. reflexivity.
Qed.

(** C8 as the code has it: an [else] line first pops one frame if the stack
    has more than one, and adds a case only if the frame this exposes is a
    conditional grouping.  While only the root sequence is open the line
    changes nothing; when the exposed frame is no conditional grouping (as
    inside a parallel or serial block) the pop is all it does: no case and no
    event is added; when it is one, a case with the caption [text] is added
    to it and the case's sequence is pushed. *)
Theorem else_line_pops_then_adds_case_to_grouping st line t :
  commandOf (Js.trim line) = "else" ->
  top st = Ok t ->
  Js.includes annotations (typeAt st t) = false ->
  (rooted st -> length (eventStack st) = 1%nat -> parseLine st line = Ok st) /\
  (forall t1,
      top (guardedPop st) = Ok t1 ->
      Js.includes conditionalGroupings (typeAt (guardedPop st) t1) = false ->
      parseLine st line = Ok (guardedPop st)) /\
  (forall t1 ty cases,
      top (guardedPop st) = Ok t1 ->
      heap st !! t1 = Some (OCases ty cases) ->
      Js.includes conditionalGroupings (Some ty) = true ->
      parseLine st line
      = Ok (State (actors st)
              (<[t1 := OCases ty (cases ++ [(textOf (Js.trim line), length (heap st))])]>
                 (heap st ++ [OArray []])%list)
              (length (heap st) :: eventStack (guardedPop st)))).
Proof.
  intros Hc Ht Ha. rewrite (else_parseLine st line t Hc Ht Ha).
  split; [| split].
  - intros [Hl [items Hi]] Hlen. unfold guardedPop. rewrite Hlen. simpl.
    unfold top. destruct (eventStack st) as [|x [|y l]] eqn:Hs; simplify_eq/=.
    unfold typeAt. rewrite Hi. reflexivity.
  - intros t1 Ht1 Hn. rewrite Ht1. simpl. rewrite Hn. reflexivity.
  - intros t1 ty cases Ht1 Hobj Hty. rewrite Ht1.
    cbn [mbind result_bind bind].
    assert (heap (guardedPop st) = heap st) as Hheap.
    { unfold guardedPop. destruct (1 <? _)%nat; reflexivity. }
    assert (actors (guardedPop st) = actors st) as Hact.
    { unfold guardedPop. destruct (1 <? _)%nat; reflexivity. }
    unfold typeAt. rewrite Hheap, Hobj. simpl typeOf. rewrite Hty.
    unfold casesPush, alloc. cbn [heap withHeap]. rewrite Hheap.
    rewrite (lookup_app_l (heap st) [OArray []] t1)
      by (apply lookup_lt_Some in Hobj; exact Hobj).
    rewrite Hobj. cbn [mbind result_bind bind].
    unfold pushFrame, withStack, withHeap. cbn [actors heap eventStack].
    rewrite Hact. reflexivity.
Qed.

Lemma else_line_pops_then_adds_case_to_grouping_witness :
  parseLine initial "else x" = Ok initial
  /\ parseLine (State [] [OArray [1%nat]; OSync "parallel" 2%nat; OArray []] [2%nat; 0%nat])
       "else x"
     = Ok (State [] [OArray [1%nat]; OSync "parallel" 2%nat; OArray []] [0%nat])
  /\ parseLine (State [] [OArray [1%nat]; OCases "alt" [("a", 2%nat)]; OArray []]
                  [2%nat; 1%nat; 0%nat]) "else x"
     = Ok (State []
             [OArray [1%nat]; OCases "alt" [("a", 2%nat); ("x", 3%nat)]; OArray []; OArray []]
             [3%nat; 1%nat; 0%nat]).
Proof.
  split; [| split].
  - apply (proj1 (else_line_pops_then_adds_case_to_grouping initial "else x" 0%nat
                    eq_refl eq_refl eq_refl)).
    + split; [reflexivity | exists []; reflexivity].
    + reflexivity.
  - apply (proj1 (proj2 (else_line_pops_then_adds_case_to_grouping
                           (State [] [OArray [1%nat]; OSync "parallel" 2%nat; OArray []]
                              [2%nat; 0%nat])
                           "else x" 2%nat eq_refl eq_refl eq_refl)) 0%nat).
    + reflexivity.
    + reflexivity.
  - apply (proj2 (proj2 (else_line_pops_then_adds_case_to_grouping
                           (State [] [OArray [1%nat]; OCases "alt" [("a", 2%nat)]; OArray []]
                              [2%nat; 1%nat; 0%nat])
                           "else x" 2%nat eq_refl eq_refl eq_refl))
             1%nat "alt" [("a", 2%nat)]).
    + reflexivity.
    + reflexivity.
    + reflexivity.
Defined.

(** C8, refuted as stated: inside a parallel block an [else] line changes
    the nesting (it closes the block), and with it the output: the signal
    that follows lands in the root sequence instead of the block. *)
Lemma else_inside_parallel_closes_the_block :
  (exists st st',
      parseLines ["parallel"] initial = Ok st /\
      parseLine st "else" = Ok st' /\
      eventStack st = [2%nat; 0%nat] /\ eventStack st' = [0%nat]) /\
  parseScriptToArrays ("parallel" ++ newline ++ "else" ++ newline ++ "A->B: x")
  = Ok ([bareParticipant "A"; bareParticipant "B"],
        Some [ESync "parallel" []; ESignal "x" "A" "B" false false ∅]) /\
  parseScriptToArrays ("parallel" ++ newline ++ "A->B: x")
  = Ok ([bareParticipant "A"; bareParticipant "B"],
        Some [ESync "parallel" [ESignal "x" "A" "B" false false ∅]]).
Proof.
  split; [| split; vm_compute; reflexivity].
  eexists. eexists. split; [vm_compute; reflexivity |].
  split; [vm_compute; reflexivity |]. split; reflexivity.
Qed.

(** ** Lifetime events *)

(** Creating an object and pushing it on the array on top of the stack. *)
Lemma alloc_arrayPush st t items o :
  heap st !! t = Some (OArray items) ->
  arrayPush t (length (heap st)) (snd (alloc o st))
  = Ok (State (actors st)
          (<[t := OArray (items ++ [length (heap st)])]> (heap st ++ [o])%list)
          (eventStack st)).
Proof.
  intros Hi. unfold arrayPush, alloc. cbn [snd heap withHeap].
  rewrite (lookup_app_l (heap st) [o] t) by (apply lookup_lt_Some in Hi; exact Hi).
  rewrite Hi. reflexivity.
Qed.

Lemma mbind_Ok {A B : Type} (a : A) (k : A -> result B) : mbind k (Ok a) = k a.
Proof. reflexivity. Qed.

Lemma push_object st t items o :
  top st = Ok t ->
  heap st !! t = Some (OArray items) ->
  (t ← top st; let '(e, st) := alloc o st in arrayPush t e st)
  = Ok (State (actors st)
          (<[t := OArray (items ++ [length (heap st)])]> (heap st ++ [o])%list)
          (eventStack st)).
Proof.
  intros Ht Hi. rewrite Ht. cbn [mbind result_bind bind].
  exact (alloc_arrayPush st t items o Hi).
Qed.

Lemma insert_after_push (h : list obj) t (a b : obj) (o : list obj) :
  (t < length h)%nat ->
  <[t := b]> (<[t := a]> h ++ o)%list = <[t := b]> (h ++ o)%list.
Proof.
  intros Hlt.
  rewrite !insert_app_l by (rewrite ?length_insert; exact Hlt).
  rewrite list_insert_insert_eq. reflexivity.
Qed.

Ltac normalise_pushes :=
  cbn [heap];
  repeat (rewrite length_insert || rewrite length_app);
  cbn [length app seq];
  repeat (rewrite <- app_assoc
          || rewrite insert_after_push
               by (repeat (rewrite length_insert || rewrite length_app);
                   cbn [length]; lia));
  cbn [app]; rewrite ?Nat.add_1_r; reflexivity.

Lemma includes_lifetime command :
  Js.includes lifetime (Some command) = true ->
  command = "activate" \/ command = "deactivate" \/ command = "destroy".
Proof.
  unfold Js.includes, lifetime. simpl. rewrite !orb_true_iff, !String.eqb_eq.
  intuition congruence.
Qed.

Lemma ensureActor_heap name st : heap (ensureActor name st) = heap st.
Proof. unfold ensureActor. destruct (knownCaption _ _); reflexivity. Qed.

Lemma ensureActor_eventStack name st :
  eventStack (ensureActor name st) = eventStack st.
Proof. unfold ensureActor. destruct (knownCaption _ _); reflexivity. Qed.

(** C9: the two kinds of lifetime events have different shapes.  A line
    [activate X], [deactivate X] or [destroy X] appends an object with a
    [type] and one case whose caption is [X] and whose sequence is empty (and
    no [src]); a signal whose destination carries the mark [+] or [-] appends,
    after the signal, an object with the [type] [activate] or [deactivate] and
    the destination as [src] (and no [cases]).  Neither alters the nesting
    stack. *)
Theorem lifetime_events_have_two_shapes st t items :
  top st = Ok t ->
  heap st !! t = Some (OArray items) ->
  (forall line,
      Js.includes lifetime (Some (commandOf (Js.trim line))) = true ->
      parseLine st line
      = Ok (State (actors st)
              (<[t := OArray (items ++ [length (heap st)])]>
                 (heap st
                  ++ [OCases (commandOf (Js.trim line))
                        [(textOf (Js.trim line), S (length (heap st)))];
                      OArray []])%list)
              (eventStack st))) /\
  (forall line p,
      reachesSignals (commandOf (Js.trim line)) = true ->
      parseSignal (Js.trim line) = Some p ->
      exists st',
        parseLine st line = Ok st' /\
        eventStack st' = eventStack st /\
        heap st'
        = <[t := OArray (items
                         ++ seq (length (heap st)) (S (length (implicitLifetime p))))]>
            (heap st
             ++ OSignal (spCaption p) (spSrc p) (spDest p) (spDotted p) (spOpen p)
                :: implicitLifetime p)%list).
Proof.
  intros Ht Hi.
  assert (typeAt st t = None) as Hty by (unfold typeAt; rewrite Hi; reflexivity).
  assert (t < length (heap st))%nat as Hlt by (apply lookup_lt_Some in Hi; exact Hi).
  split.
  - intros line Hc. unfold parseLine.
    set (command := commandOf (Js.trim line)) in *.
    set (text := textOf (Js.trim line)).
    assert (Js.includes lifetime (Some command) = true) as Hc' by exact Hc.
    apply includes_lifetime in Hc.
    assert ((command =? "end")%string = false
            /\ Js.includes annotations (Some command) = false
            /\ Js.includes participants (Some command) = false
            /\ Js.includes conditionalGroupings (Some command) = false
            /\ (command =? "else")%string = false) as (E1 & E2 & E3 & E4 & E5).
    { destruct Hc as [-> | [-> | ->]]; repeat split; reflexivity. }
    rewrite E1, Ht. cbn [mbind result_bind bind]. rewrite Hty.
    change (Js.includes annotations None) with false. cbv iota.
    rewrite E2, E3, E4, E5, Hc'.
    unfold arrayPush, alloc. cbn [heap withHeap actors eventStack].
    rewrite <- app_assoc. cbn [app].
    rewrite (lookup_app_l (heap st) _ t) by exact Hlt.
    rewrite Hi. reflexivity.
  - intros line p Hs Hp.
    rewrite (reachesSignals_parseLine st line t Ht);
      [| rewrite Hty; reflexivity | exact Hs].
    rewrite Hp. unfold pushSignal.
    set (sig := OSignal (spCaption p) (spSrc p) (spDest p) (spDotted p) (spOpen p)).
    rewrite Ht. rewrite mbind_Ok; cbv beta.
    change (alloc sig st) with (length (heap st), snd (alloc sig st)).
    cbv iota. rewrite (alloc_arrayPush st t items sig Hi).
    rewrite mbind_Ok; cbv beta. unfold implicitLifetime.
    set (h1 := <[t := OArray (items ++ [length (heap st)])]> (heap st ++ [sig])%list).
    set (s1 := State (actors st) h1 (eventStack st)).
    assert (length h1 = S (length (heap st))) as Hlen1.
    { unfold h1. rewrite length_insert, length_app. simpl. lia. }
    assert (heap s1 !! t = Some (OArray (items ++ [length (heap st)]))) as Hi1.
    { unfold h1. apply list_lookup_insert_eq. rewrite length_app. simpl. lia. }
    assert (top s1 = Ok t) as Ht1 by exact Ht.
    destruct (spIsActivated p), (spIsDeactivated p).
    + rewrite (push_object s1 t _ (OLife "activate" (spDest p)) Ht1 Hi1).
      rewrite mbind_Ok; cbv beta; cbn [actors heap eventStack].
      set (h2 := <[t := OArray ((items ++ [length (heap st)]) ++ [length (heap s1)])]>
                   (heap s1 ++ [OLife "activate" (spDest p)])%list).
      set (s2 := State (actors s1) h2 (eventStack s1)).
      assert (heap s2 !! t
              = Some (OArray ((items ++ [length (heap st)]) ++ [length (heap s1)])))
        as Hi2.
      { unfold h2. apply list_lookup_insert_eq. rewrite length_app. simpl.
        fold h1. lia. }
      assert (top s2 = Ok t) as Ht2 by exact Ht.
      rewrite (push_object s2 t _ (OLife "deactivate" (spDest p)) Ht2 Hi2).
      rewrite mbind_Ok; cbv beta; cbn [actors heap eventStack].
      eexists. split; [reflexivity |].
      rewrite !ensureActor_eventStack, !ensureActor_heap. cbn [heap eventStack].
      split; [reflexivity |].
      clear Hi2 Ht2 Hi1 Ht1 Hlen1. subst s2 h2 s1 h1. normalise_pushes.
    + rewrite (push_object s1 t _ (OLife "activate" (spDest p)) Ht1 Hi1).
      rewrite mbind_Ok; cbv beta; cbn [actors heap eventStack].
      eexists. split; [reflexivity |].
      rewrite !ensureActor_eventStack, !ensureActor_heap. cbn [heap eventStack].
      split; [reflexivity |].
      clear Hi1 Ht1 Hlen1. subst s1 h1. normalise_pushes.
    + rewrite mbind_Ok; cbv beta.
      rewrite (push_object s1 t _ (OLife "deactivate" (spDest p)) Ht1 Hi1).
      rewrite mbind_Ok; cbv beta; cbn [actors heap eventStack].
      eexists. split; [reflexivity |].
      rewrite !ensureActor_eventStack, !ensureActor_heap. cbn [heap eventStack].
      split; [reflexivity |].
      clear Hi1 Ht1 Hlen1. subst s1 h1. normalise_pushes.
    + rewrite mbind_Ok; cbv beta.
      eexists. split; [reflexivity |].
      rewrite !ensureActor_eventStack, !ensureActor_heap. cbn [heap eventStack].
      split; reflexivity.
Qed.

Lemma lifetime_events_have_two_shapes_witness :
  parseLine initial "activate X"
  = Ok (State [] [OArray [1%nat]; OCases "activate" [("X", 2%nat)]; OArray []] [0%nat])
  /\ exists st',
      parseLine initial "A->+B: go" = Ok st' /\
      eventStack st' = [0%nat] /\
      heap st' = [OArray [1%nat; 2%nat]; OSignal "go" "A" "B" false false;
                  OLife "activate" "B"].
Proof.
  split.
  - exact (proj1 (lifetime_events_have_two_shapes initial 0%nat [] eq_refl eq_refl)
             "activate X" eq_refl).
  - exact (proj2 (lifetime_events_have_two_shapes initial 0%nat [] eq_refl eq_refl)
             "A->+B: go"
             (SignalParts "go" "A" "B" false false false true false)
             eq_refl eq_refl).
Defined.

(** The same two shapes, read off the returned tree. *)
Example lifetime_shapes_in_the_tree :
  parseScriptToArrays ("destroy X" ++ newline ++ "A->>+-B: go")
  = Ok ([bareParticipant "A"; bareParticipant "B"],
        Some [ECases "destroy" [ECase "X" [] ∅] ∅;
              ESignal "go" "A" "B" false true ∅;
              ELife "activate" "B";
              ELife "deactivate" "B"]).
Proof. vm_compute. reflexivity. Qed.

(** ** The store is a forest, and the returned tree can be read off it *)

Lemma ownsLater_keepsKinds h h' a o :
  keepsKinds h h' -> ownsLater h a o -> ownsLater h' a o.
Proof.
  intros Hk. destruct o as [items| | |ty cases| |ty nested|]; simpl; auto.
  - intros H. eapply Forall_impl; [exact H |].
    intros r [Hlt He]. split; [exact Hlt | apply Hk, He].
  - intros H. eapply Forall_impl; [exact H |].
    intros c [Hlt Ha]. split; [exact Hlt | apply Hk, Ha].
  - intros [Hlt Ha]. split; [exact Hlt | apply Hk, Ha].
Qed.

Lemma keepsKinds_app h objs : keepsKinds h (h ++ objs).
Proof.
  intros r. split.
  - intros [items Hi]. exists items. rewrite lookup_app_l; [exact Hi |].
    apply lookup_lt_Some in Hi. exact Hi.
  - intros (o & Ho & Hty). exists o. split; [| exact Hty].
    rewrite lookup_app_l; [exact Ho |]. apply lookup_lt_Some in Ho. exact Ho.
Qed.

Lemma keepsKinds_insert h t o o' :
  h !! t = Some o -> (typeOf o = None <-> typeOf o' = None) ->
  (forall items, o = OArray items -> exists items', o' = OArray items') ->
  keepsKinds h (<[t := o']> h).
Proof.
  intros Ht Hty Harr r. pose proof (lookup_lt_Some _ _ _ Ht) as Hlt.
  destruct (decide (t = r)) as [<-|Hne].
  - split.
    + intros [items Hi]. rewrite Ht in Hi. injection Hi as ->.
      destruct (Harr items eq_refl) as [items' ->]. exists items'.
      apply list_lookup_insert_eq, Hlt.
    + intros (o1 & Ho1 & Hty1). rewrite Ht in Ho1. injection Ho1 as <-.
      exists o'. split; [apply list_lookup_insert_eq, Hlt |].
      intros Hn. apply Hty1, Hty, Hn.
  - split.
    + intros [items Hi]. exists items. rewrite list_lookup_insert_ne; auto.
    + intros (o1 & Ho1 & Hty1). exists o1. rewrite list_lookup_insert_ne; auto.
Qed.

(** Replacing an object by one of the same kind that owns later objects. *)
Lemma wellFormed_insert st t o o' :
  wellFormed st ->
  heap st !! t = Some o ->
  (typeOf o = None <-> typeOf o' = None) ->
  (forall items, o = OArray items -> exists items', o' = OArray items') ->
  ownsLater (<[t := o']> (heap st)) t o' ->
  wellFormed (withHeap st (<[t := o']> (heap st))).
Proof.
  intros [Hown Hstack] Ht Hty Harr Ho'. split; simpl.
  - intros a o1 Ha. destruct (decide (t = a)) as [<-|Hne].
    + rewrite list_lookup_insert_eq in Ha by (apply lookup_lt_Some in Ht; exact Ht).
      injection Ha as <-. exact Ho'.
    + rewrite list_lookup_insert_ne in Ha by exact Hne.
      eapply ownsLater_keepsKinds; [| exact (Hown a o1 Ha)].
      eapply keepsKinds_insert; eauto.
  - rewrite length_insert. exact Hstack.
Qed.

(** Appending objects that own later objects of the grown store. *)
Lemma wellFormed_app st objs :
  wellFormed st ->
  (forall i o, objs !! i = Some o ->
               ownsLater (heap st ++ objs) (length (heap st) + i) o) ->
  wellFormed (withHeap st (heap st ++ objs)).
Proof.
  intros [Hown Hstack] Hnew. split; simpl.
  - intros a o Ha. apply lookup_app_Some in Ha. destruct Ha as [Ha | [Hge Ha]].
    + eapply ownsLater_keepsKinds; [apply keepsKinds_app | exact (Hown a o Ha)].
    + replace a with (length (heap st) + (a - length (heap st)))%nat by lia.
      apply Hnew, Ha.
  - rewrite length_app. eapply Forall_impl; [exact Hstack |]. simpl. intros. lia.
Qed.

Lemma wellFormed_alloc_leaf st o :
  wellFormed st -> ownsLater (heap st ++ [o]) (length (heap st)) o ->
  wellFormed (snd (alloc o st)).
Proof.
  intros Hwf Ho. apply (wellFormed_app st [o] Hwf).
  intros [|i] o1 Hi; simpl in Hi; [| discriminate].
  injection Hi as <-. rewrite Nat.add_0_r. exact Ho.
Qed.

(** An object created together with its own empty array. *)
Lemma wellFormed_alloc_owner st o :
  wellFormed st ->
  ownsLater (heap st ++ [o; OArray []]) (length (heap st)) o ->
  wellFormed (snd (alloc (OArray []) (snd (alloc o st)))).
Proof.
  intros Hwf Ho. unfold alloc. cbn [snd heap withHeap].
  rewrite <- app_assoc. cbn [app].
  apply (wellFormed_app st [o; OArray []] Hwf).
  intros [|[|i]] o1 Hi; simpl in Hi; try discriminate; injection Hi as <-.
  - rewrite Nat.add_0_r. exact Ho.
  - constructor.
Qed.

Lemma isArrayAt_last h : isArrayAt (h ++ [OArray []]) (length h).
Proof.
  exists []. rewrite lookup_app_r by lia. rewrite Nat.sub_diag. reflexivity.
Qed.

Lemma ownsLater_owner h ty text :
  ownsLater (h ++ [OCases ty [(text, S (length h))]; OArray []]) (length h)
    (OCases ty [(text, S (length h))]).
Proof.
  simpl. constructor; [| constructor]. simpl. split; [lia |].
  exists []. rewrite lookup_app_r by lia.
  replace (S (length h) - length h)%nat with 1%nat by lia. reflexivity.
Qed.

Lemma ownsLater_sync h ty :
  ownsLater (h ++ [OSync ty (S (length h)); OArray []]) (length h)
    (OSync ty (S (length h))).
Proof.
  simpl. split; [lia |].
  exists []. rewrite lookup_app_r by lia.
  replace (S (length h) - length h)%nat with 1%nat by lia. reflexivity.
Qed.

Lemma wellFormed_arrayPush st t x st' :
  wellFormed st -> arrayPush t x st = Ok st' ->
  (t < x)%nat -> isEventAt (heap st) x ->
  wellFormed st'.
Proof.
  intros Hwf H Hlt Hx. unfold arrayPush in H.
  destruct (heap st !! t) as [[items| | | | | |]|] eqn:Ht; simplify_eq.
  assert (keepsKinds (heap st) (<[t := OArray (items ++ [x])]> (heap st))) as Hk.
  { eapply keepsKinds_insert; [exact Ht | simpl; tauto | eauto]. }
  eapply wellFormed_insert; [exact Hwf | exact Ht | simpl; tauto | eauto |].
  simpl. apply Forall_app. split.
  - pose proof (proj1 Hwf t _ Ht) as Hown. simpl in Hown.
    eapply Forall_impl; [exact Hown |].
    intros r [Hr He]. split; [exact Hr | apply Hk, He].
  - constructor; [| constructor]. split; [exact Hlt | apply Hk, Hx].
Qed.

Lemma wellFormed_appendCaption st t s st' :
  wellFormed st -> appendCaption t s st = Ok st' -> wellFormed st'.
Proof.
  intros Hwf H. unfold appendCaption in H.
  destruct (heap st !! t) as [[| |ty c al sr| | | |]|] eqn:Ht; simplify_eq.
  eapply wellFormed_insert; [exact Hwf | exact Ht | simpl | | exact I].
  - split; discriminate.
  - intros items Hi. discriminate.
Qed.

Lemma wellFormed_casesPush st t c st' :
  wellFormed st -> casesPush t c st = Ok st' ->
  (t < snd c)%nat -> isArrayAt (heap st) (snd c) ->
  wellFormed st'.
Proof.
  intros Hwf H Hlt Hc. unfold casesPush in H.
  destruct (heap st !! t) as [[| | |ty cs| | |]|] eqn:Ht; simplify_eq.
  assert (keepsKinds (heap st) (<[t := OCases ty (cs ++ [c])]> (heap st))) as Hk.
  { eapply keepsKinds_insert; [exact Ht | simpl; split; discriminate |].
    intros items Hi. discriminate. }
  eapply wellFormed_insert; [exact Hwf | exact Ht | simpl; split; discriminate | |].
  - intros items Hi. discriminate.
  - simpl. apply Forall_app. split.
    + pose proof (proj1 Hwf t _ Ht) as Hown. simpl in Hown.
      eapply Forall_impl; [exact Hown |].
      intros r [Hr He]. split; [exact Hr | apply Hk, He].
    + constructor; [| constructor]. split; [exact Hlt | apply Hk, Hc].
Qed.

Lemma wellFormed_withStack st s :
  wellFormed st -> Forall (fun r => (r < length (heap st))%nat) s ->
  wellFormed (withStack st s).
Proof. intros [Hown _] Hs. split; [exact Hown | exact Hs]. Qed.

Lemma wellFormed_pushFrame st r :
  wellFormed st -> (r < length (heap st))%nat -> wellFormed (pushFrame r st).
Proof.
  intros Hwf Hr. apply wellFormed_withStack; [exact Hwf |].
  constructor; [exact Hr | exact (proj2 Hwf)].
Qed.

Lemma wellFormed_pop st : wellFormed st -> wellFormed (pop st).
Proof.
  intros Hwf. apply wellFormed_withStack; [exact Hwf |].
  destruct Hwf as [_ Hs]. destruct (eventStack st); [constructor |].
  simpl. apply Forall_cons in Hs. exact (proj2 Hs).
Qed.

Lemma wellFormed_guardedPop st : wellFormed st -> wellFormed (guardedPop st).
Proof.
  intros Hwf. unfold guardedPop. destruct (1 <? _)%nat; [apply wellFormed_pop |]; exact Hwf.
Qed.

Lemma wellFormed_ensureActor st name : wellFormed st -> wellFormed (ensureActor name st).
Proof. intros H. unfold ensureActor. destruct (knownCaption _ _); exact H. Qed.

Lemma wellFormed_top st t : wellFormed st -> top st = Ok t -> (t < length (heap st))%nat.
Proof.
  intros [_ Hs] Ht. unfold top in Ht. destruct (eventStack st) as [|r l]; simplify_eq.
  apply Forall_cons in Hs. exact (proj1 Hs).
Qed.

Lemma arrayPush_shape t x st st' :
  arrayPush t x st = Ok st' ->
  length (heap st') = length (heap st) /\ eventStack st' = eventStack st.
Proof.
  unfold arrayPush. destruct (heap st !! t) as [[]|]; intros H; simplify_eq.
  simpl. rewrite length_insert. auto.
Qed.

(** Creating an event without nested objects and pushing it on the array on
    top of the stack. *)
Lemma wellFormed_push_leaf st t o st' :
  wellFormed st -> top st = Ok t ->
  arrayPush t (length (heap st)) (snd (alloc o st)) = Ok st' ->
  typeOf o <> None ->
  ownsLater (heap st ++ [o]) (length (heap st)) o ->
  wellFormed st' /\ eventStack st' = eventStack st
  /\ (length (heap st) < length (heap st'))%nat.
Proof.
  intros Hwf Ht H Hty Ho.
  pose proof (wellFormed_top st t Hwf Ht) as Hlt.
  destruct (arrayPush_shape _ _ _ _ H) as [Hlen Hst]. simpl in Hlen, Hst.
  rewrite length_app in Hlen. simpl in Hlen.
  split; [| split; [exact Hst | lia]].
  eapply wellFormed_arrayPush; [apply wellFormed_alloc_leaf; eauto | exact H | exact Hlt |].
  exists o. split; [| exact Hty]. simpl.
  rewrite lookup_app_r by lia. rewrite Nat.sub_diag. reflexivity.
Qed.

(** Creating an event together with its own empty array and pushing the
    event on the array on top of the stack. *)
Lemma wellFormed_push_owner st t o st' :
  wellFormed st -> top st = Ok t ->
  arrayPush t (length (heap st)) (snd (alloc (OArray []) (snd (alloc o st)))) = Ok st' ->
  typeOf o <> None ->
  ownsLater (heap st ++ [o; OArray []]) (length (heap st)) o ->
  wellFormed st' /\ eventStack st' = eventStack st
  /\ length (heap st') = S (S (length (heap st))).
Proof.
  intros Hwf Ht H Hty Ho.
  pose proof (wellFormed_top st t Hwf Ht) as Hlt.
  destruct (arrayPush_shape _ _ _ _ H) as [Hlen Hst]. simpl in Hlen, Hst.
  rewrite !length_app in Hlen. simpl in Hlen.
  split; [| split; [exact Hst | lia]].
  eapply wellFormed_arrayPush;
    [apply wellFormed_alloc_owner; eauto | exact H | exact Hlt |].
  exists o. split; [| exact Hty]. simpl.
  rewrite <- app_assoc. simpl.
  rewrite lookup_app_r by lia. rewrite Nat.sub_diag. reflexivity.
Qed.

Lemma wellFormed_pushSignal p st st' :
  wellFormed st -> pushSignal p st = Ok st' -> wellFormed st'.
Proof.
  intros Hwf H. unfold pushSignal in H.
  inv_bind H. simpl in H. inv_bind H.
  destruct (wellFormed_push_leaf st a _ a0 Hwf Ha Ha0 ltac:(discriminate) I)
    as (Hwf0 & Hst0 & _).
  inv_bind H.
  assert (wellFormed a1) as Hwf1.
  { destruct (spIsActivated p); [| simplify_eq; exact Hwf0].
    inv_bind Ha1. simpl in Ha1.
    exact (proj1 (wellFormed_push_leaf a0 a2 _ a1 Hwf0 Ha2 Ha1 ltac:(discriminate) I)). }
  inv_bind H.
  assert (wellFormed a2) as Hwf2.
  { destruct (spIsDeactivated p); [| simplify_eq; exact Hwf1].
    inv_bind Ha2. simpl in Ha2.
    exact (proj1 (wellFormed_push_leaf a1 a3 _ a2 Hwf1 Ha3 Ha2 ltac:(discriminate) I)). }
  simplify_eq. apply wellFormed_ensureActor, wellFormed_ensureActor, Hwf2.
Qed.

Lemma wellFormed_parseLine st line st' :
  wellFormed st -> parseLine st line = Ok st' -> wellFormed st'.
Proof.
  intros Hwf H. unfold parseLine in H.
  set (trimmedLine := Js.trim line) in *.
  set (command := commandOf trimmedLine) in *.
  set (text := textOf trimmedLine) in *.
  destruct (command =? "end")%string.
  { inv_bind H. pose proof (wellFormed_guardedPop st Hwf) as Hg.
    destruct (Js.includes conditionalGroupings _); simplify_eq;
      [apply wellFormed_pop |]; exact Hg. }
  inv_bind H.
  destruct (Js.includes annotations (typeAt st a)).
  { eapply wellFormed_appendCaption; eauto. }
  destruct (Js.includes annotations (Some command)).
  { simpl in H. inv_bind H.
    destruct (wellFormed_push_leaf st a _ a0 Hwf Ha Ha0 ltac:(discriminate) I)
      as (Hwf0 & Hst0 & Hlen0).
    destruct (negb _); simplify_eq; [| exact Hwf0].
    apply wellFormed_pushFrame; [exact Hwf0 | exact Hlen0]. }
  destruct (Js.includes participants (Some command)).
  { simplify_eq. exact Hwf. }
  destruct (Js.includes conditionalGroupings (Some command)).
  { simpl in H. inv_bind H. simplify_eq.
    destruct (wellFormed_push_owner st a _ a0 Hwf Ha Ha0 ltac:(discriminate)
                (ownsLater_owner (heap st) command text))
      as (Hwf0 & Hst0 & Hlen0).
    apply wellFormed_pushFrame; [apply wellFormed_pushFrame; [exact Hwf0 |] |];
      simpl; rewrite ?length_app; simpl; lia. }
  destruct (command =? "else")%string.
  { inv_bind H. pose proof (wellFormed_guardedPop st Hwf) as Hg.
    destruct (Js.includes conditionalGroupings _); simplify_eq; [| exact Hg].
    simpl in H. inv_bind H. simplify_eq.
    pose proof (wellFormed_top _ _ Hg Ha0) as Hlt.
    assert (wellFormed (snd (alloc (OArray []) (guardedPop st)))) as Hwf1.
    { apply wellFormed_alloc_leaf; [exact Hg | constructor]. }
    assert (wellFormed a1) as Hwf2.
    { eapply wellFormed_casesPush; [exact Hwf1 | exact Ha1 | exact Hlt |].
      apply isArrayAt_last. }
    apply wellFormed_pushFrame; [exact Hwf2 |].
    unfold casesPush in Ha1. simpl in Ha1.
    destruct (_ !! a0) as [[]|]; simplify_eq. simpl.
    rewrite length_insert, length_app. simpl. lia. }
  destruct (Js.includes lifetime (Some command)).
  { simpl in H.
    exact (proj1 (wellFormed_push_owner st a _ st' Hwf Ha H ltac:(discriminate)
                    (ownsLater_owner (heap st) command text))). }
  destruct (Js.includes synchrony (Some command)).
  { simpl in H. inv_bind H. simplify_eq.
    destruct (wellFormed_push_owner st a _ a0 Hwf Ha Ha0 ltac:(discriminate)
                (ownsLater_sync (heap st) command))
      as (Hwf0 & Hst0 & Hlen0).
    apply wellFormed_pushFrame; [exact Hwf0 |].
    simpl. rewrite ?length_app. simpl. lia. }
  destruct (command =? "}")%string.
  { simplify_eq. apply wellFormed_guardedPop, Hwf. }
  destruct (command =? "autonumber")%string.
  { simpl in H.
    exact (proj1 (wellFormed_push_leaf st a _ st' Hwf Ha H ltac:(discriminate) I)). }
  destruct (Js.startsWith "#" command).
  { simplify_eq. exact Hwf. }
  destruct (parseSignal trimmedLine) as [p|]; [| simplify_eq; exact Hwf].
  eapply wellFormed_pushSignal; eauto.
Qed.

Lemma wellFormed_initial : wellFormed initial.
Proof.
  split.
  - intros [|a] o Ha; simpl in Ha; [| discriminate]. injection Ha as <-. constructor.
  - constructor; [unfold eventsRef; simpl; lia | constructor].
Qed.

Lemma wellFormed_parseLines lines : forall st st',
  wellFormed st -> parseLines lines st = Ok st' -> wellFormed st'.
Proof.
  induction lines as [|line rest IH]; intros st st' Hwf H; simpl in H.
  - simplify_eq. exact Hwf.
  - inv_bind H. eapply IH; [| exact H]. eapply wellFormed_parseLine; eauto.
Qed.

(** In a store that is a forest, the fuel that is left never runs out
    before the walk below an event ends. *)
Lemma readEvent_total h :
  (forall a o, h !! a = Some o -> ownsLater h a o) ->
  forall fuel r,
    isEventAt h r -> (length h - r <= fuel)%nat -> is_Some (readEvent fuel h r).
Proof.
  intros Hown. induction fuel as [|fuel IH]; intros r (o & Ho & Hty) Hfuel.
  - apply lookup_lt_Some in Ho. lia.
  - pose proof (lookup_lt_Some _ _ _ Ho) as Hlt.
    assert (forall a items,
               (r < a)%nat -> h !! a = Some (OArray items) ->
               is_Some (mapM (readEvent fuel h) items)) as Harray.
    { intros a items Hra Ha. apply mapM_is_Some_2.
      pose proof (Hown a _ Ha) as Hitems. simpl in Hitems.
      eapply Forall_impl; [exact Hitems |].
      intros x [Hax Hx]. simpl. apply IH; [exact Hx | lia]. }
    pose proof (Hown r o Ho) as Hr.
    simpl. rewrite Ho. destruct o as [items| | |ty cases| |ty nested|];
      try (eexists; reflexivity).
    + exfalso. apply Hty. reflexivity.
    + simpl in Hr.
      assert (is_Some (mapM (fun c : string * ref =>
                 (match h !! c.2 with
                  | Some (OArray items) => mapM (readEvent fuel h) items
                  | _ => None
                  end) ≫= (fun evs => Some (ECase c.1 evs ∅))) cases)) as [cs Hcs].
      { apply mapM_is_Some_2. eapply Forall_impl; [exact Hr |].
        intros c [Hlc [items Hi]]. simpl. rewrite Hi.
        destruct (Harray _ _ Hlc Hi) as [evs ->]. eexists. reflexivity. }
      rewrite Hcs. eexists. reflexivity.
    + simpl in Hr. destruct Hr as [Hln [items Hi]]. rewrite Hi.
      destruct (Harray _ _ Hln Hi) as [evs ->]. eexists. reflexivity.
Qed.

(** Whenever the parser does not throw, the tree below [events] can be read
    off the store: [parseScriptToArrays] then returns the actors and the
    events. *)
Theorem parser_returns_a_tree script st :
  parseScript script = Ok st ->
  exists events,
    parseScriptToArrays script = Ok (actors st, Some events).
Proof.
  intros H. unfold parseScriptToArrays, returned. rewrite H. simpl.
  pose proof (rooted_parseLines _ _ _ rooted_initial H) as [_ [items Hi]].
  pose proof (wellFormed_parseLines _ _ _ wellFormed_initial H) as [Hown _].
  unfold readArray. rewrite Hi.
  assert (is_Some (mapM (readEvent (length (heap st)) (heap st)) items)) as [evs ->].
  { apply mapM_is_Some_2. pose proof (Hown _ _ Hi) as Hitems. simpl in Hitems.
    eapply Forall_impl; [exact Hitems |].
    intros x [_ Hx]. simpl. apply readEvent_total; [exact Hown | exact Hx | lia]. }
  eexists. reflexivity.
Qed.

(** * Further properties of the parser *)

(** ** Splitting at the first colon outside quotes *)

Lemma append_cons x (a b : string) : String x a ++ b = String x (a ++ b).
Proof. reflexivity. Qed.

Lemma append_nil_r (a : string) : a ++ EmptyString = a.
Proof. induction a as [|x a IH]; [reflexivity | rewrite append_cons, IH; reflexivity]. Qed.


Lemma string_app_assoc (a b c : string) : (a ++ b) ++ c = a ++ (b ++ c).
Proof.
  induction a as [|x a IH]; [reflexivity | rewrite !append_cons, IH; reflexivity].
Qed.



(** ** The shape of the nesting stack *)

Lemma closedBelow_Some ks : closedBelow ks = true -> Forall is_Some ks.
Proof.
  induction ks as [|k ks IH]; intros H; [constructor |].
  simpl in H. destruct k as [[| |]|]; try discriminate.
  - constructor; [eexists; reflexivity | apply IH, H].
  - constructor; [eexists; reflexivity |].
    destruct ks as [|[[| |]|] ks']; try discriminate. apply IH, H.
Qed.

Lemma kinds_preserved h h' s :
  (forall r k, kindAt h r = Some k -> kindAt h' r = Some k) ->
  Forall is_Some (map (kindAt h) s) ->
  map (kindAt h') s = map (kindAt h) s.
Proof.
  intros Hk. induction s as [|r s IH]; intros H; [reflexivity |].
  simpl in *. apply Forall_cons in H. destruct H as [[k Hr] Hs].
  rewrite (IH Hs), Hr. f_equal. apply Hk, Hr.
Qed.

Lemma kindAt_app h objs r k : kindAt h r = Some k -> kindAt (h ++ objs) r = Some k.
Proof.
  unfold kindAt. intros H. destruct (h !! r) as [o|] eqn:Ho; [| discriminate].
  rewrite lookup_app_l by (apply lookup_lt_Some in Ho; exact Ho).
  rewrite Ho. exact H.
Qed.

Lemma kindAt_insert h t o o' r k :
  h !! t = Some o -> kindOf o' = kindOf o ->
  kindAt h r = Some k -> kindAt (<[t := o']> h) r = Some k.
Proof.
  unfold kindAt. intros Ht Hsame H. destruct (decide (t = r)) as [->|Hne].
  - rewrite list_lookup_insert_eq by (apply lookup_lt_Some in Ht; exact Ht).
    rewrite Ht in H. simpl in *. congruence.
  - rewrite list_lookup_insert_ne by exact Hne. exact H.
Qed.

Lemma kindAt_array h r : kindAt h r = Some FArray -> exists items, h !! r = Some (OArray items).
Proof.
  unfold kindAt.
  destruct (h !! r) as [[items| |t c al s|t cs| | |]|]; cbn [mbind option_bind kindOf];
    try discriminate.
  - eauto.
  - destruct (Js.includes annotations (Some t)); discriminate.
  - destruct (Js.includes conditionalGroupings (Some t)); discriminate.
Qed.

Lemma kindAt_note h r :
  kindAt h r = Some FNote ->
  exists t c al s, h !! r = Some (ONote t c al s) /\ Js.includes annotations (Some t) = true.
Proof.
  unfold kindAt.
  destruct (h !! r) as [[items| |t c al s|t cs| | |]|]; cbn [mbind option_bind kindOf];
    try discriminate.
  - destruct (Js.includes annotations (Some t)) eqn:E; [| discriminate]. eauto 6.
  - destruct (Js.includes conditionalGroupings (Some t)); discriminate.
Qed.

Lemma kindAt_grouping h r :
  kindAt h r = Some FGrouping ->
  exists t cs, h !! r = Some (OCases t cs) /\ Js.includes conditionalGroupings (Some t) = true.
Proof.
  unfold kindAt.
  destruct (h !! r) as [[items| |t c al s|t cs| | |]|]; cbn [mbind option_bind kindOf];
    try discriminate.
  - destruct (Js.includes annotations (Some t)); discriminate.
  - destruct (Js.includes conditionalGroupings (Some t)) eqn:E; [| discriminate]. eauto.
Qed.

Lemma grown_kinds h t items elements objs r k :
  h !! t = Some (OArray items) ->
  kindAt h r = Some k -> kindAt (grown h t elements objs) r = Some k.
Proof.
  intros Ht Hk. eapply kindAt_insert with (o := OArray items).
  - rewrite lookup_app_l by (apply lookup_lt_Some in Ht; exact Ht). exact Ht.
  - reflexivity.
  - apply kindAt_app, Hk.
Qed.

Lemma grown_new h t items elements objs i o :
  h !! t = Some (OArray items) ->
  objs !! i = Some o ->
  kindAt (grown h t elements objs) (length h + i) = kindOf o.
Proof.
  intros Ht Ho. unfold kindAt, grown.
  rewrite list_lookup_insert_ne by (apply lookup_lt_Some in Ht; lia).
  rewrite lookup_app_r by lia.
  replace (length h + i - length h)%nat with i by lia.
  rewrite Ho. reflexivity.
Qed.

Lemma grown_first h t items elements o objs :
  h !! t = Some (OArray items) ->
  kindAt (grown h t elements (o :: objs)) (length h) = kindOf o.
Proof.
  intros Ht.
  pose proof (grown_new h t items elements (o :: objs) 0 o Ht eq_refl) as H.
  rewrite Nat.add_0_r in H. exact H.
Qed.

Lemma grown_second h t items elements o0 o objs :
  h !! t = Some (OArray items) ->
  kindAt (grown h t elements (o0 :: o :: objs)) (S (length h)) = kindOf o.
Proof.
  intros Ht.
  pose proof (grown_new h t items elements (o0 :: o :: objs) 1 o Ht eq_refl) as H.
  rewrite Nat.add_1_r in H. exact H.
Qed.

Lemma grown_framesOk acts h t items elements objs s news :
  h !! t = Some (OArray items) ->
  closedBelow (map (kindAt h) s) = true ->
  shapeOk (map (kindAt (grown h t elements objs)) (news ++ [t])%list
           ++ map (kindAt h) s)%list = true ->
  framesOk (State acts (grown h t elements objs) (news ++ t :: s)).
Proof.
  intros Ht Hs H. unfold framesOk. cbn [eventStack heap].
  replace (news ++ t :: s)%list with ((news ++ [t]) ++ s)%list
    by (rewrite <- app_assoc; reflexivity).
  rewrite map_app.
  rewrite (kinds_preserved h _ s); [exact H | | apply closedBelow_Some, Hs].
  intros r k Hk. exact (grown_kinds h t items elements objs r k Ht Hk).
Qed.

Lemma arrayPush_grown st t items objs :
  heap st !! t = Some (OArray items) ->
  arrayPush t (length (heap st)) (State (actors st) (heap st ++ objs)%list (eventStack st))
  = Ok (State (actors st) (grown (heap st) t (items ++ [length (heap st)]) objs)
          (eventStack st)).
Proof.
  intros Hi. unfold arrayPush, grown. cbn [heap withHeap actors eventStack].
  rewrite lookup_app_l by (apply lookup_lt_Some in Hi; exact Hi).
  rewrite Hi. reflexivity.
Qed.

Lemma guardedPop_cons st t r s :
  eventStack st = t :: r :: s -> guardedPop st = withStack st (r :: s).
Proof. intros H. unfold guardedPop, pop. rewrite H. reflexivity. Qed.

Lemma guardedPop_single st t : eventStack st = [t] -> guardedPop st = st.
Proof. intros H. unfold guardedPop. rewrite H. reflexivity. Qed.

Lemma typeAt_array st t items : heap st !! t = Some (OArray items) -> typeAt st t = None.
Proof. intros H. unfold typeAt. rewrite H. reflexivity. Qed.

Lemma closedBelow_cases k ks :
  closedBelow (k :: ks) = true ->
  (k = Some FArray /\ closedBelow ks = true) \/
  (k = Some FGrouping /\ exists ks', ks = Some FArray :: ks' /\ closedBelow ks' = true).
Proof.
  simpl. destruct k as [[| |]|]; try discriminate.
  - auto.
  - destruct ks as [|[[| |]|] ks']; try discriminate. simpl. eauto 6.
Qed.

(** Closing a frame above the sequence [t]: what an [end] line and an
    [else] line find after the guarded pop. *)
Lemma exposed_frame st t s :
  eventStack st = t :: s ->
  kindAt (heap st) t = Some FArray ->
  closedBelow (map (kindAt (heap st)) s) = true ->
  exists t1 s1,
    guardedPop st = withStack st (t1 :: s1) /\
    ((kindAt (heap st) t1 = Some FArray /\
      closedBelow (map (kindAt (heap st)) s1) = true) \/
     (kindAt (heap st) t1 = Some FGrouping /\
      exists t2 s2, s1 = t2 :: s2 /\ kindAt (heap st) t2 = Some FArray /\
                    closedBelow (map (kindAt (heap st)) s2) = true)).
Proof.
  intros Hs Hk Hbelow. destruct s as [|r s'].
  - rewrite (guardedPop_single st t Hs). exists t, [].
    split; [destruct st as [a h e]; simpl in Hs; subst e; reflexivity | auto].
  - rewrite (guardedPop_cons st t r s' Hs). exists r, s'.
    split; [reflexivity |].
    simpl in Hbelow. apply closedBelow_cases in Hbelow.
    destruct Hbelow as [[Hr Hb] | [Hr (ks' & Hks & Hb)]].
    + left. auto.
    + right. split; [exact Hr |]. destruct s' as [|t2 s2]; [discriminate |].
      simpl in Hks. injection Hks as Ht2 Hrest. exists t2, s2. subst ks'. auto.
Qed.

Lemma includes_None l : Js.includes l None = false.
Proof. reflexivity. Qed.

(** A signal line on a sequence: the signal and the lifetime events it
    implies are created and pushed on the sequence, and the two names are made
    actors. *)
Lemma pushSignal_on_sequence p st t items :
  top st = Ok t ->
  heap st !! t = Some (OArray items) ->
  pushSignal p st
  = Ok (ensureActor (spDest p)
          (ensureActor (spSrc p)
             (State (actors st)
                (grown (heap st) t
                   (items ++ seq (length (heap st)) (S (length (implicitLifetime p))))
                   (OSignal (spCaption p) (spSrc p) (spDest p) (spDotted p) (spOpen p)
                    :: implicitLifetime p))
                (eventStack st)))).
Proof.
  intros Ht Hi.
  assert (t < length (heap st))%nat as Hlt by (apply lookup_lt_Some in Hi; exact Hi).
  unfold pushSignal, grown.
  set (sig := OSignal (spCaption p) (spSrc p) (spDest p) (spDotted p) (spOpen p)).
  rewrite Ht. rewrite mbind_Ok; cbv beta.
  change (alloc sig st) with (length (heap st), snd (alloc sig st)).
  cbv iota. rewrite (alloc_arrayPush st t items sig Hi).
  rewrite mbind_Ok; cbv beta. unfold implicitLifetime.
  set (h1 := <[t := OArray (items ++ [length (heap st)])]> (heap st ++ [sig])%list).
  set (s1 := State (actors st) h1 (eventStack st)).
  assert (length h1 = S (length (heap st))) as Hlen1.
  { unfold h1. rewrite length_insert, length_app. simpl. lia. }
  assert (heap s1 !! t = Some (OArray (items ++ [length (heap st)]))) as Hi1.
  { unfold h1. apply list_lookup_insert_eq. rewrite length_app. simpl. lia. }
  assert (top s1 = Ok t) as Ht1 by exact Ht.
  destruct (spIsActivated p), (spIsDeactivated p).
  + rewrite (push_object s1 t _ (OLife "activate" (spDest p)) Ht1 Hi1).
    rewrite mbind_Ok; cbv beta; cbn [actors heap eventStack].
    set (h2 := <[t := OArray ((items ++ [length (heap st)]) ++ [length (heap s1)])]>
                 (heap s1 ++ [OLife "activate" (spDest p)])%list).
    set (s2 := State (actors s1) h2 (eventStack s1)).
    assert (heap s2 !! t
            = Some (OArray ((items ++ [length (heap st)]) ++ [length (heap s1)])))
      as Hi2.
    { unfold h2. apply list_lookup_insert_eq. rewrite length_app. simpl.
      fold h1. lia. }
    assert (top s2 = Ok t) as Ht2 by exact Ht.
    rewrite (push_object s2 t _ (OLife "deactivate" (spDest p)) Ht2 Hi2).
    rewrite mbind_Ok; cbv beta; cbn [actors heap eventStack].
    do 3 f_equal. f_equal.
    clear Hi2 Ht2 Hi1 Ht1 Hlen1. subst s2 h2 s1 h1. normalise_pushes.
  + rewrite (push_object s1 t _ (OLife "activate" (spDest p)) Ht1 Hi1).
    rewrite mbind_Ok; cbv beta; cbn [actors heap eventStack].
    do 3 f_equal. f_equal.
    clear Hi1 Ht1 Hlen1. subst s1 h1. normalise_pushes.
  + rewrite mbind_Ok; cbv beta.
    rewrite (push_object s1 t _ (OLife "deactivate" (spDest p)) Ht1 Hi1).
    rewrite mbind_Ok; cbv beta; cbn [actors heap eventStack].
    do 3 f_equal. f_equal.
    clear Hi1 Ht1 Hlen1. subst s1 h1. normalise_pushes.
  + rewrite mbind_Ok; cbv beta. reflexivity.
Qed.

Lemma ensureActor_framesOk name st : framesOk st -> framesOk (ensureActor name st).
Proof. unfold ensureActor. destruct (knownCaption _ _); auto. Qed.

Lemma parseLine_keeps_shape st line :
  framesOk st -> commandOf (Js.trim line) <> "}" ->
  exists st', parseLine st line = Ok st' /\ framesOk st'.
Proof.
  intros Hok Hbrace. unfold framesOk in Hok.
  destruct (eventStack st) as [|t s] eqn:Hs; [discriminate |].
  cbn [map shapeOk] in Hok.
  assert (top st = Ok t) as Htop by (unfold top; rewrite Hs; reflexivity).
  unfold parseLine.
  set (trimmedLine := Js.trim line) in *.
  set (command := commandOf trimmedLine) in *.
  set (text := textOf trimmedLine) in *.
  destruct (kindAt (heap st) t) as [[| |]|] eqn:Hk; try discriminate.
  - (* the top frame is a sequence *)
    destruct (kindAt_array _ _ Hk) as [items Hi].
    pose proof (typeAt_array st t items Hi) as Hty.
    pose proof (fun acts elements objs news =>
                  grown_framesOk acts (heap st) t items elements objs s news Hi Hok)
      as Hgrown.
    assert (framesOk st) as Hsame.
    { unfold framesOk. rewrite Hs. cbn [map shapeOk]. rewrite Hk. exact Hok. }
    destruct (exposed_frame st t s Hs Hk Hok) as (t1 & s1 & Hpop & Hexposed).
    destruct (command =? "end")%string eqn:Hend.
    { (* end *)
      rewrite Hpop. unfold top, typeAt. cbn [eventStack heap withStack].
      cbn [mbind result_bind bind].
      destruct Hexposed as [[Hk1 Hb1] | [Hk1 (t2 & s2 & -> & Hk2 & Hb2)]].
      - destruct (kindAt_array _ _ Hk1) as [items1 Hi1].
        rewrite Hi1. cbn [typeOf]. rewrite includes_None.
        eexists. split; [reflexivity |].
        unfold framesOk. cbn [eventStack heap withStack map shapeOk].
        rewrite Hk1. exact Hb1.
      - destruct (kindAt_grouping _ _ Hk1) as (ty & cs & Hi1 & Hin).
        rewrite Hi1. cbn [typeOf]. rewrite Hin.
        eexists. split; [reflexivity |].
        unfold framesOk, pop. cbn [eventStack heap withStack tail map shapeOk].
        rewrite Hk2. exact Hb2. }
    rewrite Htop. cbn [mbind result_bind bind]. rewrite Hty, includes_None.
    cbv iota.
    destruct (Js.includes annotations (Some command)) eqn:Hann.
    { (* an annotation *)
      set (o := ONote command _ _ _).
      change (alloc o st) with (length (heap st), snd (alloc o st)). cbv iota.
      unfold alloc, withHeap. cbn [snd].
      rewrite (arrayPush_grown st t items [o] Hi), Hs. cbn [mbind result_bind bind].
      destruct (negb _).
      - eexists. split; [reflexivity |].
        apply (Hgrown _ _ [o] [length (heap st)]).
        cbn [app map].
        rewrite (grown_first (heap st) t items _ o [] Hi).
        rewrite (grown_kinds (heap st) t items _ [o] t _ Hi Hk).
        unfold o. cbn [kindOf]. rewrite Hann. cbn [shapeOk closedBelow]. exact Hok.
      - eexists. split; [reflexivity |].
        apply (Hgrown _ _ [o] []). cbn [app map].
        rewrite (grown_kinds (heap st) t items _ [o] t _ Hi Hk). exact Hok. }
    destruct (Js.includes participants (Some command)).
    { eexists. split; [reflexivity |]. exact Hsame. }
    destruct (Js.includes conditionalGroupings (Some command)) eqn:Hgrp.
    { (* a conditional grouping *)
      set (o := OCases command _).
      change (alloc o st) with (length (heap st), snd (alloc o st)). cbv iota.
      set (st1 := snd (alloc o st)).
      change (alloc (OArray []) st1) with (length (heap st1), snd (alloc (OArray []) st1)).
      cbv iota. unfold st1, alloc, withHeap. cbn [snd heap actors eventStack].
      rewrite <- app_assoc. cbn [app].
      rewrite (arrayPush_grown st t items [o; OArray []] Hi), Hs.
      cbn [mbind result_bind bind].
      eexists. split; [reflexivity |].
      rewrite length_app. cbn [length]. rewrite Nat.add_1_r.
      apply (Hgrown _ _ [o; OArray []] [S (length (heap st)); length (heap st)]).
      cbn [app map].
      rewrite (grown_second (heap st) t items _ o (OArray []) [] Hi).
      rewrite (grown_first (heap st) t items _ o [OArray []] Hi).
      rewrite (grown_kinds (heap st) t items _ [o; OArray []] t _ Hi Hk).
      unfold o. cbn [kindOf]. rewrite Hgrp. cbn [shapeOk closedBelow]. exact Hok. }
    destruct (command =? "else")%string eqn:Helse.
    { (* else *)
      rewrite Hpop. unfold top, typeAt. cbn [eventStack heap withStack].
      cbn [mbind result_bind bind].
      destruct Hexposed as [[Hk1 Hb1] | [Hk1 (t2 & s2 & -> & Hk2 & Hb2)]].
      - destruct (kindAt_array _ _ Hk1) as [items1 Hi1].
        rewrite Hi1. cbn [typeOf]. rewrite includes_None.
        eexists. split; [reflexivity |].
        unfold framesOk. cbn [eventStack heap withStack map shapeOk].
        rewrite Hk1. exact Hb1.
      - destruct (kindAt_grouping _ _ Hk1) as (ty & cs & Hi1 & Hin).
        rewrite Hi1. cbn [typeOf]. rewrite Hin.
        unfold alloc, casesPush, withHeap, pushFrame, withStack.
        cbn [heap actors eventStack].
        rewrite lookup_app_l by (apply lookup_lt_Some in Hi1; exact Hi1).
        rewrite Hi1. cbn [mbind result_bind bind heap actors eventStack].
        eexists. split; [reflexivity |].
        unfold framesOk. cbn [eventStack heap map].
        assert (forall r k, kindAt (heap st) r = Some k ->
                   kindAt (<[t1 := OCases ty (cs ++ [(text, length (heap st))])]>
                             (heap st ++ [OArray []])%list) r = Some k) as Hkeep.
        { intros r k Hr. eapply kindAt_insert.
          - rewrite lookup_app_l by (apply lookup_lt_Some in Hi1; exact Hi1). exact Hi1.
          - reflexivity.
          - apply kindAt_app, Hr. }
        rewrite (Hkeep _ _ Hk1), (Hkeep _ _ Hk2).
        rewrite (kinds_preserved (heap st) _ s2 Hkeep (closedBelow_Some _ Hb2)).
        replace (kindAt _ (length (heap st))) with (Some FArray).
        + cbn [shapeOk closedBelow]. exact Hb2.
        + unfold kindAt.
          rewrite list_lookup_insert_ne by (apply lookup_lt_Some in Hi1; lia).
          rewrite lookup_app_r by lia. rewrite Nat.sub_diag. reflexivity. }
    destruct (Js.includes lifetime (Some command)).
    { (* a lifetime event *)
      set (o := OCases command _).
      change (alloc o st) with (length (heap st), snd (alloc o st)). cbv iota.
      set (st1 := snd (alloc o st)).
      change (alloc (OArray []) st1) with (length (heap st1), snd (alloc (OArray []) st1)).
      cbv iota. unfold st1, alloc, withHeap. cbn [snd heap actors eventStack].
      rewrite <- app_assoc. cbn [app].
      rewrite (arrayPush_grown st t items [o; OArray []] Hi), Hs.
      eexists. split; [reflexivity |].
      apply (Hgrown _ _ [o; OArray []] []). cbn [app map].
      rewrite (grown_kinds (heap st) t items _ [o; OArray []] t _ Hi Hk). exact Hok. }
    destruct (Js.includes synchrony (Some command)).
    { (* a parallel or serial block *)
      set (o := OSync command _).
      change (alloc o st) with (length (heap st), snd (alloc o st)). cbv iota.
      set (st1 := snd (alloc o st)).
      change (alloc (OArray []) st1) with (length (heap st1), snd (alloc (OArray []) st1)).
      cbv iota. unfold st1, alloc, withHeap. cbn [snd heap actors eventStack].
      rewrite <- app_assoc. cbn [app].
      rewrite (arrayPush_grown st t items [o; OArray []] Hi), Hs.
      cbn [mbind result_bind bind].
      eexists. split; [reflexivity |].
      rewrite length_app. cbn [length]. rewrite Nat.add_1_r.
      apply (Hgrown _ _ [o; OArray []] [S (length (heap st))]).
      cbn [app map].
      rewrite (grown_second (heap st) t items _ o (OArray []) [] Hi).
      rewrite (grown_kinds (heap st) t items _ [o; OArray []] t _ Hi Hk).
      cbn [kindOf shapeOk closedBelow]. exact Hok. }
    destruct (command =? "}")%string eqn:Hb.
    { apply String.eqb_eq in Hb. contradiction. }
    destruct (command =? "autonumber")%string.
    { set (o := ONumber command text).
      change (alloc o st) with (length (heap st), snd (alloc o st)). cbv iota.
      unfold alloc, withHeap. cbn [snd].
      rewrite (arrayPush_grown st t items [o] Hi), Hs.
      eexists. split; [reflexivity |].
      apply (Hgrown _ _ [o] []). cbn [app map].
      rewrite (grown_kinds (heap st) t items _ [o] t _ Hi Hk). exact Hok. }
    destruct (Js.startsWith "#" command).
    { eexists. split; [reflexivity |]. exact Hsame. }
    destruct (parseSignal trimmedLine) as [p|].
    + rewrite (pushSignal_on_sequence p st t items Htop Hi), Hs.
      eexists. split; [reflexivity |].
      apply ensureActor_framesOk, ensureActor_framesOk.
      apply (Hgrown _ _ _ []). cbn [app map].
      rewrite (grown_kinds (heap st) t items _ _ t _ Hi Hk). exact Hok.
    + eexists. split; [reflexivity |]. exact Hsame.
  - (* the top frame is an annotation that collects text *)
    destruct (kindAt_note _ _ Hk) as (ty & c & al & sr & Hi & Hin).
    destruct s as [|r s']; [discriminate |].
    cbn [map] in Hok.
    destruct (kindAt (heap st) r) as [[| |]|] eqn:Hr; try discriminate.
    cbn [closedBelow] in Hok.
    destruct (command =? "end")%string eqn:Hend.
    { rewrite (guardedPop_cons st t r s' Hs).
      unfold top, typeAt. cbn [eventStack heap withStack mbind result_bind bind].
      destruct (kindAt_array _ _ Hr) as [items Hir]. rewrite Hir.
      cbn [typeOf]. rewrite includes_None.
      eexists. split; [reflexivity |].
      unfold framesOk. cbn [eventStack heap withStack map shapeOk]. rewrite Hr.
      exact Hok. }
    rewrite Htop. cbn [mbind result_bind bind].
    unfold typeAt. rewrite Hi. cbn [typeOf]. rewrite Hin.
    unfold appendCaption. rewrite Hi.
    eexists. split; [reflexivity |].
    unfold framesOk. cbn [eventStack heap withHeap]. rewrite Hs.
    assert (forall x k, kindAt (heap st) x = Some k ->
               kindAt (<[t := ONote ty (c ++ (trimmedLine ++ newline)) al sr]> (heap st)) x
               = Some k) as Hkeep.
    { intros x k Hx. eapply kindAt_insert; [exact Hi | reflexivity | exact Hx]. }
    cbn [map]. rewrite (Hkeep _ _ Hk), (Hkeep _ _ Hr).
    rewrite (kinds_preserved (heap st) _ s' Hkeep (closedBelow_Some _ Hok)).
    cbn [shapeOk closedBelow]. exact Hok.
Qed.

Lemma framesOk_initial : framesOk initial.
Proof. reflexivity. Qed.

Lemma parseLines_keep_shape lines : forall st,
  framesOk st ->
  forallb (fun line => negb (commandOf (Js.trim line) =? "}")%string) lines = true ->
  exists st', parseLines lines st = Ok st' /\ framesOk st'.
Proof.
  induction lines as [|line rest IH]; intros st Hok Hno.
  - exists st. split; [reflexivity | exact Hok].
  - simpl in Hno. apply andb_prop in Hno. destruct Hno as [Hline Hrest].
    apply negb_true_iff, String.eqb_neq in Hline.
    destruct (parseLine_keeps_shape st line Hok Hline) as (st1 & H1 & Hok1).
    destruct (IH st1 Hok1 Hrest) as (st2 & H2 & Hok2).
    exists st2. split; [| exact Hok2]. simpl. rewrite H1. exact H2.
Qed.

(** X2: a script none of whose lines has the command [}] is parsed without
    an exception: [parseScriptToArrays] returns its actors and its events.
    (After every line the top of the nesting stack is a sequence of events or
    an annotation that collects text, which is what the line needs; only a
    closing brace can leave a conditional grouping on top.) *)
Theorem script_without_closing_brace_is_parsed script :
  forallb (fun line => negb (commandOf (Js.trim line) =? "}")%string)
    (Js.split newline script) = true ->
  exists actors events, parseScriptToArrays script = Ok (actors, Some events).
Proof.
  intros Hno.
  destruct (parseLines_keep_shape _ initial framesOk_initial Hno) as (st & Hst & _).
  destruct (parser_returns_a_tree script st Hst) as [events Hevents].
  eauto.
Qed.

Lemma script_without_closing_brace_is_parsed_witness :
  exists actors events,
    parseScriptToArrays
      ("alt x" ++ newline ++ "note over A" ++ newline ++ "else" ++ newline ++ "end"
       ++ newline ++ "end" ++ newline ++ "A->B: hi")
    = Ok (actors, Some events).
Proof.
  apply script_without_closing_brace_is_parsed. vm_compute. reflexivity.
Defined.

(** ** Blocks of text and groupings *)

Lemma collecting_lookup h t items ty caption align src :
  (t < length h)%nat ->
  collecting h t items ty caption align src !! length h
  = Some (ONote ty caption align src).
Proof.
  intros Hlt. unfold collecting.
  rewrite list_lookup_insert_ne by lia.
  rewrite lookup_app_r by lia. rewrite Nat.sub_diag. reflexivity.
Qed.

Lemma collecting_insert h t items ty caption caption' align src :
  (t < length h)%nat ->
  <[length h := ONote ty caption' align src]> (collecting h t items ty caption align src)
  = collecting h t items ty caption' align src.
Proof.
  intros Hlt. unfold collecting.
  rewrite list_insert_insert_ne by lia. f_equal.
  rewrite insert_app_r_alt by lia. rewrite Nat.sub_diag. reflexivity.
Qed.

Lemma collecting_line acts h t items ty caption align src stack line :
  (t < length h)%nat ->
  Js.includes annotations (Some ty) = true ->
  commandOf (Js.trim line) <> "end" ->
  parseLine (State acts (collecting h t items ty caption align src) (length h :: stack)) line
  = Ok (State acts
          (collecting h t items ty (caption ++ (Js.trim line ++ newline)) align src)
          (length h :: stack)).
Proof.
  intros Hlt Hty Hne. unfold parseLine.
  apply String.eqb_neq in Hne. rewrite Hne.
  unfold top, typeAt. cbn [eventStack heap mbind result_bind bind].
  rewrite collecting_lookup by exact Hlt. cbn [typeOf]. rewrite Hty.
  unfold appendCaption. cbn [heap]. rewrite collecting_lookup by exact Hlt.
  unfold withHeap. cbn [actors heap eventStack].
  rewrite collecting_insert by exact Hlt. reflexivity.
Qed.

Lemma collecting_lines acts h t items ty align src stack body : forall caption,
  (t < length h)%nat ->
  Js.includes annotations (Some ty) = true ->
  forallb (fun line => negb (commandOf (Js.trim line) =? "end")%string) body = true ->
  parseLines body
    (State acts (collecting h t items ty caption align src) (length h :: stack))
  = Ok (State acts
          (collecting h t items ty (caption ++ collectedText body) align src)
          (length h :: stack)).
Proof.
  induction body as [|line rest IH]; intros caption Hlt Hty Hbody.
  - simpl. rewrite append_nil_r. reflexivity.
  - simpl in Hbody. apply andb_prop in Hbody. destruct Hbody as [Hline Hrest].
    apply negb_true_iff, String.eqb_neq in Hline.
    cbn [parseLines].
    rewrite (collecting_line acts h t items ty caption align src stack line Hlt Hty Hline).
    cbn [mbind result_bind bind]. rewrite (IH _ Hlt Hty Hrest).
    cbn [collectedText foldr]. rewrite !string_app_assoc. reflexivity.
Qed.

(** X3: an annotation line without a caption opens a block, and the block
    collects every line up to the next [end] line as text, whatever the line
    is (a keyword line, a signal, a closing brace, a comment): the lines of
    the block change nothing but the caption of the annotation, which ends up
    as the lines, each trimmed and followed by a newline; the [end] line
    leaves the nesting stack as it was before the block. *)
Theorem block_annotation_collects_its_lines st t items opening body closing :
  top st = Ok t ->
  heap st !! t = Some (OArray items) ->
  Js.includes annotations (Some (commandOf (Js.trim opening))) = true ->
  Js.truthy (Js.split ":" (textOf (Js.trim opening)) !! 1%nat) = false ->
  forallb (fun line => negb (commandOf (Js.trim line) =? "end")%string) body = true ->
  commandOf (Js.trim closing) = "end" ->
  parseLines (opening :: body ++ [closing]) st
  = Ok (State (actors st)
          (<[t := OArray (items ++ [length (heap st)])]>
             (heap st
              ++ [ONote (commandOf (Js.trim opening)) (collectedText body)
                    (Js.split " " (default EmptyString
                                     (Js.split ":" (textOf (Js.trim opening)) !! 0%nat))
                     !! 0%nat)
                    (Js.split " " (default EmptyString
                                     (Js.split ":" (textOf (Js.trim opening)) !! 0%nat))
                     !! 2%nat)])%list)
          (eventStack st)).
Proof.
  intros Htop Hi Hann Hcap Hbody Hend.
  assert (t < length (heap st))%nat as Hlt by (apply lookup_lt_Some in Hi; exact Hi).
  assert (exists s, eventStack st = t :: s) as [s Hs].
  { unfold top in Htop. destruct (eventStack st) as [|x s]; [discriminate |].
    injection Htop as ->. eauto. }
  cbn [parseLines].
  assert (parseLine st opening
          = Ok (State (actors st)
                  (collecting (heap st) t items (commandOf (Js.trim opening)) EmptyString
                     (Js.split " " (default EmptyString
                                      (Js.split ":" (textOf (Js.trim opening)) !! 0%nat))
                      !! 0%nat)
                     (Js.split " " (default EmptyString
                                      (Js.split ":" (textOf (Js.trim opening)) !! 0%nat))
                      !! 2%nat))
                  (length (heap st) :: eventStack st))) as Hopen.
  { unfold parseLine.
    set (command := commandOf (Js.trim opening)) in *.
    assert ((command =? "end")%string = false) as Hne.
    { apply String.eqb_neq. intros E. rewrite E in Hann. discriminate. }
    rewrite Hne, Htop. cbn [mbind result_bind bind].
    rewrite (typeAt_array st t items Hi), includes_None. cbv iota.
    rewrite Hann, Hcap. cbn [negb].
    change (Js.trim EmptyString) with EmptyString.
    set (o := ONote command EmptyString _ _).
    change (alloc o st) with (length (heap st), snd (alloc o st)). cbv iota.
    rewrite (alloc_arrayPush st t items o Hi). reflexivity. }
  rewrite Hopen. cbn [mbind result_bind bind].
  rewrite parseLines_app.
  rewrite (collecting_lines _ _ _ _ _ _ _ _ body EmptyString Hlt Hann Hbody).
  cbn [mbind result_bind bind parseLines].
  change (EmptyString ++ collectedText body) with (collectedText body).
  unfold parseLine. rewrite Hend. cbn [String.eqb Ascii.eqb Bool.eqb].
  rewrite Hs. unfold guardedPop, pop, top, typeAt.
  cbn [eventStack heap withStack length Nat.ltb Nat.leb tail mbind result_bind bind].
  unfold collecting at 1. rewrite list_lookup_insert_eq by (rewrite length_app; lia).
  cbn [typeOf]. rewrite includes_None. reflexivity.
Qed.

Lemma block_annotation_collects_its_lines_witness :
  parseLines ("state over A" :: ["  alt x "; "A->B: hi"; "}"] ++ ["end"]) initial
  = Ok (State [] [OArray [1%nat];
                  ONote "state"
                    ("alt x" ++ newline ++ "A->B: hi" ++ newline ++ "}" ++ newline)
                    (Some "over") None]
          [0%nat]).
Proof.
  exact (block_annotation_collects_its_lines initial 0%nat [] "state over A"
           ["  alt x "; "A->B: hi"; "}"] "end" eq_refl eq_refl eq_refl eq_refl eq_refl
           eq_refl).
Defined.

Lemma groupingOpen_length h t items ty cases m :
  length (groupingOpen h t items ty cases m) = (length h + S m)%nat.
Proof.
  unfold groupingOpen. rewrite length_insert, length_app. cbn [length].
  rewrite length_replicate. reflexivity.
Qed.

Lemma groupingOpen_grouping h t items ty cases m :
  (t < length h)%nat ->
  groupingOpen h t items ty cases m !! length h = Some (OCases ty cases).
Proof.
  intros Hlt. unfold groupingOpen.
  rewrite list_lookup_insert_ne by lia.
  rewrite lookup_app_r by lia. rewrite Nat.sub_diag. reflexivity.
Qed.

Lemma groupingOpen_sequence h t items ty cases m k :
  (t < length h)%nat -> (k < m)%nat ->
  groupingOpen h t items ty cases m !! (length h + S k)%nat = Some (OArray []).
Proof.
  intros Hlt Hk. unfold groupingOpen.
  rewrite list_lookup_insert_ne by lia.
  rewrite lookup_app_r by lia.
  replace (length h + S k - length h)%nat with (S k) by lia.
  cbn [lookup list_lookup]. apply lookup_replicate_2. exact Hk.
Qed.

Lemma groupingOpen_else h t items ty cases m c :
  (t < length h)%nat ->
  <[length h := OCases ty (cases ++ [c])]>
    (groupingOpen h t items ty cases m ++ [OArray []])%list
  = groupingOpen h t items ty (cases ++ [c]) (S m).
Proof.
  intros Hlt. unfold groupingOpen.
  rewrite <- insert_app_l by (rewrite length_app; lia).
  rewrite list_insert_insert_ne by lia. f_equal.
  rewrite <- app_assoc.
  rewrite insert_app_r_alt by lia. rewrite Nat.sub_diag.
  cbn [app insert list_insert]. do 2 f_equal.
  rewrite replicate_S_end. reflexivity.
Qed.

Lemma groupingOpen_else_line acts h t items ty cases m stack line :
  (t < length h)%nat ->
  Js.includes conditionalGroupings (Some ty) = true ->
  commandOf (Js.trim line) = "else" ->
  parseLine
    (State acts (groupingOpen h t items ty cases (S m))
       ((length h + S m)%nat :: length h :: stack)) line
  = Ok (State acts
          (groupingOpen h t items ty
             (cases ++ [(textOf (Js.trim line), (length h + S (S m))%nat)]) (S (S m)))
          ((length h + S (S m))%nat :: length h :: stack)).
Proof.
  intros Hlt Hty Hc.
  set (st0 := State acts (groupingOpen h t items ty cases (S m))
                ((length h + S m)%nat :: length h :: stack)).
  rewrite (else_parseLine st0 line (length h + S m)%nat Hc eq_refl).
  2:{ unfold typeAt, st0. cbn [heap].
      rewrite groupingOpen_sequence by lia. reflexivity. }
  unfold st0.
  unfold guardedPop, pop, top, typeAt.
  cbn [eventStack heap withStack length Nat.ltb Nat.leb tail mbind result_bind bind].
  rewrite groupingOpen_grouping by exact Hlt. cbn [typeOf]. rewrite Hty.
  unfold alloc, casesPush, pushFrame, withHeap, withStack.
  cbn [heap actors eventStack].
  rewrite lookup_app_l by (rewrite groupingOpen_length; lia).
  rewrite groupingOpen_grouping by exact Hlt.
  cbn [mbind result_bind bind heap actors eventStack].
  rewrite groupingOpen_length.
  rewrite groupingOpen_else by exact Hlt. reflexivity.
Qed.

Lemma groupingOpen_else_lines acts h t items ty stack elses : forall cases m,
  (t < length h)%nat ->
  Js.includes conditionalGroupings (Some ty) = true ->
  forallb (fun line => (commandOf (Js.trim line) =? "else")%string) elses = true ->
  parseLines elses
    (State acts (groupingOpen h t items ty cases (S m))
       ((length h + S m)%nat :: length h :: stack))
  = Ok (State acts
          (groupingOpen h t items ty
             (cases ++ zip (map (fun line => textOf (Js.trim line)) elses)
                           (seq (length h + S (S m)) (length elses)))
             (S m + length elses))
          ((length h + S m + length elses)%nat :: length h :: stack)).
Proof.
  induction elses as [|line rest IH]; intros cases m Hlt Hty Helses.
  - cbn [parseLines map zip zip_with length seq].
    rewrite app_nil_r, !Nat.add_0_r. reflexivity.
  - simpl in Helses. apply andb_prop in Helses. destruct Helses as [Hline Hrest].
    apply String.eqb_eq in Hline.
    cbn [parseLines].
    rewrite (groupingOpen_else_line acts h t items ty cases m stack line Hlt Hty Hline).
    cbn [mbind result_bind bind]. rewrite (IH _ (S m) Hlt Hty Hrest).
    cbn [map length seq zip zip_with]. rewrite <- app_assoc. cbn [app].
    replace (length h + S (S (S m)))%nat with (S (length h + S (S m)))%nat by lia.
    replace (S (S m) + length rest)%nat with (S m + S (length rest))%nat by lia.
    replace (length h + S (S m) + length rest)%nat
      with (length h + S m + S (length rest))%nat by lia.
    reflexivity.
Qed.

(** X4: a conditional grouping line, any number of [else] lines and an
    [end] line, one after the other, append one grouping to the sequence that
    is open: it has one case for the opening line and one for every [else]
    line, in this order, each with the text of its line as its caption and an
    empty sequence of its own; the actors are unchanged, and after the [end]
    line the nesting stack is what it was before the grouping. *)
Theorem grouping_collects_its_cases st t items opening elses closing :
  top st = Ok t ->
  heap st !! t = Some (OArray items) ->
  Js.includes conditionalGroupings (Some (commandOf (Js.trim opening))) = true ->
  forallb (fun line => (commandOf (Js.trim line) =? "else")%string) elses = true ->
  commandOf (Js.trim closing) = "end" ->
  parseLines (opening :: elses ++ [closing]) st
  = Ok (State (actors st)
          (<[t := OArray (items ++ [length (heap st)])]>
             (heap st
              ++ OCases (commandOf (Js.trim opening))
                   (zip (map (fun line => textOf (Js.trim line)) (opening :: elses))
                        (seq (S (length (heap st))) (S (length elses))))
                 :: replicate (S (length elses)) (OArray []))%list)
          (eventStack st)).
Proof.
  intros Htop Hi Hgrp Helses Hend.
  assert (t < length (heap st))%nat as Hlt by (apply lookup_lt_Some in Hi; exact Hi).
  assert (exists s, eventStack st = t :: s) as [s Hs].
  { unfold top in Htop. destruct (eventStack st) as [|x s]; [discriminate |].
    injection Htop as ->. eauto. }
  set (ty := commandOf (Js.trim opening)) in *.
  cbn [parseLines].
  assert (parseLine st opening
          = Ok (State (actors st)
                  (groupingOpen (heap st) t items ty
                     [(textOf (Js.trim opening), S (length (heap st)))] 1)
                  ((length (heap st) + 1)%nat :: length (heap st) :: eventStack st)))
    as Hopen.
  { unfold parseLine. fold ty.
    assert ((ty =? "end")%string = false
            /\ Js.includes annotations (Some ty) = false
            /\ Js.includes participants (Some ty) = false) as (E1 & E2 & E3).
    { unfold Js.includes, conditionalGroupings in Hgrp. simpl in Hgrp.
      rewrite !orb_true_iff, !String.eqb_eq in Hgrp.
      destruct Hgrp as [E | [E | [E | [E | [E | E]]]]];
        try discriminate E; rewrite E; repeat split; reflexivity. }
    rewrite E1, Htop. cbn [mbind result_bind bind].
    rewrite (typeAt_array st t items Hi), includes_None. cbv iota.
    rewrite E2, E3, Hgrp.
    set (o := OCases ty _).
    change (alloc o st) with (length (heap st), snd (alloc o st)). cbv iota.
    set (st1 := snd (alloc o st)).
    change (alloc (OArray []) st1) with (length (heap st1), snd (alloc (OArray []) st1)).
    cbv iota. unfold st1, alloc, withHeap. cbn [snd heap actors eventStack].
    rewrite <- app_assoc. cbn [app].
    rewrite (arrayPush_grown st t items [o; OArray []] Hi).
    cbn [mbind result_bind bind]. unfold pushFrame, withStack.
    cbn [actors heap eventStack]. rewrite length_app. reflexivity. }
  rewrite Hopen. cbn [mbind result_bind bind].
  rewrite parseLines_app.
  rewrite (groupingOpen_else_lines _ _ _ _ _ _ elses _ 0%nat Hlt Hgrp Helses).
  cbn [mbind result_bind bind parseLines].
  unfold parseLine. rewrite Hend. cbn [String.eqb Ascii.eqb Bool.eqb].
  unfold guardedPop, pop, top, typeAt.
  cbn [eventStack heap withStack length Nat.ltb Nat.leb tail mbind result_bind bind].
  rewrite groupingOpen_grouping by exact Hlt. cbn [typeOf]. rewrite Hgrp.
  cbn [eventStack heap withStack tail]. rewrite Hs. unfold groupingOpen.
  cbn [map zip zip_with seq app length]. 
  replace (length (heap st) + 2)%nat with (S (S (length (heap st)))) by lia.
  reflexivity.
Qed.

Lemma grouping_collects_its_cases_witness :
  parseLines ("opt a" :: ["else b"; "else"] ++ ["end"]) initial
  = Ok (State []
          [OArray [1%nat];
           OCases "opt" [("a", 2%nat); ("b", 3%nat); ("else", 4%nat)];
           OArray []; OArray []; OArray []]
          [0%nat]).
Proof.
  exact (grouping_collects_its_cases initial 0%nat [] "opt a" ["else b"; "else"] "end"
           eq_refl eq_refl eq_refl eq_refl eq_refl).
Defined.

(** ** The actors *)

Lemma ensureActor_prefix name st : actors st `prefix_of` actors (ensureActor name st).
Proof.
  unfold ensureActor. destruct (knownCaption _ _); [reflexivity |].
  apply prefix_app_r. reflexivity.
Qed.

Lemma appendCaption_actors t s st st' :
  appendCaption t s st = Ok st' -> actors st' = actors st.
Proof.
  unfold appendCaption. destruct (heap st !! t) as [[]|]; intros H; simplify_eq.
  reflexivity.
Qed.

Lemma casesPush_actors t c st st' :
  casesPush t c st = Ok st' -> actors st' = actors st.
Proof.
  unfold casesPush. destruct (heap st !! t) as [[]|]; intros H; simplify_eq.
  reflexivity.
Qed.

Lemma guardedPop_actors st : actors (guardedPop st) = actors st.
Proof. unfold guardedPop. destruct (1 <? _)%nat; reflexivity. Qed.

Lemma parseLine_actors st line st' :
  parseLine st line = Ok st' -> actors st `prefix_of` actors st'.
Proof.
  intros H. unfold parseLine in H.
  set (trimmedLine := Js.trim line) in *.
  set (command := commandOf trimmedLine) in *.
  set (text := textOf trimmedLine) in *.
  destruct (command =? "end")%string.
  { inv_bind H. rewrite <- (guardedPop_actors st).
    destruct (Js.includes conditionalGroupings _); simplify_eq; reflexivity. }
  inv_bind H.
  destruct (Js.includes annotations (typeAt st a)).
  { apply appendCaption_actors in H. rewrite H. reflexivity. }
  destruct (Js.includes annotations (Some command)).
  { simpl in H. inv_bind H. apply arrayPush_actors in Ha0. simpl in Ha0.
    destruct (negb _); simplify_eq; simpl; rewrite Ha0; reflexivity. }
  destruct (Js.includes participants (Some command)).
  { simplify_eq. simpl. apply prefix_app_r. reflexivity. }
  destruct (Js.includes conditionalGroupings (Some command)).
  { simpl in H. inv_bind H. apply arrayPush_actors in Ha0. simpl in Ha0.
    simplify_eq. simpl. rewrite Ha0. reflexivity. }
  destruct (command =? "else")%string.
  { inv_bind H. rewrite <- (guardedPop_actors st).
    destruct (Js.includes conditionalGroupings _); simplify_eq; [| reflexivity].
    simpl in H. inv_bind H. apply casesPush_actors in Ha1. simpl in Ha1.
    simplify_eq. simpl. rewrite Ha1. reflexivity. }
  destruct (Js.includes lifetime (Some command)).
  { simpl in H. apply arrayPush_actors in H. simpl in H. rewrite H. reflexivity. }
  destruct (Js.includes synchrony (Some command)).
  { simpl in H. inv_bind H. apply arrayPush_actors in Ha0. simpl in Ha0.
    simplify_eq. simpl. rewrite Ha0. reflexivity. }
  destruct (command =? "}")%string.
  { simplify_eq. rewrite guardedPop_actors. reflexivity. }
  destruct (command =? "autonumber")%string.
  { simpl in H. apply arrayPush_actors in H. simpl in H. rewrite H. reflexivity. }
  destruct (Js.startsWith "#" command).
  { simplify_eq. reflexivity. }
  destruct (parseSignal trimmedLine) as [p|]; [| simplify_eq; reflexivity].
  apply pushSignal_actors in H. rewrite H.
  etransitivity; [apply (ensureActor_prefix (spSrc p)) |].
  apply (ensureActor_prefix (spDest p)).
Qed.

(** X5: the parser only ever appends to [actors]: no line removes, replaces
    or reorders an actor, so the actors of the lines read so far are the first
    actors of every longer script, at the same indices. *)
Theorem actors_are_only_appended pre post st st1 st2 :
  parseLines pre st = Ok st1 ->
  parseLines (pre ++ post) st = Ok st2 ->
  actors st `prefix_of` actors st1 /\ actors st1 `prefix_of` actors st2.
Proof.
  assert (forall lines s s', parseLines lines s = Ok s' -> actors s `prefix_of` actors s')
    as Hlines.
  { induction lines as [|line rest IH]; intros s s' H; simpl in H.
    - simplify_eq. reflexivity.
    - inv_bind H. etransitivity; [eapply parseLine_actors; exact Ha | eapply IH; exact H]. }
  intros H1 H2. split; [exact (Hlines _ _ _ H1) |].
  rewrite parseLines_app, H1 in H2. simpl in H2. exact (Hlines _ _ _ H2).
Qed.

Lemma actors_are_only_appended_witness :
  exists st1 st2,
    parseLines ["participant B"; "A->B: x"] initial = Ok st1 /\
    parseLines (["participant B"; "A->B: x"] ++ ["actor A"; "C->A: y"]) initial = Ok st2 /\
    actors initial `prefix_of` actors st1 /\ actors st1 `prefix_of` actors st2.
Proof.
  eexists. eexists.
  split; [vm_compute; reflexivity |]. split; [vm_compute; reflexivity |].
  apply (actors_are_only_appended ["participant B"; "A->B: x"] ["actor A"; "C->A: y"] initial);
    vm_compute; reflexivity.
Defined.

(** ** The names on the signals *)

Lemma knownCaption_prefix name l l' :
  l `prefix_of` l' -> knownCaption name l = true -> knownCaption name l' = true.
Proof.
  intros [k ->] H. unfold knownCaption in *. rewrite existsb_app, H. reflexivity.
Qed.

Lemma lookup_insert_signal (h : list obj) t o r sig :
  isSignal o = false -> isSignal sig = true ->
  <[t := o]> h !! r = Some sig -> h !! r = Some sig.
Proof.
  intros Ho Hsig H. destruct (decide (t = r)) as [->|Hne].
  - destruct (decide (r < length h)%nat) as [Hlt|Hge].
    + rewrite list_lookup_insert_eq in H by exact Hlt. simplify_eq. congruence.
    + rewrite list_insert_ge in H by lia. exact H.
  - rewrite list_lookup_insert_ne in H by exact Hne. exact H.
Qed.

Lemma arrayPush_signal t x st st' r sig :
  arrayPush t x st = Ok st' -> isSignal sig = true ->
  heap st' !! r = Some sig -> heap st !! r = Some sig.
Proof.
  unfold arrayPush. destruct (heap st !! t) as [[items| | | | | |]|]; intros H; simplify_eq.
  simpl. apply lookup_insert_signal. reflexivity.
Qed.

Lemma appendCaption_signal t s st st' r sig :
  appendCaption t s st = Ok st' -> isSignal sig = true ->
  heap st' !! r = Some sig -> heap st !! r = Some sig.
Proof.
  unfold appendCaption. destruct (heap st !! t) as [[| |ty c al sr| | | |]|];
    intros H; simplify_eq.
  simpl. apply lookup_insert_signal. reflexivity.
Qed.

Lemma casesPush_signal t c st st' r sig :
  casesPush t c st = Ok st' -> isSignal sig = true ->
  heap st' !! r = Some sig -> heap st !! r = Some sig.
Proof.
  unfold casesPush. destruct (heap st !! t) as [[| | |ty cs| | |]|];
    intros H; simplify_eq.
  simpl. apply lookup_insert_signal. reflexivity.
Qed.

Lemma alloc_signal o st r sig :
  isSignal sig = true ->
  heap (snd (alloc o st)) !! r = Some sig ->
  heap st !! r = Some sig \/ o = sig.
Proof.
  intros Hsig H. simpl in H. apply lookup_app_Some in H.
  destruct H as [H | [_ H]]; [left; exact H |].
  right. destruct (r - length (heap st))%nat; simpl in H; [congruence | discriminate].
Qed.

Lemma alloc_other o st r sig :
  heap (snd (alloc o st)) !! r = Some sig ->
  isSignal sig = true -> isSignal o = false ->
  heap st !! r = Some sig.
Proof.
  intros H Hsig Ho. destruct (alloc_signal o st r sig Hsig H) as [H' | ->];
    [exact H' | congruence].
Qed.

Ltac before_alloc H := eapply alloc_other in H; [| eassumption | reflexivity].

Lemma guardedPop_heap st : heap (guardedPop st) = heap st.
Proof. unfold guardedPop. destruct (1 <? _)%nat; reflexivity. Qed.

Lemma pushSignal_signal p st st' r sig :
  pushSignal p st = Ok st' -> isSignal sig = true ->
  heap st' !! r = Some sig ->
  heap st !! r = Some sig
  \/ sig = OSignal (spCaption p) (spSrc p) (spDest p) (spDotted p) (spOpen p).
Proof.
  intros H Hsig Hr. unfold pushSignal in H.
  inv_bind H. simpl in H. inv_bind H. inv_bind H. inv_bind H. simplify_eq.
  rewrite !ensureActor_heap in Hr.
  assert (heap a1 !! r = Some sig) as H1.
  { destruct (spIsDeactivated p); [| simplify_eq; exact Hr].
    inv_bind Ha2. simpl in Ha2.
    apply (arrayPush_signal _ _ _ _ r sig Ha2 Hsig) in Hr.
    before_alloc Hr. exact Hr. }
  assert (heap a0 !! r = Some sig) as H0.
  { destruct (spIsActivated p); [| simplify_eq; exact H1].
    inv_bind Ha1. simpl in Ha1.
    apply (arrayPush_signal _ _ _ _ r sig Ha1 Hsig) in H1.
    before_alloc H1. exact H1. }
  apply (arrayPush_signal _ _ _ _ r sig Ha0 Hsig) in H0.
  destruct (alloc_signal _ st r sig Hsig H0) as [H | H]; [left; exact H | right; auto].
Qed.

Lemma pushSignal_known p st st' :
  pushSignal p st = Ok st' ->
  knownCaption (spSrc p) (actors st') = true /\
  knownCaption (spDest p) (actors st') = true.
Proof.
  intros H. apply pushSignal_actors in H. rewrite H. clear H.
  assert (forall name s, knownCaption name (actors (ensureActor name s)) = true) as Hadd.
  { intros name s. unfold ensureActor.
    destruct (knownCaption name (actors s)) eqn:Hk; [exact Hk |].
    simpl. unfold knownCaption. rewrite existsb_app. simpl.
    rewrite String.eqb_refl. apply orb_true_r. }
  split; [| apply Hadd].
  eapply knownCaption_prefix; [apply ensureActor_prefix | apply Hadd].
Qed.

Lemma parseLine_signal st line st' r sig :
  parseLine st line = Ok st' -> isSignal sig = true ->
  heap st' !! r = Some sig ->
  heap st !! r = Some sig
  \/ exists caption src dest dotted open,
       sig = OSignal caption src dest dotted open /\
       knownCaption src (actors st') = true /\ knownCaption dest (actors st') = true.
Proof.
  intros H Hsig Hr. unfold parseLine in H.
  set (trimmedLine := Js.trim line) in *.
  set (command := commandOf trimmedLine) in *.
  set (text := textOf trimmedLine) in *.
  destruct (command =? "end")%string.
  { inv_bind H. left. rewrite <- (guardedPop_heap st).
    destruct (Js.includes conditionalGroupings _); simplify_eq; exact Hr. }
  inv_bind H.
  destruct (Js.includes annotations (typeAt st a)).
  { left. exact (appendCaption_signal _ _ _ _ r sig H Hsig Hr). }
  destruct (Js.includes annotations (Some command)).
  { left. simpl in H. inv_bind H.
    assert (heap a0 !! r = Some sig) as H0
        by (destruct (negb _); simplify_eq; exact Hr).
    apply (arrayPush_signal _ _ _ _ r sig Ha0 Hsig) in H0.
    before_alloc H0. exact H0. }
  destruct (Js.includes participants (Some command)).
  { left. simplify_eq. exact Hr. }
  destruct (Js.includes conditionalGroupings (Some command)).
  { left. simpl in H. inv_bind H. simplify_eq. simpl in Hr.
    apply (arrayPush_signal _ _ _ _ r sig Ha0 Hsig) in Hr.
    before_alloc Hr.
    before_alloc Hr. exact Hr. }
  destruct (command =? "else")%string.
  { left. inv_bind H. rewrite <- (guardedPop_heap st).
    destruct (Js.includes conditionalGroupings _); simplify_eq; [| exact Hr].
    simpl in H. inv_bind H. simplify_eq. simpl in Hr.
    apply (casesPush_signal _ _ _ _ r sig Ha1 Hsig) in Hr.
    before_alloc Hr. exact Hr. }
  destruct (Js.includes lifetime (Some command)).
  { left. simpl in H.
    apply (arrayPush_signal _ _ _ _ r sig H Hsig) in Hr.
    before_alloc Hr.
    before_alloc Hr. exact Hr. }
  destruct (Js.includes synchrony (Some command)).
  { left. simpl in H. inv_bind H. simplify_eq. simpl in Hr.
    apply (arrayPush_signal _ _ _ _ r sig Ha0 Hsig) in Hr.
    before_alloc Hr.
    before_alloc Hr. exact Hr. }
  destruct (command =? "}")%string.
  { left. simplify_eq. rewrite guardedPop_heap in Hr. exact Hr. }
  destruct (command =? "autonumber")%string.
  { left. simpl in H.
    apply (arrayPush_signal _ _ _ _ r sig H Hsig) in Hr.
    before_alloc Hr. exact Hr. }
  destruct (Js.startsWith "#" command).
  { left. simplify_eq. exact Hr. }
  destruct (parseSignal trimmedLine) as [p|]; [| left; simplify_eq; exact Hr].
  destruct (pushSignal_signal p st st' r sig H Hsig Hr) as [Hold | ->];
    [left; exact Hold | right].
  destruct (pushSignal_known p st st' H) as [Hs Hd]. eauto 10.
Qed.

Lemma signalsKnown_parseLine st line st' :
  signalsKnown st -> parseLine st line = Ok st' -> signalsKnown st'.
Proof.
  intros Hknown H r caption src dest dotted open Hr.
  destruct (parseLine_signal st line st' r (OSignal caption src dest dotted open) H eq_refl Hr)
    as [Hold | (c & s & d & dt & op & E & Hs & Hd)].
  - destruct (Hknown _ _ _ _ _ _ Hold) as [Hs Hd].
    pose proof (parseLine_actors st line st' H) as Hpre.
    split; eapply knownCaption_prefix; eauto.
  - injection E as -> -> -> -> ->. auto.
Qed.

Lemma signalsKnown_parseLines lines : forall st st',
  signalsKnown st -> parseLines lines st = Ok st' -> signalsKnown st'.
Proof.
  induction lines as [|line rest IH]; intros st st' Hk H; simpl in H.
  - simplify_eq. exact Hk.
  - inv_bind H. eapply IH; [| exact H]. eapply signalsKnown_parseLine; eauto.
Qed.

Lemma signalsKnown_initial : signalsKnown initial.
Proof. intros [|[|r]] c s d dt op H; discriminate H. Qed.

(** The names on the signals of a tree read off the store are names on
    signals of the store. *)
Lemma readEvent_signalNames h (P : string -> Prop) :
  (forall r caption src dest dotted open,
      h !! r = Some (OSignal caption src dest dotted open) -> P src /\ P dest) ->
  forall fuel r e, readEvent fuel h r = Some e -> Forall P (signalNames e).
Proof.
  intros Hh. induction fuel as [|fuel IH]; intros r e H; [discriminate |].
  assert (forall a evs,
             match h !! a with
             | Some (OArray items) => mapM (readEvent fuel h) items
             | _ => None
             end = Some evs ->
             Forall P (concat (map signalNames evs))) as Harray.
  { intros a evs Ha. destruct (h !! a) as [[items| | | | | |]|]; try discriminate.
    apply mapM_Some_1 in Ha. apply Forall_concat, Forall_map.
    induction Ha as [|x y l k Hxy _ IHl]; [constructor |].
    constructor; [eapply IH; exact Hxy | exact IHl]. }
  simpl in H. destruct (h !! r) as [[items|c s d dt op|t c al s|t cases|t s|t nested|t start]|]
                eqn:Hr; try discriminate.
  - injection H as <-. destruct (Hh _ _ _ _ _ _ Hr). simpl. auto.
  - injection H as <-. constructor.
  - destruct (mapM _ cases) as [cs|] eqn:Hcs; [| discriminate].
    simpl in H. injection H as <-. simpl.
    apply mapM_Some_1 in Hcs. apply Forall_concat, Forall_map.
    clear Hr. induction Hcs as [|x y l k Hxy _ IHl]; [constructor |].
    constructor; [| exact IHl].
    destruct (match h !! x.2 with
              | Some (OArray items) => mapM (readEvent fuel h) items
              | _ => None
              end) as [evs|] eqn:Hevs; [| discriminate].
    simpl in Hxy. injection Hxy as <-. exact (Harray _ _ Hevs).
  - injection H as <-. constructor.
  - destruct (match h !! nested with
              | Some (OArray items) => mapM (readEvent fuel h) items
              | _ => None
              end) as [evs|] eqn:Hevs; [| discriminate].
    simpl in H. injection H as <-. exact (Harray _ _ Hevs).
  - injection H as <-. constructor.
Qed.

Lemma signalNames_known script st events :
  parseScript script = Ok st ->
  readArray (heap st) eventsRef = Some events ->
  Forall (fun name => knownCaption name (actors st) = true)
    (concat (map signalNames events)).
Proof.
  intros H Hread.
  pose proof (signalsKnown_parseLines _ _ _ signalsKnown_initial H) as Hknown.
  unfold readArray in Hread.
  destruct (heap st !! eventsRef) as [[items| | | | | |]|]; try discriminate.
  apply mapM_Some_1 in Hread. apply Forall_concat, Forall_map.
  induction Hread as [|x y l k Hxy _ IHl]; [constructor |].
  constructor; [| exact IHl].
  eapply (readEvent_signalNames (heap st)); [| exact Hxy].
  intros r caption src dest dotted open Hr. exact (Hknown _ _ _ _ _ _ Hr).
Qed.

Lemma parsed_script script l events :
  parseScriptToArrays script = Ok (l, Some events) ->
  exists st,
    parseScript script = Ok st /\ l = actors st /\
    readArray (heap st) eventsRef = Some events.
Proof.
  unfold parseScriptToArrays, returned. intros H.
  destruct (parseScript script) as [st'|]; [| discriminate].
  simpl in H. injection H as <- H. eauto.
Qed.

(** X6: the names on the signals of a parsed script are captions of actors:
    a signal line adds the actors that are missing, and no line removes an
    actor or renames one. *)
Theorem signal_names_are_actors script l events :
  parseScriptToArrays script = Ok (l, Some events) ->
  Forall (fun name => knownCaption name l = true) (concat (map signalNames events)).
Proof.
  intros H. destruct (parsed_script script l events H) as (st & Hst & -> & Hread).
  exact (signalNames_known script st events Hst Hread).
Qed.

Lemma signal_names_are_actors_witness :
  exists l events,
    parseScriptToArrays ("alt x" ++ newline ++ "A->B: hi" ++ newline ++ "end"
                         ++ newline ++ "B-->C: yo")
    = Ok (l, Some events) /\
    Forall (fun name => knownCaption name l = true) (concat (map signalNames events)).
Proof.
  do 2 eexists. split; [vm_compute; reflexivity |].
  apply (signal_names_are_actors
           ("alt x" ++ newline ++ "A->B: hi" ++ newline ++ "end" ++ newline ++ "B-->C: yo")).
  vm_compute. reflexivity.
Defined.

(** ** The names on a signal line *)







(** * Properties of the layout engine *)

Local Open Scope float_scope.

(** ** The order of the numbers *)

Lemma SFltb_irrefl x : SFltb x x = false.
Proof.
  unfold SFltb.
  destruct x as [s|s| |s m e]; try destruct s; simpl; try reflexivity.
  - rewrite Z.compare_refl, Pos.compare_cont_refl. reflexivity.
  - rewrite Z.compare_refl, Pos.compare_cont_refl. reflexivity.
Qed.

Lemma SFltb_trans x y z : SFltb x y = true -> SFltb y z = true -> SFltb x z = true.
Proof.
  unfold SFltb.
  destruct x as [sx|sx| |sx mx ex], y as [sy|sy| |sy my ey], z as [sz|sz| |sz mz ez];
    try destruct sx; try destruct sy; try destruct sz; simpl;
    try discriminate; try reflexivity.
  all: change (Pos.compare_cont Eq ?a ?b) with (Pos.compare a b).
  all: destruct (Z.compare_spec ex ey) as [Hxy|Hxy|Hxy];
    destruct (Z.compare_spec ey ez) as [Hyz|Hyz|Hyz];
    destruct (Z.compare_spec ex ez) as [Hxz|Hxz|Hxz];
    try discriminate; try reflexivity; try lia.
  all: subst.
  all: destruct (Pos.compare_spec mx my); destruct (Pos.compare_spec my mz);
    destruct (Pos.compare_spec mx mz); simpl; try discriminate; try reflexivity; try lia.
Qed.

(** No number is below itself, and [<] is transitive. *)
Lemma ltb_irrefl x : (x <? x) = false.
Proof. rewrite ltb_spec. apply SFltb_irrefl. Qed.

Lemma ltb_trans x y z : (x <? y) = true -> (y <? z) = true -> (x <? z) = true.
Proof. rewrite !ltb_spec. apply SFltb_trans. Qed.

#[local] Instance notLowered_reflexive : Reflexive notLowered.
Proof. intros g w H. exact H. Qed.

#[local] Instance notLowered_transitive : Transitive notLowered.
Proof. intros g1 g2 g3 H12 H23 w H. apply H23, H12, H. Qed.

#[local] Instance widened_reflexive : Reflexive widened.
Proof. intros g. exists []. split; [constructor | reflexivity]. Qed.

#[local] Instance widened_transitive : Transitive widened.
Proof.
  intros g1 g2 g3 (es1 & Hes1 & ->) (es2 & Hes2 & ->).
  exists (es1 ++ es2)%list. split; [apply Forall_app; auto |].
  rewrite foldl_app. reflexivity.
Qed.

(** A gap that is raised to a number above it is not lowered. *)
Lemma raised_notLowered g w : (g <? w) = true -> notLowered g w.
Proof.
  intros Hlt w0 H. destruct (w <? w0) eqn:Hw; [| reflexivity].
  rewrite (ltb_trans g w w0 Hlt Hw) in H. discriminate.
Qed.

(** ** The first loop over the triples does not lower a gap, the second one
    adds positive amounts *)

Lemma gapBelow_true gaps k w :
  gapBelow gaps k w = true -> exists g, gaps !! k = Some g /\ (g <? w) = true.
Proof.
  unfold gapBelow. destruct (gaps !! k) as [g|]; [eauto | discriminate].
Qed.

Lemma gapBelow_false gaps k w g :
  gapBelow gaps k w = false -> gaps !! k = Some g -> (g <? w) = false.
Proof. unfold gapBelow. intros H Hg. rewrite Hg in H. exact H. Qed.

Lemma raise_notLowered gaps k w :
  gapBelow gaps k w = true -> Forall2 notLowered gaps (<[k := w]> gaps).
Proof.
  intros H. apply gapBelow_true in H. destruct H as (g & Hg & Hlt).
  rewrite <- (list_insert_id gaps k g Hg) at 1.
  apply Forall2_insert; [reflexivity | apply raised_notLowered, Hlt].
Qed.

Lemma localPass_notLowered gaps g : Forall2 notLowered gaps (localPass gaps g).
Proof.
  destruct g as [[g0 g1] w]. unfold localPass.
  destruct (indexMin g0 g1) as [idx1|]; [| reflexivity].
  destruct (indexMax g0 g1) as [idx2|]; [| reflexivity].
  set (gaps1 := if (idx1 + 1 =? idx2)%nat && gapBelow gaps (idx1 + 1) w
                then <[(idx1 + 1)%nat := w]> gaps else gaps).
  assert (Forall2 notLowered gaps gaps1) as H1.
  { unfold gaps1. destruct (idx1 + 1 =? idx2)%nat; simpl; [| reflexivity].
    destruct (gapBelow gaps (idx1 + 1) w) eqn:Hb; [| reflexivity].
    apply raise_notLowered, Hb. }
  destruct (idx1 =? idx2)%nat; simpl; [| exact H1].
  destruct (gapBelow gaps1 idx1 w) eqn:Hb; [| exact H1].
  etransitivity; [exact H1 | apply raise_notLowered, Hb].
Qed.

Lemma widen_widened count : forall gaps j extraGap,
  (0 <? extraGap) = true -> Forall2 widened gaps (widen gaps j count extraGap).
Proof.
  induction count as [|count IH]; intros gaps j extraGap Hpos; simpl; [reflexivity |].
  etransitivity; [| apply IH, Hpos].
  apply Forall2_alter_r; [reflexivity |].
  intros x y _ _ (es & Hes & ->). exists (es ++ [extraGap])%list.
  split; [apply Forall_app; split; [exact Hes | constructor; [exact Hpos | constructor]] |].
  rewrite foldl_app. reflexivity.
Qed.

Lemma distributePass_widened gaps g : Forall2 widened gaps (distributePass gaps g).
Proof.
  destruct g as [[g0 g1] w]. unfold distributePass.
  destruct (indexMin g0 g1) as [idx1|]; [| reflexivity].
  destruct (indexMax g0 g1) as [idx2|]; [| reflexivity].
  destruct (_ && _); [| reflexivity].
  destruct (totalGap gaps idx1 (idx2 - idx1) 0) as [total|]; [| reflexivity].
  destruct (0 <? _) eqn:Hpos; [| reflexivity].
  apply widen_widened, Hpos.
Qed.

Lemma foldl_related (R : relation float) `{!Reflexive R} `{!Transitive R}
    (f : list float -> triple -> list float) :
  (forall gaps g, Forall2 R gaps (f gaps g)) ->
  forall gs gaps, Forall2 R gaps (foldl f gaps gs).
Proof.
  intros Hf gs. induction gs as [|g gs IH]; intros gaps; simpl; [reflexivity |].
  etransitivity; [apply Hf | apply IH].
Qed.

(** ** The first pass leaves room for every triple of adjacent lanes *)

Lemma localPass_covers gaps g0 g1 w idx1 x :
  indexMin g0 g1 = Some idx1 ->
  indexMax g0 g1 = Some (idx1 + 1)%nat ->
  localPass gaps (g0, g1, w) !! (idx1 + 1)%nat = Some x ->
  (x <? w) = false.
Proof.
  intros Hmin Hmax. unfold localPass. rewrite Hmin, Hmax.
  rewrite Nat.eqb_refl. simpl.
  replace (idx1 =? idx1 + 1)%nat with false
    by (symmetry; apply Nat.eqb_neq; lia).
  simpl. destruct (gapBelow gaps (idx1 + 1) w) eqn:Hb.
  - intros Hx. apply gapBelow_true in Hb. destruct Hb as (g & Hg & _).
    rewrite list_lookup_insert_eq in Hx by (apply lookup_lt_Some in Hg; exact Hg).
    injection Hx as <-. apply ltb_irrefl.
  - intros Hx. exact (gapBelow_false gaps _ w x Hb Hx).
Qed.

Lemma foldl_localPass_covers gs : forall gaps g0 g1 w idx1 x,
  In (g0, g1, w) gs ->
  indexMin g0 g1 = Some idx1 ->
  indexMax g0 g1 = Some (idx1 + 1)%nat ->
  foldl localPass gaps gs !! (idx1 + 1)%nat = Some x ->
  (x <? w) = false.
Proof.
  induction gs as [|g gs IH]; intros gaps g0 g1 w idx1 x Hin Hmin Hmax Hx;
    [destruct Hin |].
  simpl in Hx. destruct Hin as [-> | Hin].
  - pose proof (foldl_related notLowered localPass localPass_notLowered gs
                  (localPass gaps (g0, g1, w))) as Hgrow.
    destruct (Forall2_lookup_r _ _ _ _ _ Hgrow Hx) as (y & Hy & Hle).
    apply Hle. exact (localPass_covers gaps g0 g1 w idx1 y Hmin Hmax Hy).
  - exact (IH _ g0 g1 w idx1 x Hin Hmin Hmax Hx).
Qed.

(** [gaps] at the end of the two loops over the triples: the gap of two
    adjacent lanes is a number that the triple's width is not above, with
    positive amounts added. *)
Lemma resolved_gap_covers gs gaps g0 g1 w idx1 x :
  In (g0, g1, w) gs ->
  indexMin g0 g1 = Some idx1 ->
  indexMax g0 g1 = Some (idx1 + 1)%nat ->
  foldl distributePass (foldl localPass gaps gs) gs !! (idx1 + 1)%nat = Some x ->
  exists local, (local <? w) = false /\ widened local x.
Proof.
  intros Hin Hmin Hmax Hx.
  pose proof (foldl_related widened distributePass distributePass_widened gs
                (foldl localPass gaps gs)) as Hgrow.
  destruct (Forall2_lookup_r _ _ _ _ _ Hgrow Hx) as (y & Hy & Hw).
  exists y. split; [| exact Hw].
  exact (foldl_localPass_covers gs gaps g0 g1 w idx1 y Hin Hmin Hmax Hy).
Qed.

(** ** The indices in the dictionary *)

Lemma dictSet_below n m dict key idx :
  indicesBelow n dict -> (idx < m)%nat -> (n <= m)%nat ->
  indicesBelow m (dictSet dict key idx).
Proof.
  intros [Hown Hproto] Hidx Hnm. unfold dictSet.
  destruct (key =? "__proto__")%string; split; simpl.
  - intros k i Hk. specialize (Hown k i Hk). lia.
  - intros i [= <-]. exact Hidx.
  - intros k i Hk. destruct (decide (key = k)) as [<-|Hne].
    + rewrite lookup_insert_eq in Hk. injection Hk as <-. exact Hidx.
    + rewrite lookup_insert_ne in Hk by exact Hne. specialize (Hown k i Hk). lia.
  - intros i Hi. specialize (Hproto i Hi). lia.
Qed.

Lemma actorDictFrom_below l : forall i dict,
  indicesBelow i dict -> indicesBelow (i + length l) (actorDictFrom i l dict).
Proof.
  induction l as [|a l IH]; intros i dict H; simpl.
  - rewrite Nat.add_0_r. exact H.
  - rewrite <- Nat.add_succ_comm. apply IH.
    apply (dictSet_below i); [exact H | lia | lia].
Qed.

Lemma dictGet_own env dict key idx :
  dictGet env dict key = Some (Own idx) ->
  dictOwn dict !! key = Some idx \/ dictPrototype dict = Some idx.
Proof.
  unfold dictGet. destruct (dictOwn dict !! key) as [i|].
  - intros [= <-]. left. reflexivity.
  - destruct (dictPrototype dict) as [i|].
    + destruct (key =? "__proto__")%string; [intros [= <-]; right; reflexivity |].
      destruct (key =? "0")%string; [discriminate |].
      destruct (key =? "1")%string; [destruct (i =? 0)%nat; discriminate |].
      destruct (key =? "length")%string; [discriminate |].
      destruct (_ || _); discriminate.
    + destruct (_ || _); discriminate.
Qed.

(** An index that [actorDict] yields is an index of [actors]. *)
Lemma actorDict_lookup_lt env l key idx :
  dictGet env (actorDict l) key = Some (Own idx) -> (idx < length l)%nat.
Proof.
  intros H.
  assert (indicesBelow (0 + length l) (actorDict l)) as [Hown Hproto].
  { apply actorDictFrom_below. split; simpl.
    - intros k i Hk. rewrite lookup_empty in Hk. discriminate.
    - discriminate. }
  destruct (dictGet_own env _ key idx H) as [Hk | Hk];
    [exact (Hown key idx Hk) | exact (Hproto idx Hk)].
Qed.

(** ** The widths and the lane centres of the actors *)

Lemma sizeActors_width sz l : forall i gaps k a',
  fst (sizeActors sz i l gaps) !! k = Some a' ->
  exists a,
    l !! k = Some a /\
    actorCaption a' = actorCaption a /\
    actorGeo a' !! "width"
    = Some (bboxWidth (calculateTextDimensions sz (actorCaption a)) + 2 * padding sz).
Proof.
  induction l as [|a l IH]; intros i gaps k a' H; simpl in H; [discriminate |].
  destruct (sizeActors sz (S i) l _) as [rest' gaps'] eqn:Hrest.
  destruct k as [|k]; simpl in H.
  - injection H as <-. exists a. split; [reflexivity |]. split; [reflexivity |].
    simpl. apply lookup_insert_eq.
  - eapply (IH (S i)). rewrite Hrest. exact H.
Qed.

Lemma placeActors_width sz l : forall i gaps offset maxHeight l' offset' maxHeight' k a',
  placeActors sz i l gaps offset maxHeight = Some (l', offset', maxHeight') ->
  l' !! k = Some a' ->
  exists a,
    l !! k = Some a /\
    actorCaption a' = actorCaption a /\
    actorGeo a' !! "width" = actorGeo a !! "width".
Proof.
  induction l as [|a l IH]; intros i gaps offset maxHeight l' offset' maxHeight' k a' H Hk;
    simpl in H.
  - injection H as <- _ _. discriminate.
  - destruct (actorGeo a !! "width") as [width|]; [| discriminate].
    destruct (actorGeo a !! "height") as [height|] eqn:Hh; [| discriminate].
    destruct (gaps !! S i) as [gap|]; [| discriminate]. simpl in H.
    destruct (placeActors sz (S i) l gaps _ _) as [[[rest' o] m]|] eqn:Hrest;
      [| discriminate].
    simpl in H. injection H as <- _ _.
    destruct k as [|k]; simpl in Hk.
    + injection Hk as <-. exists a. split; [reflexivity |]. split; [reflexivity |].
      simpl. rewrite !lookup_insert_ne by discriminate. reflexivity.
    + exact (IH _ _ _ _ _ _ _ k a' Hrest Hk).
Qed.

(** The centre of a lane is the centre of the lane before it plus the gap
    between the two. *)
Lemma placeActors_lineX sz l : forall i gaps offset maxHeight l' offset' maxHeight' k a1 a2,
  placeActors sz i l gaps offset maxHeight = Some (l', offset', maxHeight') ->
  l' !! k = Some a1 ->
  l' !! S k = Some a2 ->
  exists x1 gap,
    gaps !! S (i + k) = Some gap /\
    actorGeo a1 !! "lineX" = Some x1 /\
    actorGeo a2 !! "lineX" = Some (x1 + gap).
Proof.
  induction l as [|a l IH];
    intros i gaps offset maxHeight l' offset' maxHeight' k a1 a2 H Hk1 Hk2; simpl in H.
  - injection H as <- _ _. discriminate.
  - destruct (actorGeo a !! "width") as [width|]; [| discriminate].
    destruct (actorGeo a !! "height") as [height|]; [| discriminate].
    destruct (gaps !! S i) as [gap|] eqn:Hgap; [| discriminate]. simpl in H.
    destruct (placeActors sz (S i) l gaps _ _) as [[[rest' o] m]|] eqn:Hrest;
      [| discriminate].
    simpl in H. injection H as <- _ _.
    destruct k as [|k]; simpl in Hk1, Hk2.
    + injection Hk1 as <-. exists offset, gap.
      rewrite Nat.add_0_r. split; [exact Hgap |]. split.
      * simpl. rewrite !lookup_insert_ne by discriminate. apply lookup_insert_eq.
      * destruct l as [|b l]; simpl in Hrest.
        -- injection Hrest as <- _ _. discriminate.
        -- destruct (actorGeo b !! "width") as [wb|]; [| discriminate].
           destruct (actorGeo b !! "height") as [hb|]; [| discriminate].
           destruct (gaps !! S (S i)) as [gb|]; [| discriminate]. simpl in Hrest.
           destruct (placeActors sz (S (S i)) l gaps _ _) as [[[rest'' o'] m']|];
             [| discriminate].
           simpl in Hrest. injection Hrest as <- _ _.
           simpl in Hk2. injection Hk2 as <-. simpl.
           rewrite !lookup_insert_ne by discriminate. apply lookup_insert_eq.
    + destruct (IH _ _ _ _ _ _ _ k a1 a2 Hrest Hk1 Hk2) as (x1 & g & Hg & H1 & H2).
      exists x1, g. rewrite <- Nat.add_succ_comm. auto.
Qed.

(** C4 as the code has it: after the layout, the width of every actor is the
    measured width of its caption plus twice the padding, and for every
    collected triple whose two lane indices are adjacent, the lane centre of
    the second actor is the lane centre of the first one plus the gap between
    the two lanes, where that gap is a number that is not below the minimum
    width of the triple, with positive amounts added to it.  Every sum is one
    of doubles, rounded; the distance between the two lane centres is the
    gap only up to the rounding of the last sum. *)
Theorem actor_widths_and_adjacent_lane_gaps env sz l events pl :
  calculatePlacements env sz l events = Some pl ->
  (forall i a',
      plActors pl !! i = Some a' ->
      exists a,
        l !! i = Some a /\
        actorCaption a' = actorCaption a /\
        actorGeo a' !! "width"
        = Some (bboxWidth (calculateTextDimensions sz (actorCaption a')) + 2 * padding sz)) /\
  (forall g0 g1 w idx1 idx2 a1 a2 x1 x2,
      In (g0, g1, w) (collectedTriples env sz l events) ->
      indexMin g0 g1 = Some idx1 ->
      indexMax g0 g1 = Some idx2 ->
      idx2 = (idx1 + 1)%nat ->
      plActors pl !! idx1 = Some a1 ->
      plActors pl !! idx2 = Some a2 ->
      actorGeo a1 !! "lineX" = Some x1 ->
      actorGeo a2 !! "lineX" = Some x2 ->
      exists local increments,
        (local <? w) = false /\
        Forall (fun e => (0 <? e) = true) increments /\
        x2 = x1 + foldl PrimFloat.add local increments).
Proof.
  intros H. unfold calculatePlacements in H. unfold collectedTriples.
  destruct (sizeActors sz 0 l _) as [sized gaps0] eqn:Hsize.
  destruct (calculateLaneGapsAndTextSize env sz (actorDict l) events)
    as [gs events1] eqn:Hgs.
  set (gaps := foldl distributePass (foldl localPass gaps0 gs) gs) in H.
  destruct (gaps !! 0%nat) as [first|]; [| discriminate]. simpl in H.
  destruct (placeActors sz 0 sized gaps first 0) as [[[placed offset] maxHeight]|] eqn:Hplace;
    [| discriminate].
  simpl in H.
  destruct (calculateEventPlacements _ _ _ _ _ _ _) as [[y events2]|]; [| discriminate].
  simpl in H. injection H as <-. simpl.
  split.
  - intros i a' Hi. rewrite list_lookup_fmap in Hi.
    destruct (placed !! i) as [b|] eqn:Hb; [| discriminate].
    simpl in Hi. injection Hi as <-. simpl.
    rewrite lookup_insert_ne by discriminate.
    destruct (placeActors_width sz _ _ _ _ _ _ _ _ i b Hplace Hb) as (c & Hc & Hcap & ->).
    destruct (sizeActors_width sz l 0 (replicate (length l + 1) 0) i c)
      as (a & Ha & Hcap' & Hw); [rewrite Hsize; exact Hc |].
    exists a. split; [exact Ha |]. split; [congruence |].
    rewrite Hcap, Hcap'. exact Hw.
  - intros g0 g1 w idx1 idx2 a1 a2 x1 x2 Hin Hmin Hmax -> H1 H2 Hx1 Hx2.
    rewrite list_lookup_fmap in H1, H2.
    destruct (placed !! idx1) as [b1|] eqn:Hb1; [| discriminate].
    destruct (placed !! (idx1 + 1)%nat) as [b2|] eqn:Hb2; [| discriminate].
    simpl in H1, H2. injection H1 as <-. injection H2 as <-. simpl in Hx1, Hx2.
    rewrite lookup_insert_ne in Hx1, Hx2 by discriminate.
    rewrite Nat.add_1_r in Hb2.
    destruct (placeActors_lineX sz _ _ _ _ _ _ _ _ idx1 b1 b2 Hplace Hb1 Hb2)
      as (x & gap & Hgap & Hl1 & Hl2).
    rewrite Hl1 in Hx1. rewrite Hl2 in Hx2. injection Hx1 as <-. injection Hx2 as <-.
    simpl in Hgap. rewrite <- Nat.add_1_r in Hgap.
    destruct (resolved_gap_covers gs gaps0 g0 g1 w idx1 gap Hin Hmin Hmax Hgap)
      as (local & Hlocal & increments & Hpos & ->).
    exists local, increments. auto.
Qed.

Lemma actor_widths_and_adjacent_lane_gaps_witness :
  exists pl a1 a2 x1 x2,
    calculatePlacements ecmaScript2023 asciiSizes
      [bareParticipant "A"; bareParticipant "B"]
      [ESignal "hello world" "A" "B" false false ∅] = Some pl /\
    plActors pl !! 0%nat = Some a1 /\
    plActors pl !! 1%nat = Some a2 /\
    actorGeo a1 !! "lineX" = Some x1 /\
    actorGeo a2 !! "lineX" = Some x2 /\
    (exists local increments,
        (local <? 13) = false /\
        Forall (fun e => (0 <? e) = true) increments /\
        x2 = x1 + foldl PrimFloat.add local increments) /\
    exists a,
      [bareParticipant "A"; bareParticipant "B"] !! 0%nat = Some a /\
      actorCaption a1 = actorCaption a /\
      actorGeo a1 !! "width"
      = Some (bboxWidth (calculateTextDimensions asciiSizes (actorCaption a1))
              + 2 * padding asciiSizes).
Proof.
  pose proof (fun pl H =>
                proj2 (actor_widths_and_adjacent_lane_gaps ecmaScript2023 asciiSizes
                         [bareParticipant "A"; bareParticipant "B"]
                         [ESignal "hello world" "A" "B" false false ∅] pl H)
                  (Some 0%nat) (Some 1%nat) 13 0%nat 1%nat) as T.
  pose proof (fun pl H =>
                proj1 (actor_widths_and_adjacent_lane_gaps ecmaScript2023 asciiSizes
                         [bareParticipant "A"; bareParticipant "B"]
                         [ESignal "hello world" "A" "B" false false ∅] pl H)
                  0%nat) as W.
  do 5 eexists.
  split; [vm_compute; reflexivity |].
  split; [vm_compute; reflexivity |].
  split; [vm_compute; reflexivity |].
  split; [vm_compute; reflexivity |].
  split; [vm_compute; reflexivity |].
  split.
  - eapply T.
    + vm_compute. reflexivity.
    + vm_compute. left. reflexivity.
    + reflexivity.
    + reflexivity.
    + reflexivity.
    + vm_compute. reflexivity.
    + vm_compute. reflexivity.
    + vm_compute. reflexivity.
    + vm_compute. reflexivity.
  - eapply W.
    + vm_compute. reflexivity.
    + vm_compute. reflexivity.
Defined.

(** C4, refuted as stated: on the participants [A] to [E] with a signal from
    [A] to [D] whose caption has 14 characters and a signal from [D] to [E]
    whose caption has 9 characters, the triple of the second signal joins
    the adjacent lanes 3 and 4 with the minimum width 11, and the gap between
    the two lanes is 11; the lane centres are 21.000000000000004 (the sum of
    2.5 and three gaps of 6.166666666666667) and 32 (the rounded sum of
    21.000000000000004 and 11): their distance is 10.999999999999996, below
    the minimum width, in double arithmetic as in exact arithmetic. *)
Lemma lane_centres_closer_than_minimum_width :
  exists l events pl a1 a2 x1 x2,
    parseScriptToArrays
      ("participant A" ++ newline ++ "participant B" ++ newline ++
       "participant C" ++ newline ++ "participant D" ++ newline ++
       "participant E" ++ newline ++
       "A->D: abcdefghijklmn" ++ newline ++ "D->E: abcdefghi")%string
    = Ok (l, Some events) /\
    In (Some 3%nat, Some 4%nat, 11) (collectedTriples ecmaScript2023 asciiSizes l events) /\
    calculatePlacements ecmaScript2023 asciiSizes l events = Some pl /\
    plActors pl !! 3%nat = Some a1 /\
    plActors pl !! 4%nat = Some a2 /\
    actorGeo a1 !! "lineX" = Some x1 /\
    actorGeo a2 !! "lineX" = Some x2 /\
    x1 = 0x1.5000000000001p+4 /\
    x2 = 32 /\
    (abs (x2 - x1) <? 11) = true /\
    (Qabs (exactValue x2 - exactValue x1) < exactValue 11)%Q.
Proof.
  do 7 eexists.
  split; [vm_compute; reflexivity |].
  split; [vm_compute; right; left; reflexivity |].
  split; [vm_compute; reflexivity |].
  split; [vm_compute; reflexivity |].
  split; [vm_compute; reflexivity |].
  split; [vm_compute; reflexivity |].
  split; [vm_compute; reflexivity |].
  split; [reflexivity |].
  split; [reflexivity |].
  split; vm_compute; reflexivity.
Qed.

(** ** Groupings *)

Lemma forEachCollect_cons {A B : Type} (body : A -> list B * A) (a : A) (l : list A) :
  forEachCollect body (a :: l)
  = ((fst (body a) ++ fst (forEachCollect body l))%list,
     snd (body a) :: snd (forEachCollect body l)).
Proof.
  simpl. destruct (body a) as [bs a']. destruct (forEachCollect body l) as [bs' l'].
  reflexivity.
Qed.

Lemma forEachThread_cons {A S : Type} (body : A -> S -> option (S * A)) a l s :
  forEachThread body (a :: l) s
  = match body a s with
    | Some (s1, a') =>
        match forEachThread body l s1 with
        | Some (s2, l') => Some (s2, a' :: l')
        | None => None
        end
    | None => None
    end.
Proof. reflexivity. Qed.

Lemma laneGapsOfEvent_cases env sz dict t cases geo :
  laneGapsOfEvent env sz dict (ECases t cases geo)
  = if (t =? "alt")%string then
      let '(gaps, cases') := forEachCollect (laneGapsOfCase env sz dict) cases in
      (gaps, ECases t cases' geo)
    else ([], ECases t cases geo).
Proof. reflexivity. Qed.

Lemma placeEvent_cases env sz dict placed totalWidth t cases geo y :
  placeEvent env sz dict placed totalWidth (ECases t cases geo) y
  = if (t =? "alt")%string then
      match forEachThread (placeCase env sz dict placed totalWidth) cases
              (y + altMarginItems sz, altMinHeight sz) with
      | Some ((endY, altHeight), cases') =>
          Some (endY + altMarginBottom sz,
                ECases t cases'
                  (<["width" := totalWidth]> (<["height" := altHeight]>
                     (<["y" := y]> (<["x" := 0]> geo)))))
      | None => None
      end
    else Some (y, ECases t cases geo).
Proof. reflexivity. Qed.

Lemma laneGapsOfCase_eq env sz dict caption nested geo :
  laneGapsOfCase env sz dict (ECase caption nested geo)
  = (fst (calculateLaneGapsAndTextSize env sz dict nested),
     ECase caption (snd (calculateLaneGapsAndTextSize env sz dict nested)) geo).
Proof.
  unfold calculateLaneGapsAndTextSize. simpl.
  destruct (forEachCollect _ nested) as [gs nested']. reflexivity.
Qed.

Lemma placeCase_eq env sz dict placed totalWidth caption nested geo y altHeight :
  placeCase env sz dict placed totalWidth (ECase caption nested geo) (y, altHeight)
  = match calculateEventPlacements env sz dict placed nested y totalWidth with
    | Some (endY, nested') =>
        Some ((endY, altHeight + (endY - y)),
              ECase caption nested' (<["height" := endY - y]> geo))
    | None => None
    end.
Proof. reflexivity. Qed.

(** Induction on an event with, for a grouping, the property of every event
    nested in its cases. *)
Lemma event_nested_ind (P : event -> Prop) :
  (forall caption src dest dotted open geo, P (ESignal caption src dest dotted open geo)) ->
  (forall t caption align src geo, P (ENote t caption align src geo)) ->
  (forall t cases geo,
      Forall (fun c => Forall P (caseEvents c)) cases -> P (ECases t cases geo)) ->
  (forall t src, P (ELife t src)) ->
  (forall t nested, P (ESync t nested)) ->
  (forall t start, P (ENumber t start)) ->
  forall e, P e.
Proof.
  intros Psignal Pnote Pcases Plife Psync Pnumber.
  fix IH 1. intros [caption src dest dotted open geo|t caption align src geo
                   |t cases geo|t src|t nested|t start].
  - apply Psignal.
  - apply Pnote.
  - apply Pcases. induction cases as [|c cases IHcases]; constructor; [| exact IHcases].
    destruct c as [caption nested geo']. simpl.
    induction nested as [|e nested IHnested]; constructor; [apply IH | exact IHnested].
  - apply Plife.
  - apply Psync.
  - apply Pnumber.
Qed.

(** ** The two walks lay the events out as the specification says, entering
    the groupings of the kind [alt] only *)

Section WalksLayOut.

Variable env : environment.
Variable sz : sizes.
Variable dict : dictionary.
Variable placed : list actor.
Variable actors : list actor.
Variable totalWidth : float.

(** [actors] has the lane centres that [placed] has. *)
Hypothesis actors_lineX : forall idx a x,
  placed !! idx = Some a -> actorGeo a !! "lineX" = Some x ->
  exists a', actors !! idx = Some a' /\ actorGeo a' !! "lineX" = Some x.

Lemma lineXOf_lane key a x :
  dictGet env dict key = Some a -> lineXOf placed a = Some x ->
  exists idx, a = Own idx /\ laneOf env dict actors key idx x.
Proof.
  intros Hk Hx. destruct a as [idx|]; [| discriminate].
  exists idx. split; [reflexivity |]. split; [exact Hk |].
  simpl in Hx. destruct (placed !! idx) as [b|] eqn:Hb; [| discriminate].
  simpl in Hx. exact (actors_lineX idx b x Hb Hx).
Qed.

Lemma walksLayOut_events events :
  Forall (walksLayOut env sz dict placed actors totalWidth) events ->
  forall y y' events',
    calculateEventPlacements env sz dict placed
      (snd (calculateLaneGapsAndTextSize env sz dict events)) y totalWidth
    = Some (y', events') ->
    laidOutSeq env sz dict actors totalWidth y events
      (fst (calculateLaneGapsAndTextSize env sz dict events)) y' events'.
Proof.
  unfold calculateEventPlacements, calculateLaneGapsAndTextSize.
  induction 1 as [|e events He Hevents IH]; intros y y' events' H.
  - simpl in H. injection H as <- <-. constructor.
  - rewrite forEachCollect_cons in *. cbn [fst snd] in *.
    rewrite forEachThread_cons in H.
    destruct (placeEvent env sz dict placed totalWidth _ y) as [[y1 e']|] eqn:He';
      [| discriminate].
    destruct (forEachThread _ _ y1) as [[y2 rest']|] eqn:Hrest; [| discriminate].
    injection H as <- <-.
    econstructor; [apply He, He' | apply IH, Hrest].
Qed.

Lemma walksLayOut_cases cases :
  Forall (fun c => Forall (walksLayOut env sz dict placed actors totalWidth)
                      (caseEvents c)) cases ->
  forall y altHeight lastY altHeight' cases',
    forEachThread (placeCase env sz dict placed totalWidth)
      (snd (forEachCollect (laneGapsOfCase env sz dict) cases)) (y, altHeight)
    = Some ((lastY, altHeight'), cases') ->
    exists heights,
      laidOutCases env sz dict actors totalWidth y cases
        (fst (forEachCollect (laneGapsOfCase env sz dict) cases)) lastY cases' heights /\
      altHeight' = foldl PrimFloat.add altHeight heights.
Proof.
  induction 1 as [|c cases Hc Hcases IH]; intros y altHeight lastY altHeight' cases' H.
  - simpl in H. injection H as <- <- <-. exists []. split; [constructor | reflexivity].
  - rewrite forEachCollect_cons in *. cbn [fst snd] in *.
    rewrite forEachThread_cons in H.
    destruct c as [caption nested geo]. rewrite laneGapsOfCase_eq in *.
    cbn [fst snd] in *. rewrite placeCase_eq in H.
    destruct (calculateEventPlacements env sz dict placed _ y totalWidth)
      as [[endY nested']|] eqn:Hnested; [| discriminate].
    destruct (forEachThread _ _ _) as [[[lastY1 altHeight1] cases1]|] eqn:Hrest;
      [| discriminate].
    injection H as <- <- <-.
    destruct (IH _ _ _ _ _ Hrest) as (heights & Hlaid & ->).
    exists ((endY - y) :: heights). split; [| reflexivity].
    econstructor.
    + exact (walksLayOut_events nested Hc y endY nested' Hnested).
    + apply lookup_insert_eq.
    + exact Hlaid.
Qed.

Lemma walksLayOut_all e : walksLayOut env sz dict placed actors totalWidth e.
Proof.
  induction e as [caption src dest dotted open geo|t caption align src geo
                 |t cases geo IH|t src|t nested|t start] using event_nested_ind;
    intros y y' e' H.
  - simpl in *.
    destruct (dictGet env dict src) as [a1|] eqn:H1.
    + destruct (dictGet env dict dest) as [a2|] eqn:H2.
      * simpl in H. rewrite H1, H2 in H.
        destruct (lineXOf placed a1) as [x1|] eqn:Hx1; [| discriminate].
        destruct (lineXOf placed a2) as [x2|] eqn:Hx2; [| discriminate].
        simpl in H. rewrite lookup_insert_eq in H. simpl in H. injection H as <- <-.
        destruct (lineXOf_lane src a1 x1 H1 Hx1) as (idx1 & -> & Hl1).
        destruct (lineXOf_lane dest a2 x2 H2 Hx2) as (idx2 & -> & Hl2).
        simpl. apply laidOut_signal with (x1 := x1) (x2 := x2);
          try assumption;
          repeat (rewrite lookup_insert_ne by discriminate);
          apply lookup_insert_eq.
      * simpl in H. rewrite H1, H2 in H. injection H as <- <-.
        apply laidOut_passed. simpl. rewrite H1, H2. reflexivity.
    + simpl in H. rewrite H1 in H. injection H as <- <-.
      apply laidOut_passed. simpl. rewrite H1. reflexivity.
  - simpl in *. destruct (t =? "note")%string eqn:Ht.
    + destruct (dictGet env dict (propertyKey src)) as [a1|] eqn:H1.
      * simpl in H. rewrite Ht, H1 in H.
        destruct (lineXOf placed a1) as [x1|] eqn:Hx1; [| discriminate].
        simpl in H. rewrite lookup_insert_eq in H. simpl in H. injection H as <- <-.
        destruct (lineXOf_lane _ a1 x1 H1 Hx1) as (idx1 & -> & Hl1).
        apply String.eqb_eq in Ht. subst t.
        simpl. apply laidOut_note with (x := x1);
          try assumption;
          repeat (rewrite lookup_insert_ne by discriminate);
          apply lookup_insert_eq.
      * simpl in H. rewrite Ht, H1 in H. injection H as <- <-.
        apply laidOut_passed. simpl. rewrite Ht, H1. reflexivity.
    + simpl in H. rewrite Ht in H. injection H as <- <-.
      apply laidOut_passed. simpl. rewrite Ht. reflexivity.
  - rewrite laneGapsOfEvent_cases in *.
    destruct (t =? "alt")%string eqn:Ht.
    + pose proof (walksLayOut_cases cases IH (y + altMarginItems sz) (altMinHeight sz))
        as Hcases.
      destruct (forEachCollect (laneGapsOfCase env sz dict) cases) as [gs cases1].
      cbn [fst snd] in *. rewrite placeEvent_cases, Ht in H.
      destruct (forEachThread _ cases1 _) as [[[lastY altHeight] cases']|] eqn:Hplace;
        [| discriminate].
      injection H as <- <-.
      destruct (Hcases _ _ _ eq_refl) as (heights & Hlaid & ->).
      apply String.eqb_eq in Ht. subst t.
      apply laidOut_alt with (heights := heights);
        try assumption;
        repeat (rewrite lookup_insert_ne by discriminate);
        apply lookup_insert_eq.
    + cbn [fst snd] in *. rewrite placeEvent_cases, Ht in H. injection H as <- <-.
      apply laidOut_passed. simpl. rewrite Ht. reflexivity.
  - simpl in H. injection H as <- <-. apply laidOut_passed. reflexivity.
  - simpl in H. injection H as <- <-. apply laidOut_passed. reflexivity.
  - simpl in H. injection H as <- <-. apply laidOut_passed. reflexivity.
Qed.

End WalksLayOut.

(** A grouping of another kind than [alt] is laid out in one way: it is
    passed over. *)
Lemma laidOut_other_grouping env sz dict actors canvasWidth y t cases geo gs y' e' :
  t <> "alt" ->
  laidOut env sz dict actors canvasWidth y (ECases t cases geo) gs y' e' ->
  gs = [] /\ y' = y /\ e' = ECases t cases geo.
Proof.
  intros Ht H. inversion H; subst; [congruence | auto].
Qed.

(** A grouping of the kind [alt] is laid out in one way: its cases are. *)
Lemma laidOut_alt_grouping env sz dict actors canvasWidth y cases geo gs y' e' :
  laidOut env sz dict actors canvasWidth y (ECases "alt" cases geo) gs y' e' ->
  exists lastY cases' heights geo',
    laidOutCases env sz dict actors canvasWidth (y + altMarginItems sz) cases gs lastY
      cases' heights /\
    y' = lastY + altMarginBottom sz /\
    e' = ECases "alt" cases' geo' /\
    geo' !! "x" = Some 0 /\
    geo' !! "y" = Some y /\
    geo' !! "width" = Some canvasWidth /\
    geo' !! "height" = Some (foldl PrimFloat.add (altMinHeight sz) heights).
Proof.
  intros H. inversion H; subst.
  - eexists _, _, _, _. repeat split; eassumption.
  - discriminate.
Qed.

(** C2 as the code has it: the two walks of the layout descend into the
    cases of the groupings of the kind [alt] that they reach (those of the
    top-level sequence, and those of a case of an [alt] grouping that they
    reach), and into no grouping of another kind.  [calculatePlacements]
    lays out the top-level sequence as [laidOutSeq] says, from a start cursor
    to the height it returns, with the width it returns as the canvas width,
    and the triples it collects are those of the events so laid out.  So for
    every [alt] grouping that is reached, the nested signals and notes whose
    actors are found contribute their triples and get their Y positions at
    the advancing cursor, and the grouping gets [x = 0], [y] = the cursor,
    [width] = the canvas width and [height] = the fixed minimum plus the
    heights of its cases, the height of a case being the distance the cursor
    moved over its nested sequence.  A grouping of another kind ([opt],
    [loop], [par], [seq]) is passed over: it contributes no triple, neither
    it nor anything nested in it (an [alt] grouping included) gets any
    geometry, and the cursor does not move. *)
Theorem layout_descends_into_alt_groupings_only env sz l events pl :
  calculatePlacements env sz l events = Some pl ->
  exists startY,
    laidOutSeq env sz (actorDict l) (plActors pl) (plWidth pl)
      startY events (collectedTriples env sz l events) (plHeight pl) (plEvents pl).
Proof.
  intros H. unfold calculatePlacements in H. unfold collectedTriples.
  destruct (sizeActors sz 0 l _) as [sized gaps0] eqn:Hsize.
  pose proof (walksLayOut_events env sz (actorDict l)) as Hwalk.
  destruct (calculateLaneGapsAndTextSize env sz (actorDict l) events)
    as [gs events1] eqn:Hgs.
  set (gaps := foldl distributePass (foldl localPass gaps0 gs) gs) in H.
  destruct (gaps !! 0%nat) as [first|]; [| discriminate]. simpl in H.
  destruct (placeActors sz 0 sized gaps first 0) as [[[placed offset] maxHeight]|] eqn:Hplace;
    [| discriminate].
  simpl in H.
  destruct (calculateEventPlacements _ _ _ _ _ _ _) as [[y events2]|] eqn:Hy;
    [| discriminate].
  simpl in H. injection H as <-. simpl.
  exists (maxHeight + padding sz * 2 + 1).
  set (finished := map (fun a => setActorGeo a (<["lineY" := y]> (actorGeo a))) placed).
  assert (forall idx a x,
             placed !! idx = Some a -> actorGeo a !! "lineX" = Some x ->
             exists a', finished !! idx = Some a' /\ actorGeo a' !! "lineX" = Some x)
    as Hfinished.
  { intros idx a x Ha Hx. eexists. split.
    - unfold finished. rewrite list_lookup_fmap, Ha. reflexivity.
    - simpl. rewrite lookup_insert_ne by discriminate. exact Hx. }
  specialize (Hwalk placed finished offset events).
  rewrite Hgs in Hwalk. cbn [fst snd] in Hwalk.
  apply Hwalk; [| exact Hy].
  apply Forall_forall. intros e _.
  exact (walksLayOut_all env sz (actorDict l) placed finished offset Hfinished e).
Qed.

Lemma layout_descends_into_alt_groupings_only_witness :
  exists l events pl,
    parseScriptToArrays
      ("alt ok" ++ newline ++ "A->B: x" ++ newline ++ "else bad" ++ newline ++
       "B->A: y" ++ newline ++ "end")%string
    = Ok (l, Some events) /\
    calculatePlacements ecmaScript2023 asciiSizes l events = Some pl /\
    exists startY,
      laidOutSeq ecmaScript2023 asciiSizes (actorDict l) (plActors pl) (plWidth pl)
        startY events (collectedTriples ecmaScript2023 asciiSizes l events)
        (plHeight pl) (plEvents pl).
Proof.
  do 3 eexists.
  split; [vm_compute; reflexivity |].
  split; [vm_compute; reflexivity |].
  apply (layout_descends_into_alt_groupings_only ecmaScript2023 asciiSizes).
  vm_compute. reflexivity.
Defined.

(** C2, refuted as stated.  For the script [opt x / A->B: hello / end] the
    layout collects no triple, although the nested signal joins two actors,
    and returns the events as the parser built them: neither the grouping nor
    the signal nested in it has any geometry.  The same holds for the script
    [opt x / alt y / A->B: hello / end / end], whose [alt] grouping is
    nested in the [opt] grouping. *)
Lemma opt_grouping_is_passed_over :
  (exists l events pl,
      parseScriptToArrays ("opt x" ++ newline ++ "A->B: hello" ++ newline ++ "end")%string
      = Ok (l, Some events) /\
      events = [ECases "opt" [ECase "x" [ESignal "hello" "A" "B" false false ∅] ∅] ∅] /\
      collectedTriples ecmaScript2023 asciiSizes l events = [] /\
      calculatePlacements ecmaScript2023 asciiSizes l events = Some pl /\
      plEvents pl = events) /\
  (exists l events pl,
      parseScriptToArrays
        ("opt x" ++ newline ++ "alt y" ++ newline ++ "A->B: hello" ++ newline ++
         "end" ++ newline ++ "end")%string
      = Ok (l, Some events) /\
      events = [ECases "opt"
                  [ECase "x"
                     [ECases "alt"
                        [ECase "y" [ESignal "hello" "A" "B" false false ∅] ∅] ∅] ∅] ∅] /\
      collectedTriples ecmaScript2023 asciiSizes l events = [] /\
      calculatePlacements ecmaScript2023 asciiSizes l events = Some pl /\
      plEvents pl = events).
Proof.
  split.
  - do 3 eexists.
    split; [vm_compute; reflexivity |].
    split; [reflexivity |].
    split; [vm_compute; reflexivity |].
    split; vm_compute; reflexivity.
  - do 3 eexists.
    split; [vm_compute; reflexivity |].
    split; [reflexivity |].
    split; [vm_compute; reflexivity |].
    split; vm_compute; reflexivity.
Qed.

(** The script of the witness: the two signals yield their triples, the
    signal of the first case is placed a top margin below the grouping, the
    signal of the second case where the first case ends, and the height of
    the grouping is the fixed minimum plus the heights of the two cases. *)
Example alt_grouping_is_laid_out :
  exists l events pl geo geo1 geo2 geoA geoB,
    parseScriptToArrays
      ("alt ok" ++ newline ++ "A->B: x" ++ newline ++ "else bad" ++ newline ++
       "B->A: y" ++ newline ++ "end")%string
    = Ok (l, Some events) /\
    collectedTriples ecmaScript2023 asciiSizes l events
    = [(Some 0%nat, Some 1%nat, 3); (Some 1%nat, Some 0%nat, 3)] /\
    calculatePlacements ecmaScript2023 asciiSizes l events = Some pl /\
    plEvents pl
    = [ECases "alt"
         [ECase "ok" [ESignal "x" "A" "B" false false geoA] geo1;
          ECase "bad" [ESignal "y" "B" "A" false false geoB] geo2] geo] /\
    (geo !! "x" = Some 0 /\ geo !! "y" = Some 6 /\
     geo !! "width" = Some (plWidth pl) /\ geo !! "height" = Some 7) /\
    (geoA !! "startY" = Some 7 /\ geoA !! "endY" = Some 7 /\ geo1 !! "height" = Some 3) /\
    (geoB !! "startY" = Some 10 /\ geoB !! "endY" = Some 10 /\ geo2 !! "height" = Some 3) /\
    plHeight pl = 14.
Proof.
  do 8 eexists.
  split; [vm_compute; reflexivity |].
  split; [vm_compute; reflexivity |].
  split; [vm_compute; reflexivity |].
  split; [vm_compute; reflexivity |].
  repeat split; vm_compute; reflexivity.
Qed.

(** ** The layout returns *)

Section PlacementReturns.

Variable env : environment.
Variable sz : sizes.
Variable dict : dictionary.
Variable placed : list actor.
Variable totalWidth : float.

(** Every actor of the dictionary has its lane centre. *)
Hypothesis placed_lineX : forall key idx,
  dictGet env dict key = Some (Own idx) ->
  exists a x, placed !! idx = Some a /\ actorGeo a !! "lineX" = Some x.

Lemma lineXOf_own key a :
  dictGet env dict key = Some a -> isInherited (Some a) = false ->
  is_Some (lineXOf placed a).
Proof.
  intros Hk Ha. destruct a as [idx|]; [| discriminate].
  destruct (placed_lineX key idx Hk) as (b & x & Hb & Hx).
  simpl. rewrite Hb. simpl. rewrite Hx. eexists. reflexivity.
Qed.

Lemma placeable_events events :
  Forall (placeable env sz dict placed totalWidth) events ->
  existsb (hitsInherited env dict) events = false ->
  forall y,
    is_Some (calculateEventPlacements env sz dict placed
               (snd (calculateLaneGapsAndTextSize env sz dict events))
               y totalWidth).
Proof.
  unfold calculateEventPlacements, calculateLaneGapsAndTextSize.
  induction 1 as [|e events He Hevents IH]; intros Hhits y.
  - eexists. reflexivity.
  - simpl in Hhits. apply orb_false_elim in Hhits. destruct Hhits as [Hh Hhs].
    rewrite forEachCollect_cons. cbn [snd]. rewrite forEachThread_cons.
    destruct (He Hh y) as [[y1 e'] ->].
    destruct (IH Hhs y1) as [[y2 events'] ->]. eexists. reflexivity.
Qed.

Lemma placeable_cases cases :
  Forall (fun c => Forall (placeable env sz dict placed totalWidth) (caseEvents c))
    cases ->
  existsb (fun c => match c with
                    | ECase _ nested _ => existsb (hitsInherited env dict) nested
                    end) cases = false ->
  forall cursor,
    is_Some (forEachThread (placeCase env sz dict placed totalWidth)
               (snd (forEachCollect (laneGapsOfCase env sz dict) cases)) cursor).
Proof.
  induction 1 as [|c cases Hc Hcases IH]; intros Hhits cursor.
  - eexists. reflexivity.
  - simpl in Hhits. apply orb_false_elim in Hhits. destruct Hhits as [Hh Hhs].
    rewrite forEachCollect_cons. cbn [snd]. rewrite forEachThread_cons.
    destruct c as [caption nested geo]. rewrite laneGapsOfCase_eq. cbn [snd].
    destruct cursor as [y altHeight]. rewrite placeCase_eq.
    destruct (placeable_events nested Hc Hh y) as [[endY nested'] ->].
    destruct (IH Hhs (endY, altHeight + (endY - y))) as [[cursor' cases'] ->].
    eexists. reflexivity.
Qed.

Lemma placeable_all e : placeable env sz dict placed totalWidth e.
Proof.
  induction e as [caption src dest dotted open geo|t caption align src geo
                 |t cases geo IH|t src|t nested|t start] using event_nested_ind;
    intros Hhits y.
  - simpl in *.
    destruct (dictGet env dict src) as [a1|] eqn:H1;
      [| simpl; rewrite H1; eexists; reflexivity].
    destruct (dictGet env dict dest) as [a2|] eqn:H2;
      [| simpl; rewrite H1, H2; eexists; reflexivity].
    apply orb_false_elim in Hhits. destruct Hhits as [Hh1 Hh2].
    simpl. rewrite H1, H2.
    destruct (lineXOf_own src a1 H1 Hh1) as [x1 ->].
    destruct (lineXOf_own dest a2 H2 Hh2) as [x2 ->].
    simpl. rewrite lookup_insert_eq. eexists. reflexivity.
  - simpl in *. destruct (t =? "note")%string eqn:Ht;
      [| simpl; rewrite Ht; eexists; reflexivity].
    simpl in Hhits.
    destruct (dictGet env dict (propertyKey src)) as [a1|] eqn:H1;
      [| simpl; rewrite Ht, H1; eexists; reflexivity].
    simpl. rewrite Ht, H1.
    destruct (lineXOf_own _ a1 H1 Hhits) as [x1 ->].
    simpl. rewrite lookup_insert_eq. eexists. reflexivity.
  - rewrite laneGapsOfEvent_cases. simpl in Hhits.
    destruct (t =? "alt")%string eqn:Ht.
    + simpl in Hhits.
      destruct (forEachCollect (laneGapsOfCase env sz dict) cases)
        as [gs cases'] eqn:Hcollect.
      cbn [snd]. rewrite placeEvent_cases, Ht.
      pose proof (placeable_cases cases IH Hhits (y + altMarginItems sz, altMinHeight sz))
        as [[[endY altHeight] cases''] Hplace].
      rewrite Hcollect in Hplace. cbn [snd] in Hplace. rewrite Hplace.
      eexists. reflexivity.
    + cbn [snd]. rewrite placeEvent_cases, Ht. eexists. reflexivity.
  - eexists. reflexivity.
  - eexists. reflexivity.
  - eexists. reflexivity.
Qed.

End PlacementReturns.

Lemma sizeActors_sized sz l : forall i gaps,
  length (fst (sizeActors sz i l gaps)) = length l /\
  length (snd (sizeActors sz i l gaps)) = length gaps /\
  Forall (fun a => is_Some (actorGeo a !! "width") /\ is_Some (actorGeo a !! "height"))
    (fst (sizeActors sz i l gaps)).
Proof.
  induction l as [|a l IH]; intros i gaps; simpl; [auto |].
  match goal with
  | |- context [sizeActors sz (S i) l ?g] =>
      destruct (IH (S i) g) as (Hlen & Hgaps & Hall);
      destruct (sizeActors sz (S i) l g) as [rest' gaps'] eqn:Hrest
  end.
  simpl in *. split; [congruence |]. split.
  - rewrite Hgaps, !length_alter. reflexivity.
  - constructor; [| exact Hall]. simpl. split.
    + rewrite lookup_insert_eq. eexists. reflexivity.
    + rewrite lookup_insert_ne by discriminate. rewrite lookup_insert_eq.
      eexists. reflexivity.
Qed.

Lemma placeActors_returns sz l : forall i gaps offset maxHeight,
  Forall (fun a => is_Some (actorGeo a !! "width") /\ is_Some (actorGeo a !! "height")) l ->
  (i + length l < length gaps)%nat ->
  exists placed offset' maxHeight',
    placeActors sz i l gaps offset maxHeight = Some (placed, offset', maxHeight') /\
    length placed = length l /\
    Forall (fun a => is_Some (actorGeo a !! "lineX")) placed.
Proof.
  induction l as [|a l IH]; intros i gaps offset maxHeight Hall Hlen; simpl.
  - eexists [], _, _. split; [reflexivity |]. split; [reflexivity | constructor].
  - apply Forall_cons in Hall. destruct Hall as [[[w Hw] [h Hh]] Hall].
    rewrite Hw, Hh. simpl.
    destruct (lookup_lt_is_Some_2 gaps (S i)) as [gap Hgap]; [simpl in Hlen; lia |].
    rewrite Hgap. simpl.
    destruct (IH (S i) gaps (offset + gap) (mathMax maxHeight h) Hall)
      as (placed & o & m & Hplace & Hl & Hx); [simpl in Hlen; lia |].
    rewrite Hplace. simpl. eexists _, _, _. split; [reflexivity |].
    split; [simpl; congruence |].
    constructor; [| exact Hx]. simpl.
    rewrite !lookup_insert_ne by discriminate. rewrite lookup_insert_eq.
    eexists. reflexivity.
Qed.

(** [calculatePlacements] returns whenever no lookup of its walks finds an
    inherited property of the dictionary. *)
Theorem layout_returns env sz l events :
  existsb (hitsInherited env (actorDict l)) events = false ->
  exists pl, calculatePlacements env sz l events = Some pl.
Proof.
  intros Hhits. unfold calculatePlacements.
  destruct (sizeActors_sized sz l 0 (replicate (length l + 1) 0))
    as (Hlen & Hgaps0 & Hsized).
  destruct (sizeActors sz 0 l _) as [sized gaps0] eqn:Hsize. simpl in Hlen, Hgaps0, Hsized.
  rewrite length_replicate in Hgaps0.
  pose proof (placeable_events env sz (actorDict l)) as Hevents.
  unfold calculateLaneGapsAndTextSize in *.
  destruct (forEachCollect (laneGapsOfEvent env sz (actorDict l)) events)
    as [gs events1] eqn:Hgs.
  set (gaps := foldl distributePass (foldl localPass gaps0 gs) gs).
  assert (length gaps = (length l + 1)%nat) as Hgaps.
  { unfold gaps.
    rewrite <- (Forall2_length _ _ _
                  (foldl_related widened distributePass distributePass_widened gs _)).
    rewrite <- (Forall2_length _ _ _
                  (foldl_related notLowered localPass localPass_notLowered gs _)).
    exact Hgaps0. }
  destruct (lookup_lt_is_Some_2 gaps 0%nat) as [first Hfirst]; [lia |].
  rewrite Hfirst. simpl.
  destruct (placeActors_returns sz sized 0 gaps first 0 Hsized)
    as (placed & offset & maxHeight & Hplace & Hlp & Hx); [lia |].
  rewrite Hplace. simpl.
  assert (forall key idx,
             dictGet env (actorDict l) key = Some (Own idx) ->
             exists a x, placed !! idx = Some a /\ actorGeo a !! "lineX" = Some x)
    as Hdict.
  { intros key idx Hk. apply actorDict_lookup_lt in Hk.
    destruct (lookup_lt_is_Some_2 placed idx) as [a Ha]; [lia |].
    destruct (proj1 (Forall_lookup _ _) Hx idx a Ha) as [x Hxa]. eauto. }
  specialize (Hevents placed offset events).
  rewrite Hgs in Hevents. cbn [snd] in Hevents.
  destruct (Hevents
              (proj2 (Forall_forall _ _)
                 (fun e _ => placeable_all env sz (actorDict l) placed offset Hdict e))
              Hhits (maxHeight + padding sz * 2 + 1))
    as [[y events2] Hy].
  rewrite Hy. simpl. eexists. reflexivity.
Qed.

(** A name that the dictionary inherits: the note of the script
    [note right of toString: hi] is anchored at a function of
    [Object.prototype], and the note of the script
    [participant __proto__ / note right of length: hi] at the length of the
    pair that is the prototype of the dictionary.  The first walk collects a
    triple without indices, and the second walk throws. *)
Example inherited_name_makes_layout_throw :
  (exists l events,
      parseScriptToArrays "note right of toString: hi" = Ok (l, Some events) /\
      collectedTriples ecmaScript2023 asciiSizes l events = [(None, None, 6)] /\
      calculatePlacements ecmaScript2023 asciiSizes l events = None) /\
  (exists l events,
      parseScriptToArrays
        ("participant __proto__" ++ newline ++ "note right of length: hi")%string
      = Ok (l, Some events) /\
      collectedTriples ecmaScript2023 asciiSizes l events = [(None, None, 6)] /\
      calculatePlacements ecmaScript2023 asciiSizes l events = None).
Proof.
  split.
  - do 2 eexists.
    split; [vm_compute; reflexivity |].
    split; vm_compute; reflexivity.
  - do 2 eexists.
    split; [vm_compute; reflexivity |].
    split; vm_compute; reflexivity.
Qed.

(** ** The layout of a parsed script *)

Lemma hasKey_dictSet dict key idx k :
  hasKey dict k \/ k = key -> hasKey (dictSet dict key idx) k.
Proof.
  unfold hasKey, dictSet. intros H.
  destruct (key =? "__proto__")%string eqn:Hkey; simpl.
  - apply String.eqb_eq in Hkey. subst key.
    destruct H as [[H | [-> H]] | ->]; [left; exact H | right | right];
      (split; [reflexivity | eexists; reflexivity]).
  - destruct H as [[H | H] | ->].
    + left. destruct (decide (key = k)) as [<-|Hne].
      * rewrite lookup_insert_eq. eexists. reflexivity.
      * rewrite lookup_insert_ne by exact Hne. exact H.
    + right. exact H.
    + left. rewrite lookup_insert_eq. eexists. reflexivity.
Qed.

Lemma hasKey_actorDictFrom l : forall i dict k,
  hasKey dict k \/ knownCaption k l = true -> hasKey (actorDictFrom i l dict) k.
Proof.
  induction l as [|a l IH]; intros i dict k H; simpl.
  - destruct H as [H | H]; [exact H | discriminate].
  - apply IH. unfold knownCaption in H. simpl in H.
    destruct H as [H | H].
    + left. apply hasKey_dictSet. left. exact H.
    + apply orb_true_iff in H. destruct H as [H | H]; [| right; exact H].
      left. apply hasKey_dictSet. right. apply String.eqb_eq in H. congruence.
Qed.

Lemma hasKey_dictGet env dict key :
  hasKey dict key -> exists idx, dictGet env dict key = Some (Own idx).
Proof.
  unfold hasKey, dictGet. intros [[idx H] | [-> [idx H]]].
  - rewrite H. eauto.
  - destruct (dictOwn dict !! "__proto__") as [i|]; [eauto |].
    rewrite H. eauto.
Qed.

(** The caption of an actor is found in the dictionary as an own entry. *)
Lemma knownCaption_dictGet env l name :
  knownCaption name l = true ->
  exists idx, dictGet env (actorDict l) name = Some (Own idx).
Proof.
  intros H. apply hasKey_dictGet. apply hasKey_actorDictFrom. right. exact H.
Qed.

Lemma hitsInherited_anchored env l e :
  Forall (fun name => knownCaption name l = true) (signalNames e) ->
  anchoredAtInherited env (actorDict l) e = false ->
  hitsInherited env (actorDict l) e = false.
Proof.
  induction e as [caption src dest dotted open geo|t caption align src geo
                 |t cases geo IH|t src|t nested|t start] using event_nested_ind;
    intros Hnames Hnotes; try reflexivity.
  - simpl in Hnames. apply Forall_cons in Hnames. destruct Hnames as [Hs Hd].
    apply Forall_cons in Hd. destruct Hd as [Hd _].
    destruct (knownCaption_dictGet env l src Hs) as [i1 H1].
    destruct (knownCaption_dictGet env l dest Hd) as [i2 H2].
    simpl. rewrite H1, H2. reflexivity.
  - exact Hnotes.
  - simpl in *. destruct (t =? "alt")%string; [| reflexivity]. simpl in *.
    induction IH as [|c cases Hc _ IHcases]; [reflexivity |].
    simpl in *. apply Forall_app in Hnames. destruct Hnames as [Hn Hns].
    apply orb_false_elim in Hnotes. destruct Hnotes as [Hc' Hcs'].
    rewrite (IHcases Hns Hcs'), orb_false_r.
    destruct c as [cap nested g]. simpl in Hc.
    clear IHcases Hns Hcs'.
    induction Hc as [|e nested He _ IHnested]; [reflexivity |].
    simpl in *. apply Forall_app in Hn. destruct Hn as [Hne Hnn].
    apply orb_false_elim in Hc'. destruct Hc' as [He' Hn'].
    rewrite (He Hne He'), (IHnested Hnn Hn'). reflexivity.
Qed.

(** X8: the layout of a parsed script returns unless a note that its walks
    reach is anchored at a name that the dictionary inherits: the signals
    never make it throw, since their names are captions of actors and those
    are found as entries of the dictionary's own. *)
Theorem layout_of_parsed_script_returns env sz script l events :
  parseScriptToArrays script = Ok (l, Some events) ->
  existsb (anchoredAtInherited env (actorDict l)) events = false ->
  exists pl, calculatePlacements env sz l events = Some pl.
Proof.
  intros H Hnotes. apply layout_returns.
  destruct (parsed_script script l events H) as (st & Hst & -> & Hread).
  pose proof (signalNames_known script st events Hst Hread) as Hnames.
  clear H Hst Hread.
  induction events as [|e events IH]; [reflexivity |].
  simpl in *. apply Forall_app in Hnames. destruct Hnames as [Hn Hns].
  apply orb_false_elim in Hnotes. destruct Hnotes as [He Hes].
  rewrite (hitsInherited_anchored env (actors st) e Hn He), (IH Hes Hns). reflexivity.
Qed.

Lemma layout_of_parsed_script_returns_witness :
  exists l events pl,
    parseScriptToArrays
      ("participant __proto__" ++ newline ++ "toString->__proto__: hi" ++ newline ++
       "note right of __proto__: x")%string
    = Ok (l, Some events) /\
    calculatePlacements ecmaScript2023 asciiSizes l events = Some pl.
Proof.
  eassert (parseScriptToArrays
             ("participant __proto__" ++ newline ++ "toString->__proto__: hi" ++ newline ++
              "note right of __proto__: x")%string
           = Ok (_, Some _)) as H by (vm_compute; reflexivity).
  destruct (layout_of_parsed_script_returns ecmaScript2023 asciiSizes _ _ _ H) as [pl Hpl];
    [vm_compute; reflexivity |].
  eexists _, _, pl. split; [exact H | exact Hpl].
Defined.
